(** * pyBLP: the BLP random-coefficient logit estimator (src/pyBLP.py)

    A shallow embedding of the class [BLP] of src/pyBLP.py and the proofs of
    its specification.

    Conventions of the embedding.
    - numpy arrays of floats are MathComp matrices.  Dense linear algebra is
      modelled in exact arithmetic over an ordered field [F]; the floats that
      the contraction mapping tests with [np.isnan] are values of [np_float],
      a field element or [NaN].  The IEEE infinities are not modelled.
    - the instance attributes of a [BLP] object are the fields of the record
      [BLP]; a method is a function from the object (and its arguments) to an
      outcome and the mutated object.
    - the unbounded [while True] loop of [cal_δ] is a function with fuel:
      [OutOfFuel] stands for "has not returned after that many iterations".
    - [print] calls are not modelled. *)

From HB Require Import structures.
From mathcomp Require Import ssreflect ssrfun ssrbool eqtype ssrnat seq choice div.
From mathcomp Require Import fintype finfun bigop order ssralg ssrnum matrix.
From mathcomp Require Import ssrint rat tuple.

Set Implicit Arguments.
Unset Strict Implicit.
Unset Printing Implicit Defensive.

Import GRing.Theory Num.Theory Order.POrderTheory Order.TotalTheory.
Local Open Scope ring_scope.

(** ** Outcomes of Python code *)

(** The exceptions the class can raise: the two [raise Exception(...)] of the
    source, numpy's [LinAlgError] (singular matrix in [solve], matrix that is
    not positive definite in [cholesky]), Python's [AttributeError] (an
    attribute that was never assigned), [TypeError] (item assignment on
    [None]) and [ValueError] (numpy: shape mismatch in an indexed
    assignment, reduction of an empty array; scipy: an argument of
    [cho_solve] that is not finite).

    [NaN_in_linear_algebra] is not an exception of the source.  It marks the
    one place where the exact-arithmetic model stops: the choice
    probabilities that [cal_jacobian] feeds to its dense solves hold a NaN,
    and numpy would go on computing with it. *)
Inductive exn :=
  | Exception_nan_in_diffs
  | Exception_θ_vec_before_init
  | LinAlgError
  | AttributeError
  | TypeError
  | ValueError
  | NaN_in_linear_algebra.

Inductive result (A : Type) :=
  | Ok of A
  | Raise of exn.
Arguments Raise {A} _.

(** A computation that is given a number of loop iterations. *)
Inductive run (A : Type) :=
  | Done of A
  | OutOfFuel.
Arguments OutOfFuel {A}.

Definition bind_result {A B} (r : result A) (k : A -> result B) : result B :=
  match r with Ok a => k a | Raise e => Raise e end.

Definition is_ok {A} (r : result A) : bool :=
  if r is Ok _ then true else false.

Definition result_get {A} (d : A) (r : result A) : A :=
  if r is Ok a then a else d.

(** ** Floats that can be NaN *)

Section NpFloat.

Variable F : realFieldType.

Inductive np_float := Fin of F | NaN.

Definition isnan (x : np_float) : bool :=
  if x is NaN then true else false.

(** Floats can be compared for identity of representation ([NaN] with
    [NaN]); this is not the [==] of numpy. *)
Definition option_of_np_float (x : np_float) : option F :=
  if x is Fin a then Some a else None.

Definition np_float_of_option (o : option F) : np_float :=
  if o is Some a then Fin a else NaN.

Lemma option_of_np_floatK : cancel option_of_np_float np_float_of_option.
Proof. by case. Qed.

HB.instance Definition _ := Equality.copy np_float (can_type option_of_np_floatK).

Definition fadd (x y : np_float) : np_float :=
  match x, y with Fin a, Fin b => Fin (a + b) | _, _ => NaN end.

Definition fsub (x y : np_float) : np_float :=
  match x, y with Fin a, Fin b => Fin (a - b) | _, _ => NaN end.

Definition fabs (x : np_float) : np_float :=
  match x with Fin a => Fin `|a| | NaN => NaN end.

(** [x < t] on floats: a comparison with NaN is [False]. *)
Definition flt (x : np_float) (t : F) : bool :=
  if x is Fin a then a < t else false.

Definition fin_val (x : np_float) : F := if x is Fin a then a else 0.

(** [np.isnan(a).sum()] used as a condition: some entry is NaN. *)
Definition has_nan m n (a : 'M[np_float]_(m, n)) : bool :=
  [exists i, exists j, isnan (a i j)].

(** The finite content of an array that holds no NaN. *)
Definition all_fin m n (a : 'M[np_float]_(m, n)) : option 'M[F]_(m, n) :=
  if has_nan a then None else Some (map_mx fin_val a).

Definition of_fin m n (a : 'M[F]_(m, n)) : 'M[np_float]_(m, n) := map_mx Fin a.

(** [abs(a).max()] of a one-dimensional array: numpy raises [ValueError] on an
    empty array and propagates NaN. *)
Definition np_abs_max n (a : 'cV[np_float]_n) : result np_float :=
  if n == 0%N then Raise ValueError
  else Ok (if all_fin a is Some a' then Fin (\big[Num.max/0]_(i < n) `|a' i 0|)
           else NaN).

(** [abs(a).mean()]. *)
Definition np_abs_mean n (a : 'cV[np_float]_n) : np_float :=
  if all_fin a is Some a' then Fin ((\sum_(i < n) `|a' i 0|) / n%:R) else NaN.

Lemma has_nanPn m n (a : 'M[np_float]_(m, n)) :
  reflect (forall i j, ~~ isnan (a i j)) (~~ has_nan a).
Proof.
apply: (iffP idP) => [H i j|H].
  apply: contra H => Hn; apply/existsP; exists i; apply/existsP; by exists j.
apply/existsP => -[i /existsP [j Hn]]; by move: (H i j); rewrite Hn.
Qed.

Lemma has_nan_of_fin m n (a : 'M[F]_(m, n)) : has_nan (of_fin a) = false.
Proof. by apply/negbTE/has_nanPn => i j; rewrite mxE. Qed.

Lemma all_fin_of_fin m n (a : 'M[F]_(m, n)) : all_fin (of_fin a) = Some a.
Proof.
rewrite /all_fin has_nan_of_fin; congr Some.
by apply/matrixP => i j; rewrite !mxE.
Qed.

Lemma all_finK m n (a : 'M[np_float]_(m, n)) a' :
  all_fin a = Some a' -> a = of_fin a'.
Proof.
rewrite /all_fin; case: ifPn => // /has_nanPn H [<-].
apply/matrixP => i j; rewrite !mxE.
by case: (a i j) (H i j).
Qed.

Lemma all_fin_has_nan m n (a : 'M[np_float]_(m, n)) :
  has_nan a = ~~ (all_fin a).
Proof. by rewrite /all_fin; case: (has_nan a). Qed.

End NpFloat.

Arguments NaN {F}.

(** ** Flat indexing

    numpy lays the product observations out market after market: row
    [i * nbrand + r] is product [r] of market [i].  The same layout holds for
    the columns of [v] and [D] (one block of [nsimind] draws per
    characteristic) and for [θ.T.ravel()]. *)

Section FlatIndex.

Lemma flat_subproof m n (i : 'I_m) (j : 'I_n) : (i * n + j < m * n)%N.
Proof.
apply: (@leq_trans (i * n + n)%N); first by rewrite ltn_add2l.
by rewrite addnC -mulSn leq_mul2r ltn_ord orbT.
Qed.

Definition flat m n (i : 'I_m) (j : 'I_n) : 'I_(m * n) :=
  Ordinal (flat_subproof i j).

Lemma fdiv_subproof m n (c : 'I_(m * n)) : (c %/ n < m)%N.
Proof.
case: n c => [|n] c; first by case: c => c; rewrite muln0.
by rewrite ltn_divLR.
Qed.

Lemma fmod_subproof m n (c : 'I_(m * n)) : (c %% n < n)%N.
Proof.
case: n c => [|n] c; first by case: c => c; rewrite muln0.
by rewrite ltn_pmod.
Qed.

(** [c // n] and [c % n] of a flat index. *)
Definition fdiv m n (c : 'I_(m * n)) : 'I_m := Ordinal (fdiv_subproof c).
Definition fmod m n (c : 'I_(m * n)) : 'I_n := Ordinal (fmod_subproof c).

Lemma fdiv_flat m n (i : 'I_m) (j : 'I_n) : fdiv (flat i j) = i.
Proof.
apply: val_inj => /=.
by rewrite divnMDl ?divn_small ?addn0 //; case: n j => [[]|].
Qed.

Lemma fmod_flat m n (i : 'I_m) (j : 'I_n) : fmod (flat i j) = j.
Proof. by apply: val_inj => /=; rewrite modnMDl modn_small. Qed.

Lemma flat_divmod m n (c : 'I_(m * n)) : flat (fdiv c) (fmod c) = c.
Proof. by apply: val_inj => /=; rewrite -divn_eq. Qed.

End FlatIndex.

(** ** Dense linear algebra (numpy.linalg, scipy.linalg) in exact arithmetic *)

Section LinAlg.

Variable F : realFieldType.

(** [numpy.linalg.solve(A, B)]: the solution [X] of [A X = B]; raises
    [LinAlgError] when [A] is singular. *)
Definition solve n m (A : 'M[F]_n) (B : 'M[F]_(n, m)) : result 'M[F]_(n, m) :=
  if A \in unitmx then Ok (invmx A *m B) else Raise LinAlgError.

(** [scipy.linalg.cho_solve((c, True), B)]: given the lower Cholesky factor
    [c] of a matrix [A = c c^T], two triangular solves: the forward
    substitution [c Y = B], then the back substitution [c^T X = Y].  No
    inverse of [A] is formed. *)
Definition forward_subst n m (c : 'M[F]_n) (B : 'M[F]_(n, m)) : 'M[F]_(n, m) :=
  invmx c *m B.

Definition back_subst n m (c : 'M[F]_n) (B : 'M[F]_(n, m)) : 'M[F]_(n, m) :=
  invmx c^T *m B.

Definition cho_solve n m (c : 'M[F]_n) (B : 'M[F]_(n, m)) : 'M[F]_(n, m) :=
  back_subst c (forward_subst c B).

(** What [numpy.linalg.cholesky] guarantees when it returns [L] for [A]:
    [L] is lower triangular with a positive diagonal and [L L^T = A]. *)
Definition is_cholesky n (A L : 'M[F]_n) : Prop :=
  [/\ is_trig_mx L, forall i, 0 < L i i & L *m L^T = A].

Lemma cholesky_unit n (A L : 'M[F]_n) : is_cholesky A L -> L \in unitmx.
Proof.
case=> Htrig Hpos _.
rewrite unitmxE (det_trig Htrig) unitfE.
by apply/prodf_neq0 => i _; rewrite gt_eqF.
Qed.

Lemma cholesky_unitA n (A L : 'M[F]_n) : is_cholesky A L -> A \in unitmx.
Proof.
move=> H; have LU := cholesky_unit H; case: H => _ _ <-.
by rewrite unitmx_mul LU unitmx_tr LU.
Qed.

Lemma invmxM n (A B : 'M[F]_n) :
  A \in unitmx -> B \in unitmx -> invmx (A *m B) = invmx B *m invmx A.
Proof.
move=> UA UB; have UAB : A *m B \in unitmx by rewrite unitmx_mul UA UB.
rewrite -[RHS](mulKmx UAB) -(mulmxA A) (mulmxA B) mulmxV // mul1mx.
by rewrite mulmxV // mulmx1.
Qed.

(** Solving against the factor applies the inverse of the factored matrix. *)
Lemma cho_solveE n m (A L : 'M[F]_n) (B : 'M[F]_(n, m)) :
  is_cholesky A L -> cho_solve L B = invmx A *m B.
Proof.
move=> H; have LU := cholesky_unit H; case: H => _ _ <-.
rewrite /cho_solve /back_subst /forward_subst mulmxA; congr (_ *m _).
by rewrite invmxM ?unitmx_tr.
Qed.

Lemma cho_solve_correct n m (A L : 'M[F]_n) (B : 'M[F]_(n, m)) :
  is_cholesky A L -> A *m cho_solve L B = B.
Proof.
by move=> H; rewrite (cho_solveE _ H) mulKVmx // (cholesky_unitA H).
Qed.

Lemma solve_correct n m (A : 'M[F]_n) (B X : 'M[F]_(n, m)) :
  solve A B = Ok X -> A *m X = B.
Proof. by rewrite /solve; case: ifP => // U [<-]; rewrite mulKVmx. Qed.

Lemma solve_unitE n m (A : 'M[F]_n) (B : 'M[F]_(n, m)) :
  A \in unitmx -> solve A B = Ok (invmx A *m B).
Proof. by rewrite /solve => ->. Qed.

Lemma solve_unit n m (A : 'M[F]_n) (B X : 'M[F]_(n, m)) :
  solve A B = Ok X -> A \in unitmx /\ X = invmx A *m B.
Proof. by rewrite /solve; case: ifP => // U [<-]. Qed.

(** Symmetry and positive semi-definiteness. *)
Definition symmetric n (A : 'M[F]_n) : Prop := A^T = A.

Definition psd n (A : 'M[F]_n) : Prop :=
  forall x : 'cV[F]_n, 0 <= (x^T *m A *m x) 0 0.

Lemma gram_ge0 m n (M : 'M[F]_(m, n)) (x : 'cV[F]_n) :
  0 <= (x^T *m (M^T *m M) *m x) 0 0.
Proof.
rewrite mulmxA -trmx_mul -mulmxA mxE.
by apply: sumr_ge0 => i _; rewrite mxE -expr2 sqr_ge0.
Qed.

Lemma symmetric_inv n (A : 'M[F]_n) : symmetric A -> symmetric (invmx A).
Proof. by rewrite /symmetric => H; rewrite trmx_inv H. Qed.

Lemma symmetric_gram m n (M : 'M[F]_(m, n)) : symmetric (M^T *m M).
Proof. by rewrite /symmetric trmx_mul trmxK. Qed.

End LinAlg.

(** ** The class [BLP] *)

Section BLP.

Variable F : realFieldType.
Local Notation fl := (np_float F).

(** [data.nmkt], [data.nbrand], [data.nsimind]; the column counts of [x1],
    [x2] and [Z]; the number of demographic variables. *)
Variables nmkt nbrand nsimind nx1 nx2 nZ nD : nat.

(** The number of product observations (rows of [x1], [x2], [Z], [δ]). *)
Local Notation nobs := (nmkt * nbrand)%N.

(** The parameter matrix: column 0 is [θ_v], the others are [θ_D]. *)
Local Notation θ_shape := 'M[F]_(nx2, 1 + nD).
(** An index into [θ.T]. *)
Local Notation θ_T_index := ('I_(1 + nD) * 'I_nx2)%type.

(** *** What the class takes from outside *)

(** [np.exp] and [np.log] on one float. *)
Variables np_exp np_log : fl -> fl.

(** [numpy.linalg.cholesky], with the guarantee it gives when it returns. *)
Variable cholesky : forall n, 'M[F]_n -> result 'M[F]_n.
Hypothesis cholesky_spec :
  forall n (A L : 'M[F]_n), cholesky A = Ok L -> is_cholesky A L.

(** The compiled module [_BLP] is not part of the sources.  Its three
    functions are taken as they are called: [cal_mu(θ_v, θ_D, v, D, x2, nmkt,
    nsimind, nbrand)] returns the matrix [μ]; [cal_s(exp_Xb, nmkt, nsimind,
    nbrand, s)] fills the buffer [s] with the simulated shares;
    [cal_ind_choice_prob(exp_Xb, nmkt, nsimind, nbrand)] returns the choice
    probabilities. *)
Variable cal_mu :
  'cV[F]_nx2 -> 'M[F]_(nx2, nD) -> 'M[F]_(nmkt, nx2 * nsimind) ->
  'M[F]_(nmkt, nD * nsimind) -> 'M[F]_(nobs, nx2) -> 'M[fl]_(nobs, nsimind).
Variable cal_s : 'M[fl]_(nobs, nsimind) -> 'cV[fl]_nobs.
Variable cal_ind_choice_prob : 'M[fl]_(nobs, nsimind) -> 'M[fl]_(nobs, nsimind).

(** *** The argument of [__init__] *)

Record data := Data {
  data_s_jt : 'cV[F]_nobs;
  data_v : 'M[F]_(nmkt, nx2 * nsimind);
  data_D : 'M[F]_(nmkt, nD * nsimind);
  data_x1 : 'M[F]_(nobs, nx1);
  data_x2 : 'M[F]_(nobs, nx2);
  data_Z : 'M[F]_(nobs, nZ)
}.

(** *** The attributes of a [BLP] object

    [θ] and [ix_θ_T] are [None] until [GMM] sets them; [θ1] and [ξ] are not
    assigned by [__init__] at all: they exist once [GMM] has run its linear
    algebra, and reading them before raises [AttributeError].  No method
    assigns an attribute [ix_θ]. *)
Record BLP := Build_BLP {
  s_jt : 'cV[F]_nobs;
  ln_s_jt : 'cV[fl]_nobs;
  v : 'M[F]_(nmkt, nx2 * nsimind);
  D : 'M[F]_(nmkt, nD * nsimind);
  x1 : 'M[F]_(nobs, nx1);
  x2 : 'M[F]_(nobs, nx2);
  Z : 'M[F]_(nobs, nZ);
  LinvW : 'M[F]_nZ;
  Z_x1 : 'M[F]_(nZ, nx1);
  etol : F;
  iter_limit : nat;
  GMM_old : F;
  GMM_diff : F;
  s_0t : 'cV[F]_nmkt;
  y : 'cV[fl]_nobs;
  δ : 'cV[fl]_nobs;
  s : 'cV[fl]_nobs;
  θ : option θ_shape;
  ix_θ_T : option (seq θ_T_index);
  θ1 : option 'cV[F]_nx1;
  ξ : option 'cV[F]_nobs
}.

(** Attribute assignments. *)
Definition set_etol (st : BLP) (e : F) : BLP :=
  Build_BLP (s_jt st) (ln_s_jt st) (v st) (D st) (x1 st) (x2 st) (Z st)
    (LinvW st) (Z_x1 st) e (iter_limit st) (GMM_old st) (GMM_diff st)
    (s_0t st) (y st) (δ st) (s st) (θ st) (ix_θ_T st) (θ1 st) (ξ st).

Definition set_GMM_old (st : BLP) (g : F) : BLP :=
  Build_BLP (s_jt st) (ln_s_jt st) (v st) (D st) (x1 st) (x2 st) (Z st)
    (LinvW st) (Z_x1 st) (etol st) (iter_limit st) g (GMM_diff st)
    (s_0t st) (y st) (δ st) (s st) (θ st) (ix_θ_T st) (θ1 st) (ξ st).

Definition set_GMM_diff (st : BLP) (g : F) : BLP :=
  Build_BLP (s_jt st) (ln_s_jt st) (v st) (D st) (x1 st) (x2 st) (Z st)
    (LinvW st) (Z_x1 st) (etol st) (iter_limit st) (GMM_old st) g
    (s_0t st) (y st) (δ st) (s st) (θ st) (ix_θ_T st) (θ1 st) (ξ st).

Definition set_δ (st : BLP) (d : 'cV[fl]_nobs) : BLP :=
  Build_BLP (s_jt st) (ln_s_jt st) (v st) (D st) (x1 st) (x2 st) (Z st)
    (LinvW st) (Z_x1 st) (etol st) (iter_limit st) (GMM_old st) (GMM_diff st)
    (s_0t st) (y st) d (s st) (θ st) (ix_θ_T st) (θ1 st) (ξ st).

Definition set_s (st : BLP) (sh : 'cV[fl]_nobs) : BLP :=
  Build_BLP (s_jt st) (ln_s_jt st) (v st) (D st) (x1 st) (x2 st) (Z st)
    (LinvW st) (Z_x1 st) (etol st) (iter_limit st) (GMM_old st) (GMM_diff st)
    (s_0t st) (y st) (δ st) sh (θ st) (ix_θ_T st) (θ1 st) (ξ st).

Definition set_θ (st : BLP) (t : option θ_shape) : BLP :=
  Build_BLP (s_jt st) (ln_s_jt st) (v st) (D st) (x1 st) (x2 st) (Z st)
    (LinvW st) (Z_x1 st) (etol st) (iter_limit st) (GMM_old st) (GMM_diff st)
    (s_0t st) (y st) (δ st) (s st) t (ix_θ_T st) (θ1 st) (ξ st).

Definition set_ix_θ_T (st : BLP) (ix : option (seq θ_T_index)) : BLP :=
  Build_BLP (s_jt st) (ln_s_jt st) (v st) (D st) (x1 st) (x2 st) (Z st)
    (LinvW st) (Z_x1 st) (etol st) (iter_limit st) (GMM_old st) (GMM_diff st)
    (s_0t st) (y st) (δ st) (s st) (θ st) ix (θ1 st) (ξ st).

Definition set_θ1 (st : BLP) (t : 'cV[F]_nx1) : BLP :=
  Build_BLP (s_jt st) (ln_s_jt st) (v st) (D st) (x1 st) (x2 st) (Z st)
    (LinvW st) (Z_x1 st) (etol st) (iter_limit st) (GMM_old st) (GMM_diff st)
    (s_0t st) (y st) (δ st) (s st) (θ st) (ix_θ_T st) (Some t) (ξ st).

Definition set_ξ (st : BLP) (x : 'cV[F]_nobs) : BLP :=
  Build_BLP (s_jt st) (ln_s_jt st) (v st) (D st) (x1 st) (x2 st) (Z st)
    (LinvW st) (Z_x1 st) (etol st) (iter_limit st) (GMM_old st) (GMM_diff st)
    (s_0t st) (y st) (δ st) (s st) (θ st) (ix_θ_T st) (θ1 st) (Some x).

(** *** Constants of the source *)

Definition ten : F := 10%:R.
Definition c_1e_3 : F := ten ^- 3.
Definition c_1e_6 : F := ten ^- 6.
Definition c_1e_9 : F := ten ^- 9.
Definition c_1e_12 : F := ten ^- 12.
Definition c_1e_13 : F := ten ^- 13.
Definition c_1e10 : F := ten ^+ 10.

(** *** [__init__] *)

(** A dense product whose floating-point argument holds a NaN gives NaN in
    every entry: each entry of the result sums over all entries of the
    argument. *)
Definition nan_lift m n p q (f : 'M[F]_(m, n) -> 'M[F]_(p, q))
    (a : 'M[fl]_(m, n)) : 'M[fl]_(p, q) :=
  if all_fin a is Some a' then of_fin (f a') else const_mx NaN.

(** [scipy.linalg.cho_solve] on a floating-point right-hand side.  With
    [check_finite=True], its default, it raises [ValueError] when the
    right-hand side holds a value that is not finite. *)
Definition cho_solve_fl n m (c : 'M[F]_n) (B : 'M[fl]_(n, m)) :
    result 'M[F]_(n, m) :=
  if all_fin B is Some B' then Ok (cho_solve c B') else Raise ValueError.

(** The row of [cdid]: the market of an observation. *)
Definition cdid (j : 'I_nobs) : 'I_nmkt := fdiv j.

(** Line 89: the share of the outside good of each market. *)
Definition init_s_0t (d : data) : 'cV[F]_nmkt :=
  \col_i (1 - \sum_(r < nbrand) data_s_jt d (flat i r) 0).

(** Lines 91-93: [y = log(s_jt) - log(s_0t)], market by market. *)
Definition init_y (d : data) : 'cV[fl]_nobs :=
  \col_j fsub (np_log (Fin (data_s_jt d j 0)))
              (np_log (Fin (init_s_0t d (cdid j) 0))).

(** The arguments of [solve] at lines 96-97 are evaluated from left to
    right: [cho_solve(LinvW, Z_x1)] on the data, then
    [cho_solve(LinvW, Z.T @ y)], which checks [Z.T @ y], and only then
    [solve] itself. *)
Definition __init__ (d : data) : result BLP :=
  let s_jt := data_s_jt d in
  let ln_s_jt := map_mx np_log (of_fin s_jt) in
  let x1 := data_x1 d in
  let Z := data_Z d in
  bind_result (cholesky (Z^T *m Z)) (fun L =>
  let Z_x1 := Z^T *m x1 in
  let s_0t := init_s_0t d in
  let y := init_y d in
  bind_result (cho_solve_fl L (nan_lift (mulmx Z^T) y)) (fun WZ_y =>
  bind_result (solve (Z_x1^T *m cho_solve L Z_x1) (Z_x1^T *m WZ_y)) (fun b =>
  Ok (Build_BLP s_jt ln_s_jt (data_v d) (data_D d) x1 (data_x2 d) Z
        L Z_x1 c_1e_6 200 0 1 s_0t y
        (of_fin (x1 *m b)) (const_mx (Fin 0))
        None None None None)))).

(** *** [cal_δ]: the contraction mapping *)

(** Lines 120-124: the simulated shares at the current [δ] (written into the
    buffer [s]) and [diff = ln_s_jt - np.log(s)]. *)
Definition cal_δ_diff (st : BLP) (μ : 'M[fl]_(nobs, nsimind)) :
    'cV[fl]_nobs * 'cV[fl]_nobs :=
  let exp_Xb : 'M[fl]_(nobs, nsimind) :=
    \matrix_(j, i) np_exp (fadd (δ st j 0) (μ j i)) in
  let s' := cal_s exp_Xb in
  (s', \col_j fsub (ln_s_jt st j 0) (np_log (s' j 0))).

(** [abs(diff).max() < self.etol and abs(diff).mean() < 1e-3]. *)
Definition converged (tol : F) (diff : 'cV[fl]_nobs) : result bool :=
  bind_result (np_abs_max diff) (fun mx =>
  Ok (flt mx tol && flt (np_abs_mean diff) c_1e_3)).

(** The three states of the solver after one pass of the loop body. *)
Inductive step_outcome :=
  | Iterating of BLP
  | Converged of BLP
  | Failed of exn & BLP.

(** One pass of the body of [while True] (lines 120-134).  [δ] is the array
    [self.δ] itself, so [δ += diff] updates the attribute. *)
Definition cal_δ_step (st : BLP) (μ : 'M[fl]_(nobs, nsimind)) : step_outcome :=
  let: (s', diff) := cal_δ_diff st μ in
  let st1 := set_s st s' in
  if has_nan diff then Failed Exception_nan_in_diffs st1
  else
    let st2 := set_δ st1 (\col_j fadd (δ st1 j 0) (diff j 0)) in
    match converged (etol st2) diff with
    | Raise e => Failed e st2
    | Ok true => Converged st2
    | Ok false => Iterating st2
    end.

(** The loop, given [fuel] passes.  The counter [niter] of the source is only
    printed and is left out. *)
Fixpoint cal_δ_loop (fuel : nat) (st : BLP) (μ : 'M[fl]_(nobs, nsimind)) :
    run (result 'cV[fl]_nobs * BLP) :=
  if fuel is fuel'.+1 then
    match cal_δ_step st μ with
    | Failed e st' => Done (Raise e, st')
    | Converged st' => Done (Ok (δ st'), st')
    | Iterating st' => cal_δ_loop fuel' st' μ
    end
  else OutOfFuel.

Definition cal_δ (fuel : nat) (st : BLP) (T : θ_shape) :
    run (result 'cV[fl]_nobs * BLP) :=
  let θ_v := lsubmx T in
  let θ_D := rsubmx T in
  let μ := cal_mu θ_v θ_D (v st) (D st) (x2 st) in
  cal_δ_loop fuel st μ.

(** *** [GMM]: the objective *)

(** The argument [θ_cand]: a one-dimensional array (the vectorized form) or a
    matrix of the shape of [θ]. *)
Inductive ndarray :=
  | Vec of seq F
  | Mat of θ_shape.

(** [np.nonzero(θ.T)]: the indices of the nonzero entries of [θ.T], row by
    row of [θ.T]. *)
Definition np_nonzero_T (T : θ_shape) : seq θ_T_index :=
  [seq p <- [seq (a, b) | a <- enum 'I_(1 + nD), b <- enum 'I_nx2]
   | T p.2 p.1 != 0].

(** [θ.T[a, b] = x]. *)
Definition upd_T (T : θ_shape) (p : θ_T_index) (x : F) : θ_shape :=
  \matrix_(b, a) if (a == p.1) && (b == p.2) then x else T b a.

(** [θ.T[ix] = vals] for an index pair of arrays [ix]: entry by entry when
    the lengths agree; a single value is broadcast; any other length raises
    [ValueError]. *)
Definition setitem_T (T : θ_shape) (ix : seq θ_T_index) (vals : seq F) :
    result θ_shape :=
  if size vals == size ix then
    Ok (foldl (fun M pv => upd_T M pv.1 pv.2) T (zip ix vals))
  else if size vals == 1%N then
    Ok (foldl (fun M p => upd_T M p (head 0 vals)) T ix)
  else Raise ValueError.

(** Lines 162-167. *)
Definition adaptive_etol (GMM_diff : F) : F :=
  if GMM_diff < c_1e_6 then c_1e_13
  else if GMM_diff < c_1e_3 then c_1e_12
  else c_1e_9.

(** Lines 152-155, on the current value [T] of [self.θ]. *)
Definition GMM_assign (T : θ_shape) (ix : seq θ_T_index) (θ_cand : ndarray) :
    result θ_shape :=
  match θ_cand with
  | Vec vals => setitem_T T ix vals
  | Mat T' => Ok T'
  end.

(** Lines 172-195, on the [δ] returned by the contraction mapping. *)
Definition GMM_moments (st : BLP) (δ' : 'cV[fl]_nobs) : result F * BLP :=
  if all_fin δ' is Some δf then
    let Z_δ := (Z st)^T *m δf in
    match solve ((Z_x1 st)^T *m cho_solve (LinvW st) (Z_x1 st))
                ((Z_x1 st)^T *m cho_solve (LinvW st) Z_δ) with
    | Raise e => (Raise e, st)
    | Ok t1 =>
      let st1 := set_θ1 st t1 in
      let ξ' := δf - x1 st *m t1 in
      let st2 := set_ξ st1 ξ' in
      let Z_ξ := (Z st)^T *m ξ' in
      let GMM := (Z_ξ^T *m cho_solve (LinvW st) Z_ξ) 0 0 in
      let st3 := set_GMM_diff st2 `|GMM_old st2 - GMM| in
      let st4 := set_GMM_old st3 GMM in
      (Ok GMM, st4)
    end
  else (Ok c_1e10, st).

(** Lines 149-195, once [self.θ] holds the matrix [T]. *)
Definition GMM_body (fuel : nat) (st : BLP) (T : θ_shape) (θ_cand : ndarray) :
    run (result F * BLP) :=
  let ix := if ix_θ_T st is Some ix then ix else np_nonzero_T T in
  let st1 := set_ix_θ_T st (Some ix) in
  match GMM_assign T ix θ_cand with
  | Raise e => Done (Raise e, st1)
  | Ok T' =>
    let st2 := set_θ st1 (Some T') in
    let st3 := set_etol st2 (adaptive_etol (GMM_diff st2)) in
    match cal_δ fuel st3 T' with
    | OutOfFuel => OutOfFuel
    | Done (Raise e, st4) => Done (Raise e, st4)
    | Done (Ok δ', st4) => Done (GMM_moments (set_δ st4 δ') δ')
    end
  end.

Definition GMM (fuel : nat) (st : BLP) (θ_cand : ndarray) :
    run (result F * BLP) :=
  match θ st, θ_cand with
  | None, Vec _ => Done (Raise Exception_θ_vec_before_init, st)
  | None, Mat T => GMM_body fuel (set_θ st (Some T)) T θ_cand
  | Some T, _ => GMM_body fuel st T θ_cand
  end.

(** *** [cal_jacobian] *)

(** [rel = np.nonzero(θ.T.ravel())[0]]: the positions of the nonzero entries
    of the parameter matrix it is given, in [θ.T.ravel()].  [ravel] lists
    [θ.T] row by row, so entry [(a, b)] of [θ.T] has position [a * nx2 + b],
    and the positions come in the order of [np.nonzero(θ.T)]. *)
Definition rel (T : θ_shape) : seq 'I_((1 + nD) * nx2) :=
  [seq flat p.1 p.2 | p <- np_nonzero_T T].

(** The weights of the two loops over columns of [f1]: block 0 uses the taste
    draws [v[cdid, nsimind*k : nsimind*(k+1)]], block [d + 1] the demographic
    [D[cdid, nsimind*d : nsimind*(d+1)]]. *)
Definition weight (st : BLP) (a : 'I_(1 + nD)) (k : 'I_nx2)
    (j : 'I_nobs) (i : 'I_nsimind) : F :=
  match split a with
  | inl _ => v st (cdid j) (flat k i)
  | inr d => D st (cdid j) (flat d i)
  end.

(** [M.cumsum(axis=0)] read at row [r]. *)
Definition cumsum_rows (M : 'M[F]_(nobs, nsimind)) (r : nat) (i : 'I_nsimind) : F :=
  \sum_(j < nobs | (j <= r)%N) M j i.

(** [cdindex = np.arange(nbrand, nbrand * (nmkt + 1), nbrand) - 1]: the last
    row of each market. *)
Definition cdindex (m : nat) : nat := (nbrand * m.+1 - 1)%N.

(** [sum1 = temp[cdindex, :]] followed by
    [sum1[1:, :] = sum1[1:, :] - sum1[:-1, :]]; the right-hand side is
    evaluated on the old [sum1]. *)
Definition sum1 (temp : nat -> 'I_nsimind -> F) (m : 'I_nmkt) (i : 'I_nsimind) : F :=
  if (m : nat) is m'.+1 then temp (cdindex m'.+1) i - temp (cdindex m') i
  else temp (cdindex 0) i.

(** One column of [f1]: the body shared by the loop over [k] (lines 277-286)
    and the loops over [d] and [k] (lines 290-305). *)
Definition partial_share (st : BLP) (P : 'M[F]_(nobs, nsimind))
    (a : 'I_(1 + nD)) (k : 'I_nx2) : 'cV[F]_nobs :=
  let xv : 'M[F]_(nobs, nsimind) := \matrix_(j, i) (x2 st j k * weight st a k j i) in
  let temp := cumsum_rows (\matrix_(j, i) (xv j i * P j i)) in
  \col_j ((\sum_i P j i * (xv j i - sum1 temp (cdid j) i)) / nsimind%:R).

Definition f1 (st : BLP) (P : 'M[F]_(nobs, nsimind)) : 'M[F]_(nobs, (1 + nD) * nx2) :=
  \matrix_(j, c) partial_share st P (fdiv c) (fmod c) j 0.

(** The rows [n : cdindex[i] + 1] of market [i]. *)
Definition market_rows q (M : 'M[F]_(nobs, q)) (m : 'I_nmkt) : 'M[F]_(nbrand, q) :=
  \matrix_(r, c) M (flat m r) c.

(** [M[:, cs]]. *)
Definition take_cols p q (M : 'M[F]_(p, q)) (cs : seq 'I_q) : 'M[F]_(p, size cs) :=
  \matrix_(j, c) M j (tnth (in_tuple cs) c).

(** Line 315-317. *)
Definition H (P : 'M[F]_(nobs, nsimind)) (m : 'I_nmkt) : 'M[F]_nbrand :=
  let temp := market_rows P m in
  let H1 := temp *m temp^T in
  nsimind%:R^-1 *: (diag_mx (\row_r \sum_i temp r i) - H1).

(** [ind_choice_prob] at the stored [δ] (lines 257-265). *)
Definition ind_choice_prob (st : BLP) (T : θ_shape) : 'M[fl]_(nobs, nsimind) :=
  let μ := cal_mu (lsubmx T) (rsubmx T) (v st) (D st) (x2 st) in
  cal_ind_choice_prob (\matrix_(j, i) np_exp (fadd (δ st j 0) (μ j i))).

(** The solve of market [m] (line 319, before the sign). *)
Definition market_solve (st : BLP) (P : 'M[F]_(nobs, nsimind)) (T : θ_shape)
    (m : 'I_nmkt) : result 'M[F]_(nbrand, size (rel T)) :=
  solve (H P m) (market_rows (take_cols (f1 st P) (rel T)) m).

(** The loop over the markets raises at the first singular [H]; otherwise
    every block of rows of [f] is minus the solution for its market. *)
Definition cal_jacobian (st : BLP) (T : θ_shape) :
    result 'M[F]_(nobs, size (rel T)) :=
  if all_fin (ind_choice_prob st T) is Some P then
    if [forall m, is_ok (market_solve st P T m)] then
      Ok (\matrix_(j, c) - (result_get 0 (market_solve st P T (cdid j))) (fmod j) c)
    else Raise LinAlgError
  else Raise NaN_in_linear_algebra.

(** *** [gradient_GMM] *)

(** The value of [self.ix_θ]: the class assigns [ix_θ_T] only, so the lookup
    raises [AttributeError]. *)
Definition attr_ix_θ (st : BLP) : result (seq ('I_nx2 * 'I_(1 + nD))) :=
  Raise AttributeError.

(** [θ[ix] = vals] (not transposed). *)
Definition setitem (T : θ_shape) (ix : seq ('I_nx2 * 'I_(1 + nD))) (vals : seq F) :
    result θ_shape :=
  setitem_T T [seq (p.2, p.1) | p <- ix] vals.

(** A vector whose length is known only at run time. *)
Definition np_vector := {k : nat & 'cV[F]_k}.
Definition np_square := {k : nat & 'M[F]_k}.

Definition gradient_GMM (st : BLP) (θ_cand : ndarray) : result np_vector * BLP :=
  match attr_ix_θ st with
  | Raise e => (Raise e, st)
  | Ok ix_θ =>
    match ξ st, θ st with
    | None, _ => (Raise AttributeError, st)
    | Some _, None => (Raise TypeError, st)
    | Some ξ', Some T =>
      match (match θ_cand with
             | Vec vals => setitem T ix_θ vals
             | Mat T' => Ok T'
             end) with
      | Raise e => (Raise e, st)
      | Ok T' =>
        let st' := set_θ st (Some T') in
        (bind_result (cal_jacobian st' T') (fun jacob =>
           Ok (existT _ _
                 ((2%:R *: jacob^T) *m Z st *m cho_solve (LinvW st) (Z st)^T *m ξ'))),
         st')
      end
    end
  end.

(** *** [cal_varcov] *)

(** [θ.T[None] = vals]: indexing with [None] adds an axis, and the assignment
    broadcasts [vals] along the rows of [θ.T]. *)
Definition setitem_newaxis (T : θ_shape) (vals : seq F) : result θ_shape :=
  if size vals == nx2 then Ok (\matrix_(b, a) nth 0 vals b)
  else if size vals == 1%N then Ok (const_mx (head 0 vals))
  else Raise ValueError.

(** Lines 228-242, for the residual [ξ'] and the updated matrix [T]. *)
Definition varcov_of (st : BLP) (ξ' : 'cV[F]_nobs) (T : θ_shape) :
    result 'M[F]_(nx1 + size (rel T)) :=
  let Zres : 'M[F]_(nobs, nZ) := \matrix_(j, c) (Z st j c * ξ' j 0) in
  let Ω := Zres^T *m Zres in
  bind_result (cal_jacobian st T) (fun jacob =>
  let G := ((row_mx (x1 st) jacob)^T *m Z st)^T in
  let WG := cho_solve (LinvW st) G in
  let WΩ := cho_solve (LinvW st) Ω in
  bind_result (solve (G^T *m WG) (G^T *m WΩ *m WG)) (fun t =>
  let tmp := t^T in
  solve (G^T *m WG) tmp)).

Definition cal_varcov (st : BLP) (θ_vec : seq F) : result np_square * BLP :=
  match ξ st, θ st with
  | None, _ => (Raise AttributeError, st)
  | Some _, None => (Raise AttributeError, st)
  | Some ξ', Some T =>
    match (if ix_θ_T st is Some ix then setitem_T T ix θ_vec
           else setitem_newaxis T θ_vec) with
    | Raise e => (Raise e, st)
    | Ok T' =>
      let st' := set_θ st (Some T') in
      (bind_result (varcov_of st' ξ' T') (fun V => Ok (existT _ _ V)), st')
    end
  end.

(** ** Properties *)

(** *** The contraction mapping *)

Lemma np_abs_max_lt n (a : 'cV[F]_n) (t : F) :
  (0 < n)%N ->
  (\big[Num.max/0]_(i < n) `|a i 0| < t) = [forall i, `|a i 0| < t].
Proof.
move=> n0; apply/bigmax_ltP/forallP => [[_ lt_t] i|lt_t]; first exact: lt_t.
split=> [|i _]; last exact: lt_t.
exact: le_lt_trans (normr_ge0 _) (lt_t (Ordinal n0)).
Qed.

(** The convergence test on a difference vector without NaN. *)
Lemma converged_fin (tol : F) (d : 'cV[F]_nobs) :
  (0 < nobs)%N ->
  converged tol (of_fin d) =
  Ok ([forall j, `|d j 0| < tol] && ((\sum_j `|d j 0|) / nobs%:R < c_1e_3)).
Proof.
move=> n0; rewrite /converged /np_abs_max /np_abs_mean.
by rewrite eqn0Ngt n0 /= all_fin_of_fin /= np_abs_max_lt.
Qed.

(** With a NaN in it the test is false. *)
Lemma converged_nan (tol : F) (diff : 'cV[fl]_nobs) :
  (0 < nobs)%N -> has_nan diff -> converged tol diff = Ok false.
Proof.
move=> n0 nan; rewrite /converged /np_abs_max /np_abs_mean eqn0Ngt n0 /=.
by rewrite /all_fin nan.
Qed.

Lemma cal_δ_stepE (st : BLP) μ :
  cal_δ_step st μ =
  let diff := (cal_δ_diff st μ).2 in
  let st1 := set_s st (cal_δ_diff st μ).1 in
  if has_nan diff then Failed Exception_nan_in_diffs st1
  else
    let st2 := set_δ st1 (\col_j fadd (δ st j 0) (diff j 0)) in
    match converged (etol st) diff with
    | Raise e => Failed e st2
    | Ok true => Converged st2
    | Ok false => Iterating st2
    end.
Proof. by rewrite /cal_δ_step; case: (cal_δ_diff st μ). Qed.

(** The fields a pass of the loop leaves alone. *)
Definition same_frame (st st' : BLP) : Prop :=
  [/\ [/\ s_jt st' = s_jt st, ln_s_jt st' = ln_s_jt st, v st' = v st,
          D st' = D st & x1 st' = x1 st],
      [/\ x2 st' = x2 st, Z st' = Z st, LinvW st' = LinvW st,
          Z_x1 st' = Z_x1 st & iter_limit st' = iter_limit st],
      [/\ etol st' = etol st, GMM_old st' = GMM_old st,
          GMM_diff st' = GMM_diff st, s_0t st' = s_0t st & y st' = y st]
    & [/\ θ st' = θ st, ix_θ_T st' = ix_θ_T st, θ1 st' = θ1 st & ξ st' = ξ st]].

Lemma same_frame_refl st : same_frame st st.
Proof. by []. Qed.

Lemma same_frame_trans st1 st2 st3 :
  same_frame st1 st2 -> same_frame st2 st3 -> same_frame st1 st3.
Proof.
rewrite /same_frame => fr.
by move=> [[-> -> -> -> ->] [-> -> -> -> ->] [-> -> -> -> ->] [-> -> -> ->]].
Qed.

Lemma cal_δ_step_frame st μ :
  match cal_δ_step st μ with
  | Iterating st' | Converged st' | Failed _ st' => same_frame st st'
  end.
Proof.
rewrite cal_δ_stepE /=; case: ifP => _ //.
by case: (converged _ _) => [[]|e].
Qed.

Lemma cal_δ_loop_frame fuel st μ r st' :
  cal_δ_loop fuel st μ = Done (r, st') -> same_frame st st'.
Proof.
elim: fuel st => [|fuel IH] st //=.
move: (cal_δ_step_frame st μ); case: (cal_δ_step st μ) => [st1|st1|e st1] fr.
- by move/IH; exact: same_frame_trans.
- by case=> _ <-.
- by case=> _ <-.
Qed.

(** The dual criterion, on the difference vector of one pass. *)
Definition criterion (tol : F) (diff : 'cV[fl]_nobs) : Prop :=
  exists d : 'cV[F]_nobs,
    [/\ diff = of_fin d, forall j, `|d j 0| < tol
      & (\sum_j `|d j 0|) / nobs%:R < c_1e_3].

Lemma convergedP (tol : F) (diff : 'cV[fl]_nobs) :
  (0 < nobs)%N -> converged tol diff = Ok true <-> criterion tol diff.
Proof.
move=> n0; split=> [|[d [-> lt_tol lt_mean]]]; last first.
  by rewrite converged_fin // lt_mean andbT; congr Ok; apply/forallP.
case E: (all_fin diff) => [d|]; last first.
  by rewrite converged_nan // all_fin_has_nan E.
rewrite (all_finK E) converged_fin // => -[/andP[/forallP lt_tol lt_mean]].
by exists d.
Qed.

Lemma cal_δ_diffE (st : BLP) μ :
  ln_s_jt st = map_mx np_log (of_fin (s_jt st)) ->
  (cal_δ_diff st μ).2 =
  \col_j fsub (np_log (Fin (s_jt st j 0)))
              (np_log (cal_s (\matrix_(j, i) np_exp (fadd (δ st j 0) (μ j i))) j 0)).
Proof. by move=> ln; apply/matrixP => j k; rewrite !mxE ln !mxE. Qed.

(** C2. One pass of the loop of [cal_δ] that does not abort adds the
    difference ln(observed share) - ln(simulated share) to [δ], product by
    product; the pass ends the loop in the converged state exactly when the
    largest absolute difference is below [etol] and the mean absolute
    difference is below 1e-3; otherwise, without NaN, the loop goes on from
    the updated [δ]. *)
Theorem C2_contraction_step (st : BLP) (μ : 'M[fl]_(nobs, nsimind)) :
  (0 < nobs)%N ->
  ln_s_jt st = map_mx np_log (of_fin (s_jt st)) ->
  let simulated := cal_s (\matrix_(j, i) np_exp (fadd (δ st j 0) (μ j i))) in
  let diff : 'cV[fl]_nobs :=
    \col_j fsub (np_log (Fin (s_jt st j 0))) (np_log (simulated j 0)) in
  let δ' : 'cV[fl]_nobs := \col_j fadd (δ st j 0) (diff j 0) in
  [/\ forall st', cal_δ_step st μ = Iterating st' \/
                  cal_δ_step st μ = Converged st' -> δ st' = δ',
      (exists st', cal_δ_step st μ = Converged st') <-> criterion (etol st) diff,
      criterion (etol st) diff ->
        forall fuel, exists st', cal_δ_loop fuel.+1 st μ = Done (Ok δ', st')
    & ~ criterion (etol st) diff -> ~~ has_nan diff ->
        forall fuel, exists st',
          δ st' = δ' /\ cal_δ_loop fuel.+1 st μ = cal_δ_loop fuel st' μ].
Proof.
move=> n0 ln /=; rewrite -(cal_δ_diffE μ ln).
set diff := (cal_δ_diff st μ).2.
have stepE := cal_δ_stepE st μ; rewrite /= -/diff in stepE.
have cP := convergedP (etol st) diff n0.
split.
- move=> st'; rewrite stepE; case: ifP => _; first by case.
  by case: (converged _ _) => [[]|e] [] // [<-].
- rewrite stepE; split.
    case=> st'; case: ifP => nan //.
    by case E: (converged _ _) => [[]|e] // _; apply/cP.
  move/cP => E; rewrite E; case: ifP => [nan|_]; last by eexists.
  by move: E; rewrite converged_nan.
- move=> /cP E fuel /=; rewrite stepE E.
  case: ifP => [nan|_]; first by move: E; rewrite converged_nan.
  by eexists.
- move=> ncrit nnan fuel /=; rewrite stepE (negbTE nnan).
  case E: (converged _ _) => [[]|e].
  + by case: ncrit; apply/cP.
  + by eexists; split; last by [].
  + by move: E; rewrite /converged /np_abs_max eqn0Ngt n0.
Qed.

(** *** Passes of the loop *)

(** An object that differs in [iter_limit] only. *)
Definition with_iter_limit (n : nat) (st : BLP) : BLP :=
  Build_BLP (s_jt st) (ln_s_jt st) (v st) (D st) (x1 st) (x2 st) (Z st)
    (LinvW st) (Z_x1 st) (etol st) n (GMM_old st) (GMM_diff st)
    (s_0t st) (y st) (δ st) (s st) (θ st) (ix_θ_T st) (θ1 st) (ξ st).

Definition run_map_state A (f : BLP -> BLP) (r : run (A * BLP)) : run (A * BLP) :=
  if r is Done (a, st) then Done (a, f st) else OutOfFuel.

(** The object after [k] passes that all ended in the state iterating. *)
Fixpoint iterate_δ (k : nat) (st : BLP) (μ : 'M[fl]_(nobs, nsimind)) : option BLP :=
  if k is k'.+1 then
    if cal_δ_step st μ is Iterating st' then iterate_δ k' st' μ else None
  else Some st.

Lemma cal_δ_step_iter_limit n st μ :
  cal_δ_step (with_iter_limit n st) μ =
  match cal_δ_step st μ with
  | Iterating st' => Iterating (with_iter_limit n st')
  | Converged st' => Converged (with_iter_limit n st')
  | Failed e st' => Failed e (with_iter_limit n st')
  end.
Proof.
rewrite !cal_δ_stepE.
have -> : cal_δ_diff (with_iter_limit n st) μ = cal_δ_diff st μ by [].
rewrite /=; case: ifP => _ //.
by case: (converged _ _) => [[]|e].
Qed.

Lemma cal_δ_loop_iter_limit n fuel st μ :
  cal_δ_loop fuel (with_iter_limit n st) μ =
  run_map_state (with_iter_limit n) (cal_δ_loop fuel st μ).
Proof.
elim: fuel st => [|fuel IH] st //=.
rewrite cal_δ_step_iter_limit.
by case: (cal_δ_step st μ) => [st'|st'|e st'] //=.
Qed.

Lemma cal_δ_loop_OutOfFuel fuel st μ :
  cal_δ_loop fuel st μ = OutOfFuel <-> iterate_δ fuel st μ.
Proof.
elim: fuel st => [|fuel IH] st //=.
by case: (cal_δ_step st μ) => [st'|st'|e st'] //.
Qed.

Lemma iterate_δ_inv (Inv : BLP -> Prop) μ :
  (forall st, Inv st -> exists2 st', cal_δ_step st μ = Iterating st' & Inv st') ->
  forall k st, Inv st -> iterate_δ k st μ.
Proof.
move=> step; elim=> [|k IH] st inv //=.
by case: (step st inv) => st' -> inv'; exact: IH.
Qed.

(** *** The objective: entering the contraction mapping *)

(** The mask in force during a call of [GMM] on an object whose [θ] holds
    [T]: the stored one, or the nonzero pattern of [T] when none is stored. *)
Definition mask_of (st : BLP) (T : θ_shape) : seq θ_T_index :=
  if ix_θ_T st is Some ix then ix else np_nonzero_T T.

(** The object on which [GMM] calls [cal_δ], once the candidate has been
    written into [θ] as [T']. *)
Definition GMM_entry (st : BLP) (T T' : θ_shape) : BLP :=
  set_etol (set_θ (set_ix_θ_T st (Some (mask_of st T))) (Some T'))
           (adaptive_etol (GMM_diff st)).

Lemma GMM_bodyE fuel st T θ_cand :
  GMM_body fuel st T θ_cand =
  match GMM_assign T (mask_of st T) θ_cand with
  | Raise e => Done (Raise e, set_ix_θ_T st (Some (mask_of st T)))
  | Ok T' =>
    match cal_δ fuel (GMM_entry st T T') T' with
    | OutOfFuel => OutOfFuel
    | Done (Raise e, st4) => Done (Raise e, st4)
    | Done (Ok δ', st4) => Done (GMM_moments (set_δ st4 δ') δ')
    end
  end.
Proof. by []. Qed.

(** The matrix [self.θ] holds when [GMM] reaches line 149. *)
Definition θ_at_call (st : BLP) (θ_cand : ndarray) : option θ_shape :=
  match θ st, θ_cand with
  | None, Vec _ => None
  | None, Mat T => Some T
  | Some T, _ => Some T
  end.

Lemma GMM_E fuel st θ_cand :
  GMM fuel st θ_cand =
  match θ_at_call st θ_cand with
  | None => Done (Raise Exception_θ_vec_before_init, st)
  | Some T =>
    match GMM_assign T (mask_of st T) θ_cand with
    | Raise e => Done (Raise e, set_ix_θ_T (set_θ st (Some T)) (Some (mask_of st T)))
    | Ok T' =>
      match cal_δ fuel (GMM_entry st T T') T' with
      | OutOfFuel => OutOfFuel
      | Done (Raise e, st4) => Done (Raise e, st4)
      | Done (Ok δ', st4) => Done (GMM_moments (set_δ st4 δ') δ')
      end
    end
  end.
Proof.
rewrite /GMM /θ_at_call; case Eθ: (θ st) => [T|]; last first.
  by case: θ_cand.
rewrite GMM_bodyE; case: (GMM_assign _ _ _) => [T'|e] //.
by rewrite /set_ix_θ_T /set_θ /= -Eθ; case: st Eθ.
Qed.

(** *** Evaluating one pass *)

Definition after_pass (st : BLP) (μ : 'M[fl]_(nobs, nsimind)) : BLP :=
  set_δ (set_s st (cal_δ_diff st μ).1)
        (\col_j fadd (δ st j 0) ((cal_δ_diff st μ).2 j 0)).

Lemma δ_after_pass st μ :
  δ (after_pass st μ) = \col_j fadd (δ st j 0) ((cal_δ_diff st μ).2 j 0).
Proof. by []. Qed.

Lemma cal_δ_step_after st μ :
  cal_δ_step st μ =
  if has_nan (cal_δ_diff st μ).2
  then Failed Exception_nan_in_diffs (set_s st (cal_δ_diff st μ).1)
  else match converged (etol st) (cal_δ_diff st μ).2 with
       | Raise e => Failed e (after_pass st μ)
       | Ok true => Converged (after_pass st μ)
       | Ok false => Iterating (after_pass st μ)
       end.
Proof. by rewrite cal_δ_stepE. Qed.

Lemma cal_δ_step_converged st μ (d : 'cV[F]_nobs) :
  (0 < nobs)%N -> (cal_δ_diff st μ).2 = of_fin d ->
  (forall j, `|d j 0| < etol st) -> (\sum_j `|d j 0|) / nobs%:R < c_1e_3 ->
  cal_δ_step st μ = Converged (after_pass st μ).
Proof.
move=> n0 Ed lt_tol lt_mean; rewrite cal_δ_step_after Ed has_nan_of_fin.
rewrite converged_fin // lt_mean andbT.
by have -> : [forall j, `|d j 0| < etol st] by apply/forallP.
Qed.

Lemma cal_δ_step_iterating st μ (d : 'cV[F]_nobs) (j : 'I_nobs) :
  (cal_δ_diff st μ).2 = of_fin d -> etol st <= `|d j 0| ->
  cal_δ_step st μ = Iterating (after_pass st μ).
Proof.
move=> Ed ge_tol; rewrite cal_δ_step_after Ed has_nan_of_fin.
have n0 : (0 < nobs)%N by case: (j) => k; exact: leq_ltn_trans.
rewrite converged_fin //.
have -> // : [forall j, `|d j 0| < etol st] = false.
by apply/negbTE/forallPn; exists j; rewrite -leNgt.
Qed.

Lemma cal_δ_step_failed st μ :
  has_nan (cal_δ_diff st μ).2 ->
  cal_δ_step st μ = Failed Exception_nan_in_diffs (set_s st (cal_δ_diff st μ).1).
Proof. by move=> nan; rewrite cal_δ_stepE /= nan. Qed.

(** *** No iteration ceiling *)

Lemma GMM_moments_iter_limit n st d :
  GMM_moments (with_iter_limit n st) d =
  ((GMM_moments st d).1, with_iter_limit n (GMM_moments st d).2).
Proof.
rewrite /GMM_moments; case: (all_fin d) => [δf|] //=.
by case: (solve _ _).
Qed.

Lemma GMM_iter_limit n fuel st θ_cand :
  GMM fuel (with_iter_limit n st) θ_cand =
  run_map_state (with_iter_limit n) (GMM fuel st θ_cand).
Proof.
rewrite !GMM_E.
have -> : θ_at_call (with_iter_limit n st) θ_cand = θ_at_call st θ_cand by [].
case: (θ_at_call _ _) => [T|] //.
have -> : mask_of (with_iter_limit n st) T = mask_of st T by [].
case: (GMM_assign _ _ _) => [T'|e] //.
have -> : GMM_entry (with_iter_limit n st) T T'
          = with_iter_limit n (GMM_entry st T T') by [].
rewrite /cal_δ cal_δ_loop_iter_limit.
case: (cal_δ_loop _ _ _) => [[[δ'|e] st4]|] //=.
have -> : set_δ (with_iter_limit n st4) δ' = with_iter_limit n (set_δ st4 δ') by [].
by rewrite GMM_moments_iter_limit; case: (GMM_moments _ _).
Qed.

(** How a pass of the loop ends: with the exception when a difference is
    NaN, in the state converged when there is none and the criterion holds,
    in the state iterating when there is none and the criterion fails. *)
Lemma converged_total (tol : F) (diff : 'cV[fl]_nobs) :
  (0 < nobs)%N -> exists b, converged tol diff = Ok b.
Proof.
by move=> n0; rewrite /converged /np_abs_max eqn0Ngt n0 /=; eexists.
Qed.

Lemma cal_δ_step_exits st μ :
  (0 < nobs)%N ->
  [/\ cal_δ_step st μ =
        Failed Exception_nan_in_diffs (set_s st (cal_δ_diff st μ).1) <->
      has_nan (cal_δ_diff st μ).2,
      cal_δ_step st μ = Converged (after_pass st μ) <->
      ~~ has_nan (cal_δ_diff st μ).2 /\ criterion (etol st) (cal_δ_diff st μ).2
    & cal_δ_step st μ = Iterating (after_pass st μ) <->
      ~~ has_nan (cal_δ_diff st μ).2 /\
      ~ criterion (etol st) (cal_δ_diff st μ).2].
Proof.
move=> n0; rewrite cal_δ_step_after.
have cP := convergedP (etol st) (cal_δ_diff st μ).2 n0.
have [b Eb] := converged_total (etol st) (cal_δ_diff st μ).2 n0.
case: ifP => nan.
  by split; split=> // -[].
rewrite Eb; case: b Eb => Eb; split; split=> //.
- by move=> _; split=> //; exact: (proj1 cP Eb).
- by case=> _ nc; case: nc; exact: (proj1 cP Eb).
- by case=> _ /(proj2 cP); rewrite Eb.
- by move=> _; split=> // /(proj2 cP); rewrite Eb.
Qed.

Lemma cal_δ_step_Iterating st μ st' :
  cal_δ_step st μ = Iterating st' -> st' = after_pass st μ.
Proof.
rewrite cal_δ_step_after; case: ifP => // _.
by case: (converged _ _) => [[]|e] // [].
Qed.

(** The passes that ended in the state iterating: the loop has not returned
    after [fuel] passes exactly when each of them found no NaN and a
    criterion that fails. *)
Lemma iterate_δ_passes fuel st μ :
  (0 < nobs)%N ->
  iterate_δ fuel st μ <->
  forall k, (k < fuel)%N ->
    exists2 stk, iterate_δ k st μ = Some stk &
      ~~ has_nan (cal_δ_diff stk μ).2 /\
      ~ criterion (etol stk) (cal_δ_diff stk μ).2.
Proof.
move=> n0; elim: fuel st => [|fuel IH] st; first by split.
have [_ _ itP] := cal_δ_step_exits st μ n0.
split.
  rewrite /=; case E: (cal_δ_step st μ) => [st'| |] // it [|k] lt.
    exists st => //; apply/itP.
    by rewrite E (cal_δ_step_Iterating E).
  by rewrite /= E; exact: (proj1 (IH st') it k lt).
move=> all_it; have [st0 [<-] /itP E] := all_it 0%N isT.
rewrite /= E; apply: (proj2 (IH _)) => k lt.
by have := all_it k.+1 lt; rewrite /= E.
Qed.


(** *** NaN in the contraction mapping *)

Lemma cal_δ_loop_nan k fuel st μ stk :
  iterate_δ k st μ = Some stk -> has_nan (cal_δ_diff stk μ).2 ->
  cal_δ_loop (k + fuel.+1) st μ =
  Done (Raise Exception_nan_in_diffs, set_s stk (cal_δ_diff stk μ).1).
Proof.
elim: k st => [|k IH] st /=.
  by case=> -> nan; rewrite cal_δ_stepE /= nan.
by case: (cal_δ_step st μ) => // st' it nan; exact: IH.
Qed.

(** C3 (the code does otherwise). When a pass of the contraction mapping
    computes a difference vector holding a NaN, [cal_δ] raises and [GMM] has
    no handler: the call of [GMM] ends with the exception
    [Exception('nan in diffs')], not with the sentinel value 1e+10.  The
    object keeps the [δ] accumulated by the passes before. *)
Theorem C3_nan_diff_raises (fuel k : nat) (st : BLP) (θ_cand : ndarray)
    (T T' : θ_shape) (stk : BLP) :
  θ_at_call st θ_cand = Some T ->
  GMM_assign T (mask_of st T) θ_cand = Ok T' ->
  let μ := cal_mu (lsubmx T') (rsubmx T') (v st) (D st) (x2 st) in
  iterate_δ k (GMM_entry st T T') μ = Some stk ->
  has_nan (cal_δ_diff stk μ).2 ->
  GMM (k + fuel.+1) st θ_cand =
  Done (Raise Exception_nan_in_diffs, set_s stk (cal_δ_diff stk μ).1).
Proof.
move=> Eθ Ea μ it nan.
by rewrite GMM_E Eθ Ea /cal_δ (cal_δ_loop_nan fuel it nan).
Qed.

(** The sentinel branch of [GMM] tests the returned [δ].  When the share
    simulation propagates NaN (a NaN in [δ] gives a NaN in the differences),
    a [δ] returned by [cal_δ] never holds a NaN: the branch is dead. *)
Lemma fadd_nan_l (x y : fl) : isnan (fadd x y) -> ~~ isnan y -> isnan x.
Proof. by case: x y => [a|] [b|]. Qed.

Lemma cal_δ_loop_returns_finite fuel st μ d st' :
  (forall st0, has_nan (δ st0) -> has_nan (cal_δ_diff st0 μ).2) ->
  cal_δ_loop fuel st μ = Done (Ok d, st') -> ~~ has_nan d.
Proof.
move=> strict; elim: fuel st => [|fuel IH] st //=.
rewrite cal_δ_stepE /=; case: ifPn => // nnan.
case: (converged _ _) => [[]|e] //; last exact: IH.
case=> <- _ /=; apply/has_nanPn => j k; rewrite mxE.
apply/negP => /fadd_nan_l nan; move/has_nanPn: (nnan) => fin.
suff: has_nan (δ st) by move/strict; rewrite (negbTE nnan).
apply/existsP; exists j; apply/existsP; exists 0.
exact: nan (fin j 0).
Qed.

(** *** What [__init__] establishes and no method changes *)

Definition wf (st : BLP) : Prop :=
  [/\ is_cholesky ((Z st)^T *m Z st) (LinvW st),
      Z_x1 st = (Z st)^T *m x1 st,
      (Z_x1 st)^T *m cho_solve (LinvW st) (Z_x1 st) \in unitmx
    & ln_s_jt st = map_mx np_log (of_fin (s_jt st))].

Lemma init_wf (d : data) (st : BLP) : __init__ d = Ok st -> wf st.
Proof.
rewrite /__init__; case EL: (cholesky _) => [L|e] //=.
case: (cho_solve_fl _ _) => [B|e] //=.
rewrite /solve; case: ifP => //= U [<-]; split=> //=.
exact: cholesky_spec.
Qed.

Lemma init_attrs (d : data) (st : BLP) :
  __init__ d = Ok st ->
  [/\ cholesky ((data_Z d)^T *m data_Z d) = Ok (LinvW st), Z st = data_Z d,
      x1 st = data_x1 d, s_jt st = data_s_jt d
    & [/\ etol st = c_1e_6, iter_limit st = 200, GMM_old st = 0, GMM_diff st = 1
        & [/\ θ st = None, ix_θ_T st = None, θ1 st = None & ξ st = None]]].
Proof.
rewrite /__init__; case EL: (cholesky _) => [L|e] //=.
case: (cho_solve_fl _ _) => [B|e] //=.
by rewrite /solve; case: ifP => //= U [<-].
Qed.

(** The attributes that only [__init__] assigns. *)
Definition same_data (st st' : BLP) : Prop :=
  [/\ [/\ s_jt st' = s_jt st, ln_s_jt st' = ln_s_jt st, v st' = v st,
          D st' = D st & x1 st' = x1 st],
      [/\ x2 st' = x2 st, Z st' = Z st, LinvW st' = LinvW st,
          Z_x1 st' = Z_x1 st & iter_limit st' = iter_limit st]
    & s_0t st' = s_0t st /\ y st' = y st].

Lemma same_frame_data st st' : same_frame st st' -> same_data st st'.
Proof. by case=> [? ? [_ _ _ ? ?] _]. Qed.

Lemma same_data_trans st1 st2 st3 :
  same_data st1 st2 -> same_data st2 st3 -> same_data st1 st3.
Proof.
rewrite /same_data => fr.
by move=> [[-> -> -> -> ->] [-> -> -> -> ->] [-> ->]].
Qed.

Lemma same_data_wf st st' : same_data st st' -> wf st -> wf st'.
Proof.
case=> [[Es El _ _ Ex1] [_ EZ EL EZx _] _] [chol zx unit ln].
by split; rewrite ?EZ ?EL ?EZx ?Ex1 ?El ?Es.
Qed.

(** *** The objective value *)

(** The quantities of the specification, with explicit inverses:
    [W = Z'Z], the generalized-least-squares estimate
    [θ1 = (x1'Z W^-1 Z'x1)^-1 x1'Z W^-1 Z'δ], the residual [ξ = δ - x1 θ1] and
    the quadratic form [ξ'Z W^-1 Z'ξ]. *)
Definition spec_W (st : BLP) : 'M[F]_nZ := (Z st)^T *m Z st.

Definition spec_θ1 (st : BLP) (δf : 'cV[F]_nobs) : 'cV[F]_nx1 :=
  invmx ((x1 st)^T *m Z st *m invmx (spec_W st) *m (Z st)^T *m x1 st)
  *m ((x1 st)^T *m Z st *m invmx (spec_W st) *m (Z st)^T *m δf).

Definition spec_ξ (st : BLP) (δf : 'cV[F]_nobs) : 'cV[F]_nobs :=
  δf - x1 st *m spec_θ1 st δf.

Definition spec_objective (st : BLP) (δf : 'cV[F]_nobs) : F :=
  ((spec_ξ st δf)^T *m Z st *m invmx (spec_W st) *m (Z st)^T *m spec_ξ st δf) 0 0.

(** The object after the linear algebra of [GMM]. *)
Definition GMM_exit (st : BLP) (δf : 'cV[F]_nobs) : BLP :=
  set_GMM_old
    (set_GMM_diff (set_ξ (set_θ1 st (spec_θ1 st δf)) (spec_ξ st δf))
                  `|GMM_old st - spec_objective st δf|)
    (spec_objective st δf).

Lemma GMM_moments_spec (st : BLP) (δf : 'cV[F]_nobs) :
  wf st ->
  GMM_moments st (of_fin δf) = (Ok (spec_objective st δf), GMM_exit st δf).
Proof.
case=> chol zx unit _; rewrite /GMM_moments all_fin_of_fin /solve unit.
have chE := cho_solveE _ chol.
have -> : invmx ((Z_x1 st)^T *m cho_solve (LinvW st) (Z_x1 st))
            *m ((Z_x1 st)^T *m cho_solve (LinvW st) ((Z st)^T *m δf))
          = spec_θ1 st δf.
  by rewrite !chE zx trmx_mul trmxK /spec_θ1 /spec_W !mulmxA.
rewrite -/(spec_ξ st δf) chE.
have -> : (((Z st)^T *m spec_ξ st δf)^T
            *m (invmx ((Z st)^T *m Z st) *m ((Z st)^T *m spec_ξ st δf))) 0 0
          = spec_objective st δf.
  by rewrite trmx_mul trmxK /spec_objective /spec_W !mulmxA.
by [].
Qed.

Lemma same_data_spec st st' δf :
  same_data st st' ->
  [/\ spec_W st' = spec_W st, spec_θ1 st' δf = spec_θ1 st δf,
      spec_ξ st' δf = spec_ξ st δf & spec_objective st' δf = spec_objective st δf].
Proof.
case=> [[_ _ _ _ Ex1] [_ EZ _ _ _] _].
by rewrite /spec_objective /spec_ξ /spec_θ1 /spec_W !EZ !Ex1.
Qed.

Lemma GMM_entry_data st T T' : same_data st (GMM_entry st T T').
Proof. by []. Qed.

Lemma GMM_entry_wf st T T' : wf st -> wf (GMM_entry st T T').
Proof. by []. Qed.

(** More fuel does not change what a terminated loop returned. *)
Lemma cal_δ_loop_mono fuel k st μ r :
  cal_δ_loop fuel st μ = Done r -> cal_δ_loop (fuel + k) st μ = Done r.
Proof.
elim: fuel st => [|fuel IH] st //=.
by case: (cal_δ_step st μ) => [st'|st'|e st'] //; exact: IH.
Qed.

(** When the contraction mapping returns a [δ] without NaN, [GMM] returns. *)
Lemma GMM_returns (fuel : nat) (st : BLP) (θ_cand : ndarray)
    (T T' : θ_shape) (δf : 'cV[F]_nobs) (st4 : BLP) :
  wf st ->
  θ_at_call st θ_cand = Some T ->
  GMM_assign T (mask_of st T) θ_cand = Ok T' ->
  cal_δ fuel (GMM_entry st T T') T' = Done (Ok (of_fin δf), st4) ->
  same_data st (set_δ st4 (of_fin δf)) /\
  GMM fuel st θ_cand =
  Done (Ok (spec_objective st δf), GMM_exit (set_δ st4 (of_fin δf)) δf).
Proof.
move=> wf_st Eθ Ea Eδ.
have fr4 : same_data st (set_δ st4 (of_fin δf)).
  apply: same_data_trans (GMM_entry_data st T T') _.
  exact: (same_frame_data (cal_δ_loop_frame Eδ)).
have wf4 := same_data_wf fr4 wf_st.
have [_ _ _ Eobj] := same_data_spec δf fr4.
split; first exact: fr4.
by rewrite GMM_E Eθ Ea Eδ (GMM_moments_spec _ wf4) Eobj.
Qed.

(** C1. When the contraction mapping returns a [δ] without NaN, [GMM]
    returns the scalar [ξ'Z W^-1 Z'ξ] with [W = Z'Z],
    [θ1 = (x1'Z W^-1 Z'x1)^-1 x1'Z W^-1 Z'δ] and [ξ = δ - x1 θ1], and stores
    [θ1] and [ξ].  The code reaches it without an inverse of [W]: the value
    is [(Z'ξ)' X] for the [X] obtained from [Z'ξ] by forward and back
    substitution against the stored Cholesky factor of [Z'Z], which the call
    leaves as it was. *)
Theorem C1_GMM_value (fuel : nat) (st : BLP) (θ_cand : ndarray)
    (T T' : θ_shape) (δ' : 'cV[fl]_nobs) (δf : 'cV[F]_nobs) (st4 : BLP) :
  wf st ->
  θ_at_call st θ_cand = Some T ->
  GMM_assign T (mask_of st T) θ_cand = Ok T' ->
  cal_δ fuel (GMM_entry st T T') T' = Done (Ok δ', st4) ->
  all_fin δ' = Some δf ->
  exists st',
    [/\ GMM fuel st θ_cand = Done (Ok (spec_objective st δf), st'),
        θ1 st' = Some (spec_θ1 st δf) /\ ξ st' = Some (spec_ξ st δf),
        LinvW st' = LinvW st /\ is_cholesky (spec_W st) (LinvW st)
      & spec_objective st δf =
        (((Z st)^T *m spec_ξ st δf)^T
         *m back_subst (LinvW st)
              (forward_subst (LinvW st) ((Z st)^T *m spec_ξ st δf))) 0 0].
Proof.
move=> wf_st Eθ Ea Eδ /all_finK Efin; rewrite {δ'}Efin in Eδ *.
have [fr4 EG] := GMM_returns wf_st Eθ Ea Eδ.
have [EW Eθ1 Eξ Eobj] := same_data_spec δf fr4.
exists (GMM_exit (set_δ st4 (of_fin δf)) δf); split.
- exact: EG.
- by split; [rewrite -Eθ1 | rewrite -Eξ].
- case: fr4 => _ [_ _ EL _ _] _; split; first exact: EL.
  by case: wf_st.
- case: wf_st => chol _ _ _.
  rewrite -/(cho_solve _ _) (cho_solveE _ chol) trmx_mul trmxK.
  by rewrite /spec_objective /spec_W !mulmxA.
Qed.

(** *** Determinism of the objective *)

(** What a call returns, without the object. *)
Definition returned A (r : run (A * BLP)) : run A :=
  if r is Done (a, _) then Done a else OutOfFuel.

(** The attributes the contraction mapping and the linear algebra read. *)
Definition agree (st1 st2 : BLP) : Prop :=
  [/\ [/\ ln_s_jt st1 = ln_s_jt st2, v st1 = v st2, D st1 = D st2,
          x1 st1 = x1 st2 & x2 st1 = x2 st2]
    & [/\ Z st1 = Z st2, LinvW st1 = LinvW st2, Z_x1 st1 = Z_x1 st2,
          etol st1 = etol st2 & δ st1 = δ st2]].

(** The attributes a call of [GMM] reads before it overwrites them: the
    data, the Cholesky factor, [δ], [GMM_diff], [θ] and the mask.  The
    stored [etol], [GMM_old], [s], [θ1], [ξ] and [iter_limit] are not among
    them. *)
Definition same_inputs (st1 st2 : BLP) : Prop :=
  [/\ [/\ ln_s_jt st1 = ln_s_jt st2, v st1 = v st2, D st1 = D st2,
          x1 st1 = x1 st2 & x2 st1 = x2 st2],
      [/\ Z st1 = Z st2, LinvW st1 = LinvW st2, Z_x1 st1 = Z_x1 st2,
          GMM_diff st1 = GMM_diff st2 & δ st1 = δ st2]
    & θ st1 = θ st2 /\ ix_θ_T st1 = ix_θ_T st2].

Lemma cal_δ_step_agree st1 st2 μ :
  agree st1 st2 ->
  match cal_δ_step st1 μ, cal_δ_step st2 μ with
  | Iterating a, Iterating b => agree a b
  | Converged a, Converged b => agree a b
  | Failed e a, Failed e' b => e = e' /\ agree a b
  | _, _ => False
  end.
Proof.
case=> [[Eln Ev ED Ex1 Ex2] [EZ EL EZx Ee Eδ]].
rewrite !cal_δ_stepE /cal_δ_diff /= Eln Eδ Ee.
case: ifP => _ //.
by case: (converged _ _) => [[]|e].
Qed.

Lemma cal_δ_loop_agree fuel st1 st2 μ :
  agree st1 st2 ->
  match cal_δ_loop fuel st1 μ, cal_δ_loop fuel st2 μ with
  | Done (r1, a), Done (r2, b) => r1 = r2 /\ agree a b
  | OutOfFuel, OutOfFuel => True
  | _, _ => False
  end.
Proof.
elim: fuel st1 st2 => [|fuel IH] st1 st2 //= ag.
move: (cal_δ_step_agree μ ag).
case: (cal_δ_step st1 μ) => [a|a|e a]; case: (cal_δ_step st2 μ) => [b|b|e' b] //.
- exact: IH.
- by move=> ag'; split=> //; case: ag' => _ [_ _ _ _ ->].
- by case=> ->.
Qed.

Lemma GMM_moments_agree st1 st2 d :
  agree st1 st2 -> (GMM_moments st1 d).1 = (GMM_moments st2 d).1.
Proof.
case=> [[Eln Ev ED Ex1 Ex2] [EZ EL EZx Ee Eδ]].
rewrite /GMM_moments; case: (all_fin d) => [δf|] //.
rewrite EZ EL EZx Ex1.
by case: (solve _ _).
Qed.

(** C8. The objective is deterministic: two evaluations of [GMM] on the same
    argument, on objects that agree on the data and draws, the stored [δ],
    [GMM_diff] (which fixes the tolerance), [θ] and the mask, return the same
    value or raise the same exception, or both have not returned, for every
    number of passes granted; the stored [etol], [GMM_old] and the other
    attributes have no influence. *)
Theorem C8_GMM_deterministic (fuel : nat) (st1 st2 : BLP) (θ_cand : ndarray) :
  same_inputs st1 st2 ->
  returned (GMM fuel st1 θ_cand) = returned (GMM fuel st2 θ_cand).
Proof.
case=> [[Eln Ev ED Ex1 Ex2] [EZ EL EZx Eg Eδ] [Eθ Eix]].
rewrite !GMM_E /θ_at_call /mask_of Eθ Eix.
case: (match θ st2 with Some _ => _ | None => _ end) => [T|] //.
case: (GMM_assign _ _ _) => [T'|e] //.
have ag : agree (GMM_entry st1 T T') (GMM_entry st2 T T').
  by split; split=> //=; rewrite Eg.
rewrite /cal_δ Ev ED Ex2.
move: (cal_δ_loop_agree fuel (cal_mu (lsubmx T') (rsubmx T') (v st2) (D st2) (x2 st2)) ag).
case: (cal_δ_loop _ (GMM_entry st1 _ _) _) => [[r1 a]|];
  case: (cal_δ_loop _ (GMM_entry st2 _ _) _) => [[r2 b]|] //.
case=> <- ag'; case: r1 => [δ'|e] //=.
have ag2 : agree (set_δ a δ') (set_δ b δ').
  by case: ag' => [[? ? ? ? ?] [? ? ? ? _]].
move: (GMM_moments_agree δ' ag2).
by case: (GMM_moments _ _) => g1 c1; case: (GMM_moments _ _) => g2 c2 /= ->.
Qed.

(** *** The gradient *)

(** C4 (the code does otherwise). [gradient_GMM] reads the attribute
    [ix_θ], which no method assigns (the mask is stored as [ix_θ_T]): every
    call raises [AttributeError] on its first statement, returns no gradient
    and leaves the object as it was. *)
Theorem C4_gradient_raises (st : BLP) (θ_cand : ndarray) :
  gradient_GMM st θ_cand = (Raise AttributeError, st).
Proof. by []. Qed.

(** *** The sparsity mask *)

Lemma GMM_moments_mask st d :
  θ (GMM_moments st d).2 = θ st /\ ix_θ_T (GMM_moments st d).2 = ix_θ_T st.
Proof.
rewrite /GMM_moments; case: (all_fin d) => [δf|] //.
by case: (solve _ _).
Qed.

(** The parameter matrix and the mask after a call of [GMM] that returned. *)
Lemma GMM_mask fuel st θ_cand r st' :
  GMM fuel st θ_cand = Done (r, st') ->
  match θ_at_call st θ_cand with
  | None => st' = st
  | Some T =>
    ix_θ_T st' = Some (mask_of st T) /\
    θ st' = Some (result_get T (GMM_assign T (mask_of st T) θ_cand))
  end.
Proof.
rewrite GMM_E; case: (θ_at_call _ _) => [T|]; last by case=> _ <-.
case: (GMM_assign _ _ _) => [T'|e] /=; last by case=> _ <-.
rewrite /cal_δ.
case E: (cal_δ_loop _ _ _) => [[[δ'|e] st4]|] //.
  have [_ _ _ [Eθ Eix _ _]] := cal_δ_loop_frame E.
  move: (GMM_moments_mask (set_δ st4 δ') δ').
  by case: (GMM_moments _ _) => g st5 /= [Eθ5 Eix5] [_ <-]; rewrite Eθ5 Eix5 Eθ Eix.
have [_ _ _ [Eθ Eix _ _]] := cal_δ_loop_frame E.
by case=> _ <-; rewrite Eθ Eix.
Qed.

(** The entries of [θ] outside the mask are zero. *)
Definition outside_mask_zero (ix : seq θ_T_index) (T : θ_shape) : Prop :=
  forall a b, (a, b) \notin ix -> T b a = 0.

Lemma upd_T_other (T : θ_shape) p x a b : (a, b) != p -> upd_T T p x b a = T b a.
Proof. by case: p => a' b'; rewrite mxE xpair_eqE => /negbTE ->. Qed.

Lemma foldl_upd_T_outside (ps : seq (θ_T_index * F)) (T : θ_shape) a b :
  (a, b) \notin unzip1 ps ->
  foldl (fun M pv => upd_T M pv.1 pv.2) T ps b a = T b a.
Proof.
elim: ps T => [|[p x] ps IH] T //=.
rewrite inE negb_or => /andP[ne nin].
by rewrite IH // upd_T_other.
Qed.

Lemma foldl_upd_T_const_outside (ix : seq θ_T_index) x (T : θ_shape) a b :
  (a, b) \notin ix ->
  foldl (fun M p => upd_T M p x) T ix b a = T b a.
Proof.
elim: ix T => [|p ix IH] T //=.
rewrite inE negb_or => /andP[ne nin].
by rewrite IH // upd_T_other.
Qed.

(** An indexed assignment through the mask writes the masked entries only. *)
Lemma setitem_T_outside T ix vals T' a b :
  setitem_T T ix vals = Ok T' -> (a, b) \notin ix -> T' b a = T b a.
Proof.
rewrite /setitem_T; case: ifP => [/eqP Es|_].
  case=> <- nin; apply: foldl_upd_T_outside.
  by rewrite unzip1_zip // Es.
case: ifP => // _ [<-] nin.
exact: foldl_upd_T_const_outside.
Qed.

Lemma np_nonzero_T_outside T : outside_mask_zero (np_nonzero_T T) T.
Proof.
move=> a b; rewrite /np_nonzero_T mem_filter /= negb_and negbK.
case/orP=> [/eqP //|/negP[]].
by apply/allpairsP; exists (a, b); rewrite !mem_enum.
Qed.

(** The calls that may follow: vectorized evaluations of the objective that
    returned, and evaluations of the gradient. *)
Inductive later_calls : BLP -> BLP -> Prop :=
  | later_none st : later_calls st st
  | later_GMM st fuel vals r st1 st2 :
      GMM fuel st (Vec vals) = Done (r, st1) -> later_calls st1 st2 ->
      later_calls st st2
  | later_gradient st θ_cand r st1 st2 :
      gradient_GMM st θ_cand = (r, st1) -> later_calls st1 st2 ->
      later_calls st st2.

Lemma later_calls_mask st st' ix T :
  later_calls st st' ->
  ix_θ_T st = Some ix -> θ st = Some T ->
  ix_θ_T st' = Some ix /\
  exists2 T', θ st' = Some T' & forall a b, (a, b) \notin ix -> T' b a = T b a.
Proof.
move=> calls; elim: calls ix T => {st st'} [st|st fuel vals r st1 st2|st c r st1 st2].
- by move=> ix T -> ->; split=> //; exists T.
- move=> /GMM_mask + _ IH ix T Eix Eθ.
  rewrite /θ_at_call /mask_of Eθ Eix /= => -[Eix1 Eθ1].
  have [-> [T2 -> out2]] := IH _ _ Eix1 Eθ1; split=> //.
  exists T2 => // a b nin; rewrite out2 //.
  case E: (setitem_T T ix vals) => [T'|e] //=.
  exact: setitem_T_outside E nin.
- by case=> _ <- _ IH ix T; exact: IH.
Qed.

(** The statement of the specification: after calls of [GMM] in either form
    and of [gradient_GMM], the entries outside the mask are still zero. *)
Inductive any_later_calls : BLP -> BLP -> Prop :=
  | any_later_none st : any_later_calls st st
  | any_later_GMM st fuel θ_cand r st1 st2 :
      GMM fuel st θ_cand = Done (r, st1) -> any_later_calls st1 st2 ->
      any_later_calls st st2
  | any_later_gradient st θ_cand r st1 st2 :
      gradient_GMM st θ_cand = (r, st1) -> any_later_calls st1 st2 ->
      any_later_calls st st2.

Definition mask_zeros_persist : Prop :=
  forall st st' ix T,
    ix_θ_T st = Some ix -> θ st = Some T -> outside_mask_zero ix T ->
    any_later_calls st st' ->
    exists2 T', θ st' = Some T' & outside_mask_zero ix T'.

(** A candidate of length one is accepted whatever the mask. *)
Lemma setitem_T_singleton T ix x : exists T', setitem_T T ix [:: x] = Ok T'.
Proof. by rewrite /setitem_T; case: ifP => _; eexists. Qed.

(** C9 (as amended). The mask is set by the first call of [GMM] on a fresh
    object, from the nonzero pattern of the matrix it is given, and no later
    call of [GMM], in either form, changes it.  A vectorized call writes the
    candidate into the masked entries only, so the entries outside the mask,
    zero after the first call, are zero after any sequence of vectorized
    evaluations of the objective and evaluations of the gradient. *)
Theorem C9_mask_fixed :
  [/\ forall fuel st T0 r st',
        θ st = None -> ix_θ_T st = None ->
        GMM fuel st (Mat T0) = Done (r, st') ->
        [/\ θ st' = Some T0, ix_θ_T st' = Some (np_nonzero_T T0)
          & outside_mask_zero (np_nonzero_T T0) T0],
      forall fuel st θ_cand ix r st',
        ix_θ_T st = Some ix ->
        GMM fuel st θ_cand = Done (r, st') -> ix_θ_T st' = Some ix
    & forall st st' ix T,
        ix_θ_T st = Some ix -> θ st = Some T -> outside_mask_zero ix T ->
        later_calls st st' ->
        ix_θ_T st' = Some ix /\
        exists2 T', θ st' = Some T' & outside_mask_zero ix T'].
Proof.
split.
- move=> fuel st T0 r st' Eθ Eix /GMM_mask.
  rewrite /θ_at_call /mask_of Eθ Eix /= => -[-> ->]; split=> //.
  exact: np_nonzero_T_outside.
- move=> fuel st θ_cand ix r st' Eix /GMM_mask.
  case: (θ_at_call _ _) => [T|->] //.
  by rewrite /mask_of Eix; case.
- move=> st st' ix T Eix Eθ out calls.
  have [-> [T' -> same]] := later_calls_mask calls Eix Eθ; split=> //.
  by exists T' => // a b nin; rewrite same // out.
Qed.

(** *** The Jacobian *)

Lemma cdid_flat (m : 'I_nmkt) (r : 'I_nbrand) : cdid (flat m r) = m.
Proof. exact: fdiv_flat. Qed.

(** What [cal_jacobian] returns, market by market. *)
Lemma cal_jacobian_market st T J :
  cal_jacobian st T = Ok J ->
  exists2 P, all_fin (ind_choice_prob st T) = Some P &
  forall m,
    [/\ H P m \in unitmx,
        market_rows J m =
          - (invmx (H P m) *m market_rows (take_cols (f1 st P) (rel T)) m)
      & H P m *m market_rows J m =
          - market_rows (take_cols (f1 st P) (rel T)) m].
Proof.
rewrite /cal_jacobian; case: (all_fin _) => [P|] //.
case: ifP => // /forallP ok [<-]; exists P => // m.
move: (ok m); rewrite /market_solve.
case E: (solve _ _) => [X|] // _.
have [U EX] := solve_unit E.
have rows : market_rows
    (\matrix_(j, c) - (result_get 0
        (solve (H P (cdid j)) (market_rows (take_cols (f1 st P) (rel T)) (cdid j))))
        (fmod j) c) m = - X.
  by apply/matrixP => r c; rewrite !mxE cdid_flat fmod_flat E.
split=> //; first by rewrite rows EX.
by rewrite rows mulmxN (solve_correct E).
Qed.

(** The entries of [H]. *)
Lemma H_entry (P : 'M[F]_(nobs, nsimind)) (m : 'I_nmkt) (r r' : 'I_nbrand) :
  H P m r r' =
  nsimind%:R^-1 * ((\sum_i P (flat m r) i) *+ (r == r')
                   - \sum_i P (flat m r) i * P (flat m r') i).
Proof.
rewrite /H !mxE; congr (_ * (_ *+ _ - _)).
  by apply: eq_bigr => i _; rewrite mxE.
by apply: eq_bigr => i _; rewrite !mxE.
Qed.

(** With finite choice probabilities and every [H] invertible, the Jacobian
    exists. *)
Lemma cal_jacobian_returns st T P :
  all_fin (ind_choice_prob st T) = Some P ->
  (forall m, H P m \in unitmx) ->
  exists J, cal_jacobian st T = Ok J.
Proof.
move=> EP U; rewrite /cal_jacobian EP.
have -> : [forall m, is_ok (market_solve st P T m)].
  by apply/forallP => m; rewrite /market_solve (solve_unitE _ (U m)).
by eexists.
Qed.

(** The positions [rel] of a matrix that is zero outside a mask taken from
    another matrix are the masked positions that hold a nonzero entry. *)
Lemma np_nonzero_T_mem T p : (p \in np_nonzero_T T) = (T p.2 p.1 != 0).
Proof.
rewrite /np_nonzero_T mem_filter andbC.
have -> // : p \in [seq (a, b) | a <- enum 'I_(1 + nD), b <- enum 'I_nx2].
by apply/allpairsP; exists p; rewrite !mem_enum; split=> //; case: p.
Qed.

Lemma np_nonzero_T0 : np_nonzero_T 0 = [::].
Proof.
have: forall p, p \notin np_nonzero_T 0.
  by move=> p; rewrite np_nonzero_T_mem mxE eqxx.
by case: (np_nonzero_T 0) => // p l /(_ p); rewrite inE eqxx.
Qed.

Lemma np_nonzero_T_through_mask T0 T' :
  outside_mask_zero (np_nonzero_T T0) T' ->
  np_nonzero_T T' = [seq p <- np_nonzero_T T0 | T' p.2 p.1 != 0].
Proof.
move=> out; rewrite /np_nonzero_T -filter_predI.
apply: eq_in_filter => -[a b] _ /=.
case E: (T' b a != 0) => //=.
apply/esym; apply: contraT => z; move/eqP: E; case.
by rewrite out // np_nonzero_T_mem.
Qed.

(** C5 (the code does otherwise for the columns). For every market,
    [cal_jacobian] forms [H = (diag(row sums of P) - P P') / nsimind] from
    the market's block of choice probabilities and returns, in the rows of
    the market, the solution [X] of [H X = -F1] for the market's rows of the
    retained columns of [f1].  The retained columns are the positions where
    the matrix it is given is nonzero, not the stored mask: with a mask
    taken from [T0] and a matrix [T'] that is zero outside it, there is one
    column for each masked entry that is nonzero in [T'], which is fewer
    than one per estimated parameter as soon as a masked entry is zero. *)
Theorem C5_jacobian_columns (st : BLP) (T0 T' : θ_shape)
    (J : 'M[F]_(nobs, size (rel T'))) :
  outside_mask_zero (np_nonzero_T T0) T' ->
  cal_jacobian st T' = Ok J ->
  [/\ exists2 P, all_fin (ind_choice_prob st T') = Some P &
        forall m,
          H P m = nsimind%:R^-1 *:
                  (diag_mx (\row_r \sum_i market_rows P m r i)
                   - market_rows P m *m (market_rows P m)^T) /\
          H P m *m market_rows J m =
            - market_rows (take_cols (f1 st P) (rel T')) m,
      rel T' = [seq flat p.1 p.2 | p <- np_nonzero_T T0 & T' p.2 p.1 != 0]
    & size (rel T') = count (fun p => T' p.2 p.1 != 0) (np_nonzero_T T0)].
Proof.
move=> out EJ; have [P EP solves] := cal_jacobian_market EJ.
have Erel := np_nonzero_T_through_mask out.
split; first by exists P => // m; have [_ _ ?] := solves m.
  by rewrite /rel Erel.
by rewrite /rel size_map Erel size_filter.
Qed.

(** *** The variance-covariance matrix *)

(** The quantities of the specification: the weighting matrix
    [W = (Z'Z)^-1], the moment covariance [Ω] of the instruments scaled row
    by row by the residual, the gradient of the moments [G = Z' [x1, J]] and
    the sandwich [(G'WG)^-1 G'WΩWG (G'WG)^-1]. *)
Definition spec_Winv (st : BLP) : 'M[F]_nZ := invmx (spec_W st).

Definition spec_Zres (st : BLP) (ξ' : 'cV[F]_nobs) : 'M[F]_(nobs, nZ) :=
  \matrix_(j, c) (Z st j c * ξ' j 0).

Definition spec_Ω (st : BLP) (ξ' : 'cV[F]_nobs) : 'M[F]_nZ :=
  (spec_Zres st ξ')^T *m spec_Zres st ξ'.

Definition spec_G (st : BLP) q (J : 'M[F]_(nobs, q)) : 'M[F]_(nZ, nx1 + q) :=
  (Z st)^T *m row_mx (x1 st) J.

Definition spec_bread (st : BLP) q (J : 'M[F]_(nobs, q)) : 'M[F]_(nx1 + q) :=
  (spec_G st J)^T *m spec_Winv st *m spec_G st J.

Definition spec_meat (st : BLP) (ξ' : 'cV[F]_nobs) q (J : 'M[F]_(nobs, q)) :
    'M[F]_(nx1 + q) :=
  (spec_G st J)^T *m spec_Winv st *m spec_Ω st ξ' *m spec_Winv st *m spec_G st J.

Definition spec_sandwich (st : BLP) (ξ' : 'cV[F]_nobs) q (J : 'M[F]_(nobs, q)) :
    'M[F]_(nx1 + q) :=
  invmx (spec_bread st J) *m spec_meat st ξ' J *m invmx (spec_bread st J).

Lemma spec_Winv_sym st : symmetric (spec_Winv st).
Proof. exact/symmetric_inv/symmetric_gram. Qed.

Lemma spec_Ω_sym st ξ' : symmetric (spec_Ω st ξ').
Proof. exact: symmetric_gram. Qed.

Lemma spec_bread_sym st q (J : 'M[F]_(nobs, q)) : symmetric (spec_bread st J).
Proof.
by rewrite /symmetric /spec_bread /spec_G !trmx_mul !trmxK spec_Winv_sym !mulmxA.
Qed.

(** The middle factor is a Gram matrix. *)
Lemma spec_meat_gram st ξ' q (J : 'M[F]_(nobs, q)) :
  spec_meat st ξ' J =
  (spec_Zres st ξ' *m spec_Winv st *m spec_G st J)^T
  *m (spec_Zres st ξ' *m spec_Winv st *m spec_G st J).
Proof.
by rewrite /spec_meat /spec_Ω /spec_G !trmx_mul !trmxK spec_Winv_sym !mulmxA.
Qed.

Lemma spec_meat_sym st ξ' q (J : 'M[F]_(nobs, q)) : symmetric (spec_meat st ξ' J).
Proof. by rewrite spec_meat_gram; exact: symmetric_gram. Qed.

(** Lines 228-242 compute the sandwich. *)
Lemma varcov_of_spec st ξ' T V :
  wf st -> varcov_of st ξ' T = Ok V ->
  exists2 J, cal_jacobian st T = Ok J &
    spec_bread st J \in unitmx /\ V = spec_sandwich st ξ' J.
Proof.
case=> chol _ _ _; rewrite /varcov_of.
case: (cal_jacobian st T) => [J|] //=; rewrite !(cho_solveE _ chol).
have -> : ((row_mx (x1 st) J)^T *m Z st)^T = spec_G st J.
  by rewrite trmx_mul trmxK.
rewrite -/(spec_Zres st ξ') -/(spec_Ω st ξ') -/(spec_W st) -/(spec_Winv st).
have -> : (spec_G st J)^T *m (spec_Winv st *m spec_G st J) = spec_bread st J.
  by rewrite /spec_bread mulmxA.
have -> : (spec_G st J)^T *m (spec_Winv st *m spec_Ω st ξ')
          *m (spec_Winv st *m spec_G st J) = spec_meat st ξ' J.
  by rewrite /spec_meat !mulmxA.
case E1: (solve _ _) => [t|] //=.
have [U ->] := solve_unit E1.
rewrite /solve U => -[<-]; exists J => //; split=> //.
rewrite /spec_sandwich trmx_mul spec_meat_sym.
by rewrite (symmetric_inv (spec_bread_sym st J)) mulmxA.
Qed.

(** Conversely, with a Jacobian and an invertible [G'WG], they return. *)
Lemma varcov_of_returns st ξ' T J :
  wf st -> cal_jacobian st T = Ok J -> spec_bread st J \in unitmx ->
  varcov_of st ξ' T = Ok (spec_sandwich st ξ' J).
Proof.
move=> wf_st EJ U; case: (wf_st) => chol _ _ _.
rewrite /varcov_of EJ /= !(cho_solveE _ chol).
have -> : ((row_mx (x1 st) J)^T *m Z st)^T = spec_G st J.
  by rewrite trmx_mul trmxK.
rewrite -/(spec_Zres st ξ') -/(spec_Ω st ξ') -/(spec_W st) -/(spec_Winv st).
have -> : (spec_G st J)^T *m (spec_Winv st *m spec_G st J) = spec_bread st J.
  by rewrite /spec_bread mulmxA.
have -> : (spec_G st J)^T *m (spec_Winv st *m spec_Ω st ξ')
          *m (spec_Winv st *m spec_G st J) = spec_meat st ξ' J.
  by rewrite /spec_meat !mulmxA.
rewrite (solve_unitE _ U) /= (solve_unitE _ U); congr Ok.
rewrite /spec_sandwich trmx_mul spec_meat_sym.
by rewrite (symmetric_inv (spec_bread_sym st J)) mulmxA.
Qed.

(** C6. Given the parameter vector, [cal_varcov] writes it into the masked
    entries of [θ] and, when the Jacobian [J] at that matrix exists and
    [G'WG] is invertible, returns the sandwich
    [(G'WG)^-1 G'WΩWG (G'WG)^-1] for [W = (Z'Z)^-1], [Ω = Zres' Zres] with
    [Zres] the rows of [Z] scaled by the stored residual [ξ], and
    [G = Z' [x1, J]].  The code applies [W] by [cho_solve] against the
    stored Cholesky factor of [Z'Z] only. *)
Theorem C6_varcov_sandwich (st : BLP) (θ_vec : seq F) (ξ' : 'cV[F]_nobs)
    (ix : seq θ_T_index) (T T' : θ_shape) (J : 'M[F]_(nobs, size (rel T'))) :
  wf st ->
  ξ st = Some ξ' -> θ st = Some T -> ix_θ_T st = Some ix ->
  setitem_T T ix θ_vec = Ok T' ->
  cal_jacobian (set_θ st (Some T')) T' = Ok J ->
  spec_bread st J \in unitmx ->
  [/\ cal_varcov st θ_vec =
        (Ok (existT _ _ (spec_sandwich st ξ' J)), set_θ st (Some T')),
      is_cholesky (spec_W st) (LinvW st)
    & forall q (B : 'M[F]_(nZ, q)),
        back_subst (LinvW st) (forward_subst (LinvW st) B) = spec_Winv st *m B].
Proof.
move=> wf_st Eξ Eθ Eix Ea EJ U.
have wf' : wf (set_θ st (Some T')) by [].
split.
- rewrite /cal_varcov Eξ Eθ Eix Ea.
  by rewrite (varcov_of_returns ξ' wf' EJ).
- by case: wf_st.
- by case: wf_st => chol _ _ _ q B; rewrite -/(cho_solve _ _) (cho_solveE _ chol).
Qed.

(** C7. Whenever [cal_varcov] returns, the matrix is symmetric and positive
    semi-definite. *)
Theorem C7_varcov_symmetric_psd (st st' : BLP) (θ_vec : seq F) (V : np_square) :
  wf st ->
  cal_varcov st θ_vec = (Ok V, st') ->
  symmetric (projT2 V) /\ psd (projT2 V).
Proof.
move=> wf_st; rewrite /cal_varcov.
case Eξ: (ξ st) => [ξ'|] //; case Eθ: (θ st) => [T|] //.
case Ea: (match ix_θ_T st with Some _ => _ | None => _ end) => [T'|] //.
case Ev: (varcov_of _ _ _) => [V'|] //= [<- _] /=.
have wf' : wf (set_θ st (Some T')) by [].
have [J EJ [U ->]] := varcov_of_spec wf' Ev.
rewrite /spec_sandwich; set A := spec_bread _ J; set B := spec_meat _ ξ' J.
have symA : symmetric (invmx A) by exact/symmetric_inv/spec_bread_sym.
split.
  by rewrite /symmetric 2!trmx_mul symA /B spec_meat_sym mulmxA.
move=> x; rewrite /B spec_meat_gram.
set M := _ *m spec_G _ J.
have -> : x^T *m (invmx A *m (M^T *m M) *m invmx A) *m x
          = (invmx A *m x)^T *m (M^T *m M) *m (invmx A *m x).
  by rewrite trmx_mul symA !mulmxA.
exact: gram_ge0.
Qed.

(** ** Further properties of the class *)

(** *** Shapes of a call of [GMM] *)

Lemma GMM_moments_data st d : same_data st (GMM_moments st d).2.
Proof.
rewrite /GMM_moments; case: (all_fin d) => [δf|] //.
by case: (solve _ _).
Qed.

Lemma wf_unit st :
  wf st ->
  (x1 st)^T *m Z st *m invmx (spec_W st) *m (Z st)^T *m x1 st \in unitmx.
Proof.
case=> chol zx unit _; move: unit.
by rewrite (cho_solveE _ chol) zx trmx_mul trmxK /spec_W !mulmxA.
Qed.

(** On an object as [__init__] leaves it, the linear algebra of [GMM] either
    returns the sentinel (a NaN in [δ]) or the quadratic form. *)
Lemma GMM_moments_cases st δ' r st' :
  wf st -> GMM_moments st δ' = (r, st') ->
  [/\ has_nan δ', r = Ok c_1e10 & st' = st] \/
  exists δf, [/\ δ' = of_fin δf, r = Ok (spec_objective st δf)
                & st' = GMM_exit st δf].
Proof.
move=> wf_st; case E: (all_fin δ') => [δf|].
  rewrite (all_finK E) GMM_moments_spec // => -[<- <-].
  by right; exists δf.
rewrite /GMM_moments E => -[<- <-]; left; split=> //.
by rewrite all_fin_has_nan E.
Qed.

(** A call of [GMM] that returns either raised before the linear algebra,
    leaving [θ1], [ξ], [GMM_old] and [GMM_diff] alone, or ran the linear
    algebra on an object with the same data and the [δ] of the contraction
    mapping. *)
Lemma GMM_shape fuel st θ_cand r st' :
  GMM fuel st θ_cand = Done (r, st') ->
  [/\ same_data st st', ~~ is_ok r, θ1 st' = θ1 st /\ ξ st' = ξ st
    & GMM_old st' = GMM_old st /\ GMM_diff st' = GMM_diff st] \/
  exists st6,
    [/\ same_data st st6, θ1 st6 = θ1 st /\ ξ st6 = ξ st,
        GMM_old st6 = GMM_old st /\ GMM_diff st6 = GMM_diff st
      & GMM_moments st6 (δ st6) = (r, st')].
Proof.
rewrite GMM_E; case: (θ_at_call _ _) => [T|]; last first.
  by case=> <- <-; left.
case: (GMM_assign _ _ _) => [T'|e]; last by case=> <- <-; left.
rewrite /cal_δ.
case E: (cal_δ_loop _ _ _) => [[[δ'|e] st4]|] //.
  have fr := cal_δ_loop_frame E.
  have [_ _ [_ Eo Ed _ _] [_ _ E1 Eξ]] := fr.
  move=> [Em]; right; exists (set_δ st4 δ'); split=> //.
  exact: (same_data_trans (GMM_entry_data st T T') (same_frame_data fr)).
have fr := cal_δ_loop_frame E.
have [_ _ [_ Eo Ed _ _] [_ _ E1 Eξ]] := fr.
case=> <- <-; left; split=> //.
exact: (same_data_trans (GMM_entry_data st T T') (same_frame_data fr)).
Qed.

Lemma GMM_data fuel st θ_cand r st' :
  GMM fuel st θ_cand = Done (r, st') -> same_data st st'.
Proof.
case/GMM_shape=> [[] //|[st6 [fr _ _ Em]]].
apply: same_data_trans fr _.
by move: (GMM_moments_data st6 (δ st6)); rewrite Em.
Qed.

Lemma cal_varcov_data st θ_vec r st' :
  cal_varcov st θ_vec = (r, st') -> same_data st st'.
Proof.
rewrite /cal_varcov; case: (ξ st) => [ξ'|]; last by case=> _ <-.
case: (θ st) => [T|]; last by case=> _ <-.
case: (match ix_θ_T st with Some _ => _ | None => _ end) => [T'|e].
  by case=> _ <-.
by case=> _ <-.
Qed.

(** *** Objects a run can reach *)

(** From the object [__init__] builds, by calls of [GMM], [gradient_GMM] and
    [cal_varcov] that returned or raised. *)
Inductive reachable (d : data) : BLP -> Prop :=
  | reach_init st : __init__ d = Ok st -> reachable d st
  | reach_GMM st fuel θ_cand r st' :
      reachable d st -> GMM fuel st θ_cand = Done (r, st') -> reachable d st'
  | reach_gradient st θ_cand r st' :
      reachable d st -> gradient_GMM st θ_cand = (r, st') -> reachable d st'
  | reach_varcov st θ_vec r st' :
      reachable d st -> cal_varcov st θ_vec = (r, st') -> reachable d st'.

Lemma reachable_data d st :
  reachable d st ->
  exists2 st0, __init__ d = Ok st0 & same_data st0 st.
Proof.
elim=> {st} [st E|st fuel c r st' _ [st0 E fr] Eg|st c r st' _ [st0 E fr]
           |st v r st' _ [st0 E fr] Ev].
- by exists st.
- by exists st0 => //; apply: same_data_trans fr (GMM_data Eg).
- by case=> _ <-; exists st0.
- by exists st0 => //; apply: same_data_trans fr (cal_varcov_data Ev).
Qed.

Lemma reachable_wf d st : reachable d st -> wf st.
Proof.
by case/reachable_data=> st0 /init_wf wf0 fr; exact: same_data_wf fr wf0.
Qed.

Lemma cal_varcov_ξ st θ_vec r st' :
  cal_varcov st θ_vec = (r, st') -> ξ st' = ξ st /\ θ1 st' = θ1 st.
Proof.
rewrite /cal_varcov; case E: (ξ st) => [ξ'|]; last by case=> _ <-.
case: (θ st) => [T|]; last by case=> _ <-.
case: (match ix_θ_T st with Some _ => _ | None => _ end) => [T'|e].
  by case=> _ <-.
by case=> _ <-.
Qed.

(** *** The linear step of the objective *)

(** The first-order condition of the generalized least squares step: the
    residual is orthogonal to the instrumented regressors. *)
Lemma spec_ξ_foc st δf :
  wf st ->
  (x1 st)^T *m Z st *m invmx (spec_W st) *m (Z st)^T *m spec_ξ st δf = 0.
Proof.
move=> /wf_unit U; rewrite /spec_ξ mulmxBr.
rewrite [X in _ - X]mulmxA /spec_θ1 mulKVmx //.
by rewrite subrr.
Qed.

Definition foc (st : BLP) : Prop :=
  forall ξ', ξ st = Some ξ' ->
    (x1 st)^T *m Z st *m invmx (spec_W st) *m (Z st)^T *m ξ' = 0.

Lemma foc_same_data st st' :
  same_data st st' -> ξ st' = ξ st -> foc st -> foc st'.
Proof.
move=> [[_ _ _ _ Ex1] [_ EZ _ _ _] _] Eξ fo ξ'.
by rewrite /spec_W Ex1 EZ Eξ; exact: fo.
Qed.

Lemma GMM_foc fuel st θ_cand r st' :
  wf st -> foc st -> GMM fuel st θ_cand = Done (r, st') -> foc st'.
Proof.
move=> wf_st fo /GMM_shape [[fr _ [_ Eξ] _]|[st6 [fr [_ Eξ] _ Em]]].
  exact: foc_same_data fr Eξ fo.
have wf6 := same_data_wf fr wf_st.
have fo6 := foc_same_data fr Eξ fo.
case: (GMM_moments_cases wf6 Em) => [[_ _ ->] //|[δf [_ _ ->]]].
move=> ξ' [<-].
exact: (spec_ξ_foc δf wf6).
Qed.

(** X1. On every object a run can reach, the stored residual [ξ], when there
    is one, satisfies the first-order condition noted in the source
    ("θ1 from FOC"): [x1'Z (Z'Z)^-1 Z'ξ = 0]. *)
Theorem X1_residual_orthogonal (d : data) (st : BLP) (ξ' : 'cV[F]_nobs) :
  reachable d st -> ξ st = Some ξ' ->
  (x1 st)^T *m Z st *m invmx ((Z st)^T *m Z st) *m (Z st)^T *m ξ' = 0.
Proof.
move=> reach; move: ξ'; rewrite -/(spec_W st) -/(foc st).
elim: reach => {st} [st E|st fuel c r st' reach fo Eg|st c r st' _ fo
                    |st v r st' _ fo Ev].
- by have [_ _ _ _ [_ _ _ _ [_ _ _ Eξ]]] := init_attrs E; move=> ξ'; rewrite Eξ.
- exact: GMM_foc (reachable_wf reach) fo Eg.
- by case=> _ <-.
- have [Eξ _] := cal_varcov_ξ Ev.
  exact: foc_same_data (cal_varcov_data Ev) Eξ fo.
Qed.

(** The quadratic form is a sum of squares. *)
Lemma spec_objective_ge0 st δf : wf st -> 0 <= spec_objective st δf.
Proof.
case=> chol _ _ _; have LU := cholesky_unit chol.
case: chol => _ _ EW; rewrite /spec_objective /spec_W -EW.
rewrite invmxM ?unitmx_tr // -trmx_inv.
set q := (Z st)^T *m spec_ξ st δf.
have -> : (spec_ξ st δf)^T *m Z st = q^T by rewrite trmx_mul trmxK.
rewrite -!mulmxA -/q [_ *m (_ *m q)]mulmxA [q^T *m _]mulmxA.
exact: gram_ge0.
Qed.

Lemma c_1e10_ge0 : 0 <= c_1e10.
Proof. by rewrite /c_1e10 exprn_ge0 // /ten ler0n. Qed.

(** X2. A value returned by [GMM] is never negative. *)
Theorem X2_objective_nonnegative (fuel : nat) (st st' : BLP)
    (θ_cand : ndarray) (g : F) :
  wf st -> GMM fuel st θ_cand = Done (Ok g, st') -> 0 <= g.
Proof.
move=> wf_st /GMM_shape [[_ //]|[st6 [fr _ _ Em]]].
have wf6 := same_data_wf fr wf_st.
case: (GMM_moments_cases wf6 Em) => [[_ [->] _]|[δf [_ [->] _]]].
  exact: c_1e10_ge0.
exact: spec_objective_ge0.
Qed.

Lemma spec_θ1_fit st β : wf st -> spec_θ1 st (x1 st *m β) = β.
Proof.
by move=> /wf_unit U; rewrite /spec_θ1 [_ *m (x1 st *m β)]mulmxA mulKmx.
Qed.

(** X3. When the mean utilities are an exact linear combination [x1 β] of
    the regressors, the linear step recovers [β], the residual is zero and
    the objective is 0. *)
Theorem X3_exact_linear_fit (fuel : nat) (st : BLP) (θ_cand : ndarray)
    (T T' : θ_shape) (β : 'cV[F]_nx1) (st4 : BLP) :
  wf st ->
  θ_at_call st θ_cand = Some T ->
  GMM_assign T (mask_of st T) θ_cand = Ok T' ->
  cal_δ fuel (GMM_entry st T T') T' = Done (Ok (of_fin (x1 st *m β)), st4) ->
  exists st',
    [/\ GMM fuel st θ_cand = Done (Ok 0, st'),
        θ1 st' = Some β & ξ st' = Some 0].
Proof.
move=> wf_st Eθ Ea Eδ.
have [fr EG] := GMM_returns wf_st Eθ Ea Eδ.
have [_ Eθ1 Eξ _] := same_data_spec (x1 st *m β) fr.
have ξ0 : spec_ξ st (x1 st *m β) = 0.
  by rewrite /spec_ξ spec_θ1_fit // subrr.
have obj0 : spec_objective st (x1 st *m β) = 0.
  by rewrite /spec_objective ξ0 mulmx0 mxE.
exists (GMM_exit (set_δ st4 (of_fin (x1 st *m β))) (x1 st *m β)); split.
- by rewrite EG obj0.
- by rewrite /= Eθ1 spec_θ1_fit.
- by rewrite /= Eξ ξ0.
Qed.

(** *** The adaptive tolerance and the stored objective *)

Lemma ten_ge1 : 1 <= ten.
Proof. by rewrite /ten ler1n. Qed.

Lemma ten_inv_pow_le (k l : nat) : (k <= l)%N -> ten ^- l <= ten ^- k.
Proof.
move=> le_kl; have t0 : 0 < ten by rewrite /ten ltr0n.
rewrite lef_pV2 ?posrE ?exprn_gt0 //.
exact: (ler_weXn2l ten_ge1 le_kl).
Qed.

Lemma adaptive_etol_values (g : F) :
  [\/ adaptive_etol g = c_1e_13, adaptive_etol g = c_1e_12
    | adaptive_etol g = c_1e_9].
Proof.
rewrite /adaptive_etol; case: ifP => _; first by constructor 1.
by case: ifP => _; [constructor 2 | constructor 3].
Qed.

Lemma adaptive_etol_mono (g g' : F) :
  g <= g' -> adaptive_etol g <= adaptive_etol g'.
Proof.
move=> le_g; rewrite /adaptive_etol.
have le63 : c_1e_6 <= c_1e_3 by apply: ten_inv_pow_le.
case: (ltP g c_1e_6) => [lt6|ge6].
  case: ifP => _ //; case: ifP => _; exact: ten_inv_pow_le.
have -> : (g' < c_1e_6) = false.
  by apply/negbTE; rewrite -leNgt; exact: le_trans ge6 le_g.
case: (ltP g c_1e_3) => [lt3|ge3].
  by case: ifP => _ //; exact: ten_inv_pow_le.
have -> // : (g' < c_1e_3) = false.
by apply/negbTE; rewrite -leNgt; exact: le_trans ge3 le_g.
Qed.

(** X4. The tolerance [GMM] hands to the contraction mapping is 1e-13,
    1e-12 or 1e-9, it is the one stored in [etol] when the call returns, and
    it never loosens when the last change of the objective shrinks. *)
Theorem X4_adaptive_tolerance (fuel : nat) (st st' : BLP) (θ_cand : ndarray)
    (T T' : θ_shape) (r : result F) :
  θ_at_call st θ_cand = Some T ->
  GMM_assign T (mask_of st T) θ_cand = Ok T' ->
  GMM fuel st θ_cand = Done (r, st') ->
  [/\ etol st' = adaptive_etol (GMM_diff st),
      [\/ etol st' = c_1e_13, etol st' = c_1e_12 | etol st' = c_1e_9]
    & forall g, GMM_diff st <= g -> etol st' <= adaptive_etol g].
Proof.
move=> Eθ Ea; rewrite GMM_E Eθ Ea /cal_δ.
case E: (cal_δ_loop _ _ _) => [[[δ'|e] st4]|] // Em.
  have [_ _ [Ee _ _ _ _] _] := cal_δ_loop_frame E.
  have Ee' : etol st' = adaptive_etol (GMM_diff st).
    move: Em; rewrite /GMM_moments; case: (all_fin δ') => [δf|]; last first.
      by case=> _ <-.
    by case: (solve _ _) => [t1|e] [_ <-].
  split; [exact: Ee' | rewrite Ee'; exact: adaptive_etol_values |].
  by move=> g le_g; rewrite Ee'; exact: adaptive_etol_mono.
have [_ _ [Ee _ _ _ _] _] := cal_δ_loop_frame E.
case: Em => _ <-.
split; [exact: Ee | rewrite Ee; exact: adaptive_etol_values |].
by move=> g le_g; rewrite Ee; exact: adaptive_etol_mono.
Qed.

(** X5. The value [GMM] computes from a NaN-free [δ] is stored in [GMM_old]
    and its distance to the previous one in [GMM_diff]; the sentinel 1e+10,
    returned for a [δ] holding a NaN, is not recorded: [GMM_old] and
    [GMM_diff] stay as they were. *)
Theorem X5_objective_bookkeeping (fuel : nat) (st st' : BLP)
    (θ_cand : ndarray) (g : F) :
  wf st -> GMM fuel st θ_cand = Done (Ok g, st') ->
  [/\ has_nan (δ st'), g = c_1e10, GMM_old st' = GMM_old st
    & GMM_diff st' = GMM_diff st] \/
  [/\ ~~ has_nan (δ st'), GMM_old st' = g
    & GMM_diff st' = `|GMM_old st - g|].
Proof.
move=> wf_st /GMM_shape [[_ //]|[st6 [fr _ [Eo Ed] Em]]].
have wf6 := same_data_wf fr wf_st.
case: (GMM_moments_cases wf6 Em) => [[nan [->] ->]|[δf [Eδ [->] ->]]].
  by left.
right; split=> //=; last by rewrite Eo.
by rewrite Eδ has_nan_of_fin.
Qed.

(** *** Writing a candidate through the mask *)

(** The masked entries of a matrix, in the order of the mask:
    [θ.T[ix_θ_T]]. *)
Definition getitem_T (T : θ_shape) (ix : seq θ_T_index) : seq F :=
  [seq T p.2 p.1 | p <- ix].

Lemma np_nonzero_T_uniq T : uniq (np_nonzero_T T).
Proof.
apply: filter_uniq; apply: allpairs_uniq; rewrite ?enum_uniq //.
by move=> [a b] [a' b'] _ _.
Qed.

Lemma upd_T_same (T : θ_shape) p x : upd_T T p x p.2 p.1 = x.
Proof. by rewrite mxE !eqxx. Qed.

Lemma foldl_upd_T_read (ps : seq (θ_T_index * F)) (T : θ_shape) :
  uniq (unzip1 ps) ->
  [seq foldl (fun M pv => upd_T M pv.1 pv.2) T ps p.2 p.1 | p <- unzip1 ps]
  = unzip2 ps.
Proof.
elim: ps T => [|[p x] ps IH] T //= /andP[nin un].
rewrite IH //; congr (_ :: _).
by case: p nin => a b nin; rewrite foldl_upd_T_outside //= upd_T_same.
Qed.

Lemma setitem_T_read T ix vals T' :
  uniq ix -> size vals = size ix -> setitem_T T ix vals = Ok T' ->
  getitem_T T' ix = vals.
Proof.
move=> un Es; rewrite /setitem_T Es eqxx => -[<-].
have := @foldl_upd_T_read (zip ix vals) T.
by rewrite /getitem_T unzip1_zip ?Es // unzip2_zip ?Es // => ->.
Qed.

Lemma foldl_upd_T_const_read (ix : seq θ_T_index) x (T : θ_shape) p :
  p \in ix -> foldl (fun M q => upd_T M q x) T ix p.2 p.1 = x.
Proof.
case: p => a b; elim: ix T => [|q ix IH] T //=; rewrite inE.
case pin: ((a, b) \in ix); first by move=> _; exact: IH.
rewrite orbF => /eqP <-.
by rewrite foldl_upd_T_const_outside ?pin // (upd_T_same T (a, b)).
Qed.

Lemma foldl_upd_T_own (ix : seq θ_T_index) (T : θ_shape) :
  foldl (fun M pv => upd_T M pv.1 pv.2) T (zip ix (getitem_T T ix)) = T.
Proof.
have own : forall (M : θ_shape) p, upd_T M p (M p.2 p.1) = M.
  move=> M [a b]; apply/matrixP => i j; rewrite mxE /=.
  by case: ifP => // /andP[/eqP -> /eqP ->].
suff gen : forall M, M = T ->
    foldl (fun M pv => upd_T M pv.1 pv.2) M (zip ix (getitem_T T ix)) = T.
  exact: gen.
elim: ix => [|p ix IH] M EM //=.
by apply: IH; rewrite EM own.
Qed.

(** X6. A vectorized call of [GMM] whose candidate has the length of the
    mask stores the candidate in the masked entries of [θ], in the order of
    the mask: reading [θ.T[ix_θ_T]] after the call gives the candidate
    back. *)
Theorem X6_candidate_stored (fuel : nat) (st st' : BLP) (vals : seq F)
    (T : θ_shape) (ix : seq θ_T_index) (r : result F) :
  θ st = Some T -> ix_θ_T st = Some ix -> uniq ix -> size vals = size ix ->
  GMM fuel st (Vec vals) = Done (r, st') ->
  exists2 T', θ st' = Some T' & getitem_T T' ix = vals.
Proof.
move=> Eθ Eix un Es /GMM_mask; rewrite /θ_at_call /mask_of Eθ Eix /=.
case=> _; case Ea: (setitem_T T ix vals) => [T'|e] /= ET.
  by exists T' => //; exact: setitem_T_read Ea.
by move: Ea; rewrite /setitem_T Es eqxx.
Qed.

(** X7. A candidate of length one is broadcast: when the mask has another
    length, every masked entry receives the single value. *)
Theorem X7_single_value_broadcast (fuel : nat) (st st' : BLP) (x : F)
    (T : θ_shape) (ix : seq θ_T_index) (r : result F) :
  θ st = Some T -> ix_θ_T st = Some ix -> size ix != 1%N ->
  GMM fuel st (Vec [:: x]) = Done (r, st') ->
  exists2 T', θ st' = Some T' &
    forall p, T' p.2 p.1 = if p \in ix then x else T p.2 p.1.
Proof.
move=> Eθ Eix ne1 /GMM_mask; rewrite /θ_at_call /mask_of Eθ Eix /=.
case=> _; rewrite /setitem_T /= eq_sym (negbTE ne1) /= => ET.
eexists; first exact: ET.
move=> p; case: ifP => [pin|nin]; first exact: foldl_upd_T_const_read.
by case: p nin => a b nin; rewrite foldl_upd_T_const_outside ?nin.
Qed.

(** X8. A candidate whose length is neither that of the mask nor one makes
    the vectorized call raise [ValueError] before the contraction mapping
    runs; [θ], [δ] and the stored objective are as before. *)
Theorem X8_wrong_length_raises (fuel : nat) (st : BLP) (vals : seq F)
    (T : θ_shape) (ix : seq θ_T_index) :
  θ st = Some T -> ix_θ_T st = Some ix ->
  size vals != size ix -> size vals != 1%N ->
  GMM fuel st (Vec vals) = Done (Raise ValueError, st).
Proof.
move=> Eθ Eix ne ne1; rewrite GMM_E /θ_at_call /mask_of Eθ Eix /=.
rewrite /setitem_T (negbTE ne) (negbTE ne1); congr (Done (_, _)).
by case: st Eθ Eix => /= *; subst.
Qed.

(** X9. Writing back the masked entries of [θ] leaves [θ] as it is: the
    vectorized call with the candidate [θ.T[ix_θ_T]] does not change the
    parameter matrix. *)
Theorem X9_own_values_fixed (fuel : nat) (st st' : BLP)
    (T : θ_shape) (ix : seq θ_T_index) (r : result F) :
  θ st = Some T -> ix_θ_T st = Some ix ->
  GMM fuel st (Vec (getitem_T T ix)) = Done (r, st') ->
  θ st' = Some T.
Proof.
move=> Eθ Eix /GMM_mask; rewrite /θ_at_call /mask_of Eθ Eix /=.
case=> _ ->; congr Some.
by rewrite /setitem_T size_map eqxx /= foldl_upd_T_own.
Qed.

(** *** What the contraction mapping leaves behind *)

Lemma converged_true_pos tol (diff : 'cV[fl]_nobs) :
  converged tol diff = Ok true -> (0 < nobs)%N.
Proof.
by rewrite /converged /np_abs_max; case: posnP => // ->.
Qed.

(** X10. When [cal_δ] returns, the shares left in the buffer [s] match the
    observed shares: the differences [ln_s_jt - log(s)] are finite, each
    below [etol] in absolute value and below 1e-3 on average; the returned
    [δ] is the attribute [δ]. *)
Theorem X10_returned_shares_match (fuel : nat) (st st' : BLP)
    (μ : 'M[fl]_(nobs, nsimind)) (d : 'cV[fl]_nobs) :
  cal_δ_loop fuel st μ = Done (Ok d, st') ->
  [/\ δ st' = d, etol st' = etol st
    & criterion (etol st')
        (\col_j fsub (ln_s_jt st' j 0) (np_log (s st' j 0)))].
Proof.
elim: fuel st => [|fuel IH] st //=.
rewrite cal_δ_step_after; case: ifP => _ //.
case E: (converged _ _) => [[]|e] //; last first.
  by move/IH => [Ed Ee crit]; split.
case=> <- <-; split=> //.
apply/(convergedP _ _ (converged_true_pos E)).
rewrite -[X in converged _ X = _]/((cal_δ_diff st μ).2).
exact: E.
Qed.

Lemma cal_δ_loop_returns_δ fuel st μ d st' :
  cal_δ_loop fuel st μ = Done (Ok d, st') -> δ st' = d.
Proof.
elim: fuel st => [|fuel IH] st //=.
by case: (cal_δ_step st μ) => [st1|st1|e st1] //; [exact: IH | case=> <- <-].
Qed.

Lemma fadd_fin (x y : fl) : ~~ isnan x -> ~~ isnan y -> ~~ isnan (fadd x y).
Proof. by case: x y => [a|] [b|]. Qed.

Lemma cal_δ_loop_no_nan fuel st μ r st' :
  ~~ has_nan (δ st) -> cal_δ_loop fuel st μ = Done (r, st') ->
  ~~ has_nan (δ st').
Proof.
elim: fuel st => [|fuel IH] st //= fin.
have fin' : ~~ has_nan (cal_δ_diff st μ).2 -> ~~ has_nan (δ (after_pass st μ)).
  move=> /has_nanPn find; apply/has_nanPn => j k; rewrite δ_after_pass mxE.
  by apply: fadd_fin; [exact: (has_nanPn _ fin) | exact: find].
rewrite cal_δ_step_after; case: ifPn => [_ [_ <-] //|/fin' fin2].
case: (converged _ _) => [[]|e]; [by case=> _ <- | exact: IH | by case=> _ <-].
Qed.

(** X11. [cal_δ] tests the differences before it adds them, so, with
    floats that are a field element or NaN (no infinities, as everywhere in
    this development), it never puts a NaN into [δ]: on an object whose [δ]
    holds no NaN, the [δ] left by a call of [GMM] holds none, and a value
    returned by [GMM] is the quadratic form of that [δ], never the sentinel
    of line 173. *)
Theorem X11_sentinel_unreached (fuel : nat) (st st' : BLP)
    (θ_cand : ndarray) (r : result F) :
  wf st -> ~~ has_nan (δ st) ->
  GMM fuel st θ_cand = Done (r, st') ->
  ~~ has_nan (δ st') /\
  forall g, r = Ok g ->
    exists2 δf, δ st' = of_fin δf & g = spec_objective st δf.
Proof.
move=> wf_st fin; rewrite GMM_E.
case: (θ_at_call _ _) => [T|]; last by case=> <- <-.
case: (GMM_assign _ _ _) => [T'|e]; last by case=> <- <-.
rewrite /cal_δ; case E: (cal_δ_loop _ _ _) => [[[δ'|e] st4]|] //; last first.
  by case=> <- <-; split=> //; exact: cal_δ_loop_no_nan E.
have fin4 : ~~ has_nan (δ st4) by exact: cal_δ_loop_no_nan E.
have Eδ := cal_δ_loop_returns_δ E.
move=> [Em].
have fr : same_data st (set_δ st4 δ').
  apply: same_data_trans (GMM_entry_data st T T') _.
  exact: (same_frame_data (cal_δ_loop_frame E)).
have wf6 := same_data_wf fr wf_st.
case: (GMM_moments_cases wf6 Em) => [[nan _ _]|[δf [Ed -> ->]]].
  by move: nan; rewrite -Eδ (negbTE fin4).
split; first by rewrite /= Ed has_nan_of_fin.
move=> g [<-]; exists δf => //.
by have [_ _ _ ->] := same_data_spec δf fr.
Qed.

(** *** Inside the Jacobian *)

(** A sum over the observations is a sum over the markets of sums over the
    products of the market. *)
Lemma sum_by_market (P : pred 'I_nobs) (G : 'I_nobs -> F) :
  \sum_(j < nobs | P j) G j =
  \sum_(m < nmkt) \sum_(r < nbrand | P (flat m r)) G (flat m r).
Proof.
rewrite pair_big_dep /=.
rewrite (reindex (fun p : 'I_nmkt * 'I_nbrand => flat p.1 p.2)) //=.
exists (fun c => (fdiv c, fmod c)) => [[m r]|c] _ /=.
  by rewrite fdiv_flat fmod_flat.
exact: flat_divmod.
Qed.

(** A row is at or before the last row of market [m] exactly when it
    belongs to a market up to [m]. *)
Lemma le_cdindex (m' : 'I_nmkt) (r : 'I_nbrand) (m : nat) :
  (flat m' r <= cdindex m)%N = (m' <= m)%N.
Proof.
have b0 : (0 < nbrand)%N by exact: leq_ltn_trans (ltn_ord r).
rewrite /cdindex subn1 -ltnS prednK ?muln_gt0 ?b0 //.
rewrite [(nbrand * m.+1)%N]mulnC -ltn_divLR //=.
by rewrite divnMDl // divn_small // addn0 ltnS.
Qed.

Lemma cumsum_rows_cdindex (M : 'M[F]_(nobs, nsimind)) (m : nat) i :
  cumsum_rows M (cdindex m) i =
  \sum_(m' < nmkt | (m' <= m)%N) \sum_(r < nbrand) M (flat m' r) i.
Proof.
rewrite /cumsum_rows sum_by_market [RHS]big_mkcond /=.
apply: eq_bigr => m' _; case: ifP => le_m.
  by apply: eq_bigl => r; rewrite le_cdindex.
by rewrite big_pred0 // => r; rewrite le_cdindex.
Qed.

(** The difference of cumulative sums at the last rows of two consecutive
    markets is the sum over the rows of the market. *)
Lemma sum1_market (M : 'M[F]_(nobs, nsimind)) (m : 'I_nmkt) i :
  sum1 (cumsum_rows M) m i = \sum_(r < nbrand) M (flat m r) i.
Proof.
rewrite /sum1; case Em: (m : nat) => [|m0].
  rewrite cumsum_rows_cdindex (bigD1 m) /=; first by rewrite Em.
  rewrite [X in _ + X]big1 ?addr0 // => k /andP[le0 /negP ne]; case: ne.
  by apply/eqP/val_inj; rewrite /= Em; apply/eqP; rewrite -leqn0.
rewrite !cumsum_rows_cdindex (bigD1 m) /=; first by rewrite Em.
rewrite (eq_bigl (fun k : 'I_nmkt => (k <= m0)%N)); last by rewrite addrK.
move=> k; rewrite -val_eqE /= Em.
by rewrite -(ltnS k m0) [RHS]ltn_neqAle andbC.
Qed.

(** X12. The cumulative-sum code of [cal_jacobian] computes, for each
    column of [f1], the draw-averaged share-weighted characteristic of the
    product minus its share-weighted total over the product's own market:
    no row of another market enters. *)
Theorem X12_partial_share_within_market (st : BLP)
    (P : 'M[F]_(nobs, nsimind)) (a : 'I_(1 + nD)) (k : 'I_nx2) (j : 'I_nobs) :
  partial_share st P a k j 0 =
  (\sum_i P j i *
     (x2 st j k * weight st a k j i
      - \sum_(r < nbrand)
          x2 st (flat (cdid j) r) k * weight st a k (flat (cdid j) r) i
          * P (flat (cdid j) r) i))
  / nsimind%:R.
Proof.
rewrite /partial_share mxE; congr (_ / _).
apply: eq_bigr => i _; rewrite mxE sum1_market; congr (_ * (_ - _)).
by apply: eq_bigr => r _; rewrite !mxE.
Qed.

(** X13. Each market's [H] is a symmetric matrix. *)
Theorem X13_H_symmetric (P : 'M[F]_(nobs, nsimind)) (m : 'I_nmkt) :
  (H P m)^T = H P m.
Proof.
apply/matrixP => r r'; rewrite mxE !H_entry eq_sym; congr (_ * (_ - _)).
  by case: eqP => [->|].
by apply: eq_bigr => i _; rewrite mulrC.
Qed.

(** X14. With finite choice probabilities, [cal_jacobian] returns a matrix
    exactly when the [H] of every market is invertible, and raises
    [LinAlgError], with no partial result, exactly when the [H] of some
    market is singular. *)
Theorem X14_jacobian_singular_market (st : BLP) (T : θ_shape)
    (P : 'M[F]_(nobs, nsimind)) :
  all_fin (ind_choice_prob st T) = Some P ->
  ((exists J, cal_jacobian st T = Ok J) <-> forall m, H P m \in unitmx) /\
  (cal_jacobian st T = Raise LinAlgError <-> exists m, H P m \notin unitmx).
Proof.
move=> EP.
have ok m : is_ok (market_solve st P T m) = (H P m \in unitmx).
  by rewrite /market_solve /solve; case: ifP.
rewrite /cal_jacobian EP; case: ifPn => [/forallP all_ok|].
  split; split=> //; first by move=> _ m; rewrite -ok.
    by move=> _; eexists.
  by case=> m; rewrite -ok all_ok.
rewrite negb_forall => /existsP[m]; rewrite ok => sing.
split; split=> //; first by case.
  by move/(_ m); rewrite (negbTE sing).
by move=> _; exists m.
Qed.


(** *** What [__init__] builds *)

(** The matrix of the generalized least squares step, as [__init__] and
    [GMM] compute it against the Cholesky factor, with an explicit
    inverse. *)
Lemma init_gls_matrix (L : 'M[F]_nZ) (Z0 : 'M[F]_(nobs, nZ))
    (X : 'M[F]_(nobs, nx1)) :
  is_cholesky (Z0^T *m Z0) L ->
  (Z0^T *m X)^T *m cho_solve L (Z0^T *m X) =
  X^T *m Z0 *m invmx (Z0^T *m Z0) *m Z0^T *m X.
Proof. by move=> chol; rewrite (cho_solveE _ chol) trmx_mul trmxK !mulmxA. Qed.


(** X16. The object [__init__] builds starts the contraction mapping at the
    fit of the logit without random coefficients: [y] is
    [log s_jt - log s_0t] with [s_0t] one minus the shares of the market,
    and, when [y] holds no NaN, [δ] is [x1] times the generalized least
    squares estimate computed from [y]; the share buffer [s] is zero. *)
Theorem X16_initial_mean_utility (d : data) (st : BLP) (yf : 'cV[F]_nobs) :
  __init__ d = Ok st -> all_fin (y st) = Some yf ->
  [/\ forall j, y st j 0 =
        fsub (np_log (Fin (s_jt st j 0)))
             (np_log (Fin (1 - \sum_(r < nbrand) s_jt st (flat (cdid j) r) 0))),
      δ st = of_fin (x1 st *m spec_θ1 st yf)
    & s st = const_mx (Fin 0)].
Proof.
rewrite /__init__; case EL: (cholesky _) => [L|e] //=.
have chol := cholesky_spec EL.
rewrite /cho_solve_fl; case EB: (all_fin _) => [B|] //=.
rewrite /solve; case: ifP => //= U [<-] /= Ey; split=> //.
  by move=> j; rewrite !mxE.
move: EB; rewrite /nan_lift Ey all_fin_of_fin => -[<-].
congr (of_fin (_ *m _)).
by rewrite /spec_θ1 /spec_W /= !(cho_solveE _ chol) trmx_mul trmxK !mulmxA.
Qed.

(** *** Attributes across calls *)

Lemma init_data (d : data) (st : BLP) :
  __init__ d = Ok st ->
  [/\ [/\ s_jt st = data_s_jt d, v st = data_v d, D st = data_D d,
          x1 st = data_x1 d & x2 st = data_x2 d],
      Z st = data_Z d, Z_x1 st = (data_Z d)^T *m data_x1 d
    & iter_limit st = 200].
Proof.
rewrite /__init__; case EL: (cholesky _) => [L|e] //=.
case: (cho_solve_fl _ _) => [B|e] //=.
by rewrite /solve; case: ifP => //= U [<-].
Qed.

(** X17. The attributes that hold the data are assigned once: on every
    object a run can reach they are those of the argument of [__init__],
    [LinvW] is the Cholesky factor [__init__] computed from [Z'Z],
    [Z_x1] is [Z'x1] and [iter_limit] is 200. *)
Theorem X17_data_assigned_once (d : data) (st : BLP) :
  reachable d st ->
  [/\ [/\ s_jt st = data_s_jt d, v st = data_v d, D st = data_D d,
          x1 st = data_x1 d & x2 st = data_x2 d],
      Z st = data_Z d /\ Z_x1 st = (data_Z d)^T *m data_x1 d,
      cholesky ((data_Z d)^T *m data_Z d) = Ok (LinvW st)
    & iter_limit st = 200].
Proof.
case/reachable_data=> st0 E0.
have [[Es Ev ED Ex1 Ex2] EZ EZx Ei] := init_data E0.
have [EL _ _ _ _] := init_attrs E0.
case=> [[-> _ -> -> ->] [-> -> -> -> ->] _].
by split.
Qed.

(** The order in which the attributes come to hold a value. *)
Definition attrs_ordered (st : BLP) : Prop :=
  [/\ (θ1 st : bool) = ξ st, ξ st -> ix_θ_T st, ix_θ_T st -> θ st
    & forall ix, ix_θ_T st = Some ix ->
        uniq ix /\ exists T0, ix = np_nonzero_T T0].

Lemma GMM_moments_pair st d :
  (θ1 st : bool) = ξ st ->
  (θ1 (GMM_moments st d).2 : bool) = ξ (GMM_moments st d).2.
Proof.
rewrite /GMM_moments; case: (all_fin d) => [δf|] //.
by case: (solve _ _).
Qed.

Lemma GMM_attrs fuel st θ_cand r st' :
  attrs_ordered st -> GMM fuel st θ_cand = Done (r, st') -> attrs_ordered st'.
Proof.
move=> ord Eg; have := GMM_mask Eg.
case Eθ: (θ_at_call st θ_cand) => [T|]; last by move->.
case: ord => pair _ _ mask [Eix ET].
have pair' : (θ1 st' : bool) = ξ st'.
  case/GMM_shape: Eg => [[_ _ [-> ->] _] //|[st6 [_ [E1 Eξ] _ Em]]].
  move: (@GMM_moments_pair st6 (δ st6)); rewrite Em /= E1 Eξ.
  exact.
split=> //; rewrite ?Eix ?ET // => ix [<-].
rewrite /mask_of; case E: (ix_θ_T st) => [ix0|]; first exact: mask.
by split; [exact: np_nonzero_T_uniq | exists T].
Qed.

Lemma cal_varcov_attrs st θ_vec r st' :
  attrs_ordered st -> cal_varcov st θ_vec = (r, st') -> attrs_ordered st'.
Proof.
move=> ord; rewrite /cal_varcov; case: (ξ st) => [ξ'|]; last by case=> _ <-.
case: (θ st) => [T|]; last by case=> _ <-.
case: (match ix_θ_T st with Some _ => _ | None => _ end) => [T'|e].
  by case: ord => pair res mask nz [_ <-].
by case=> _ <-.
Qed.

(** X18. On every object a run can reach the attributes come to hold a value
    in a fixed order: [θ1] and [ξ] together, only once a mask is stored; a
    mask only once [θ] holds a matrix; and a stored mask lists, without
    repetition, the nonzero pattern of some matrix.  So [cal_varcov] never
    meets a residual without a mask to write the candidate through. *)
Theorem X18_attributes_in_order (d : data) (st : BLP) :
  reachable d st ->
  [/\ (θ1 st : bool) = ξ st, ξ st -> ix_θ_T st, ix_θ_T st -> θ st
    & forall ix, ix_θ_T st = Some ix ->
        uniq ix /\ exists T0, ix = np_nonzero_T T0].
Proof.
rewrite -/(attrs_ordered st).
elim=> {st} [st E|st fuel c r st' _ ord Eg|st c r st' _ ord|st v0 r st' _ ord Ev].
- have [_ _ _ _ [_ _ _ _ [Eθ Eix E1 Eξ]]] := init_attrs E.
  by split; rewrite ?E1 ?Eξ ?Eix.
- exact: GMM_attrs ord Eg.
- by case=> _ <-.
- exact: cal_varcov_attrs ord Ev.
Qed.

(** X19. [cal_varcov] writes its argument into [θ] before anything else and
    keeps it there whether it then returns a matrix or raises: the masked
    entries of [θ] hold the argument, the others are as before, and no
    other attribute changes. *)
Theorem X19_varcov_overwrites_theta (st st' : BLP) (θ_vec : seq F)
    (ξ' : 'cV[F]_nobs) (T : θ_shape) (ix : seq θ_T_index)
    (r : result np_square) :
  ξ st = Some ξ' -> θ st = Some T -> ix_θ_T st = Some ix ->
  uniq ix -> size θ_vec = size ix ->
  cal_varcov st θ_vec = (r, st') ->
  exists T',
    [/\ st' = set_θ st (Some T'), getitem_T T' ix = θ_vec
      & forall a b, (a, b) \notin ix -> T' b a = T b a].
Proof.
move=> Eξ Eθ Eix un Es; rewrite /cal_varcov Eξ Eθ Eix.
case Ea: (setitem_T T ix θ_vec) => [T'|e]; last first.
  by move: Ea; rewrite /setitem_T Es eqxx.
case=> _ <-; exists T'; split=> //; first exact: setitem_T_read Ea.
by move=> a b nin; exact: setitem_T_outside Ea nin.
Qed.


(** *** [cal_se] *)

(** [np.sqrt], with NaN on a negative argument. *)
Variable np_sqrt : F -> fl.

(** [np.sqrt(varcov.diagonal())]. *)
Definition se_all (varcov : np_square) : seq fl :=
  [seq np_sqrt (projT2 varcov i i) | i <- enum 'I_(projT1 varcov)].

(** [a[-n:]]: the last [n] elements of [a]; all of [a] when [n] exceeds its
    length, and also when [n] is 0, the slice being [a[0:]] then. *)
Definition last_n A (n : nat) (a : seq A) : seq A :=
  if n is 0 then a else drop (size a - n) a.

(** [se.T[a, b] = x] and [se.T[ix] = vals] on the floating-point matrix
    [se]. *)
Definition upd_se (M : 'M[fl]_(nx2, 1 + nD)) (p : θ_T_index) (x : fl) :
    'M[fl]_(nx2, 1 + nD) :=
  \matrix_(b, a) if (a == p.1) && (b == p.2) then x else M b a.

Definition setitem_se (M : 'M[fl]_(nx2, 1 + nD)) (ix : seq θ_T_index)
    (vals : seq fl) : result 'M[fl]_(nx2, 1 + nD) :=
  if size vals == size ix then
    Ok (foldl (fun M pv => upd_se M pv.1 pv.2) M (zip ix vals))
  else if size vals == 1%N then
    Ok (foldl (fun M p => upd_se M p (head (Fin 0) vals)) M ix)
  else Raise ValueError.

(** Lines 245-250, on an object whose [θ] holds a matrix and whose mask is
    [ix]; of [θ] only the shape is used. *)
Definition cal_se (ix : seq θ_T_index) (varcov : np_square) :
    result 'M[fl]_(nx2, 1 + nD) :=
  let se_all := se_all varcov in
  let se : 'M[fl]_(nx2, 1 + nD) := const_mx (Fin 0) in
  setitem_se se ix (last_n (size ix) se_all).

Lemma foldl_upd_se_outside (ps : seq (θ_T_index * fl)) M a b :
  (a, b) \notin unzip1 ps ->
  foldl (fun M pv => upd_se M pv.1 pv.2) M ps b a = M b a.
Proof.
elim: ps M => [|[p x] ps IH] M //=.
rewrite inE negb_or => /andP[ne nin]; rewrite IH // mxE.
by case: p ne => a' b'; rewrite xpair_eqE => /negbTE ->.
Qed.

Lemma foldl_upd_se_read (ps : seq (θ_T_index * fl)) M :
  uniq (unzip1 ps) ->
  [seq foldl (fun M pv => upd_se M pv.1 pv.2) M ps p.2 p.1 | p <- unzip1 ps]
  = unzip2 ps.
Proof.
elim: ps M => [|[p x] ps IH] M //= /andP[nin un].
rewrite IH //; congr (_ :: _).
by case: p nin => a b nin; rewrite foldl_upd_se_outside //= mxE !eqxx.
Qed.

Lemma size_last_n A (n : nat) (a : seq A) :
  size (last_n n a) = if n is 0 then size a else minn n (size a).
Proof.
case: n => [|n] //=; rewrite size_drop.
case: (leqP n.+1 (size a)) => [le|/ltnW lt]; first by rewrite subKn.
by move: (lt); rewrite -subn_eq0 => /eqP ->; rewrite subn0.
Qed.

Lemma size_last_nS A (n : nat) (a : seq A) :
  size (last_n n.+1 a) = minn n.+1 (size a).
Proof. exact: size_last_n. Qed.

Lemma size_se_all varcov : size (se_all varcov) = projT1 varcov.
Proof. by rewrite size_map size_enum_ord. Qed.

(** X20. For a mask of [n] entries, [0 < n], and a [varcov] of at least
    [n] rows, [cal_se] returns the matrix that is zero outside the mask and
    holds, at the masked entries in the order of the mask, the square roots
    of the last [n] diagonal entries of [varcov]. *)
Theorem X20_se_layout (ix : seq θ_T_index) (varcov : np_square) :
  uniq ix -> (0 < size ix <= projT1 varcov)%N ->
  exists se,
    [/\ cal_se ix varcov = Ok se,
        [seq se p.2 p.1 | p <- ix] =
        [seq np_sqrt (projT2 varcov i i)
        | i <- drop (projT1 varcov - size ix) (enum 'I_(projT1 varcov))]
      & forall a b, (a, b) \notin ix -> se b a = Fin 0].
Proof.
move=> un /andP[n0 le_n].
have Es : size (last_n (size ix) (se_all varcov)) = size ix.
  rewrite size_last_n size_se_all; case: (size ix) n0 le_n => // n _ le_n.
  by apply/minn_idPl.
have El : last_n (size ix) (se_all varcov) =
          [seq np_sqrt (projT2 varcov i i)
          | i <- drop (projT1 varcov - size ix) (enum 'I_(projT1 varcov))].
  rewrite /last_n; case: (size ix) n0 => // n _.
  by rewrite size_se_all /se_all map_drop.
rewrite /cal_se /setitem_se Es eqxx; eexists; split; first by [].
  have := @foldl_upd_se_read (zip ix (last_n (size ix) (se_all varcov)))
            (const_mx (Fin 0)).
  by rewrite unzip1_zip ?Es // unzip2_zip ?Es // El; apply.
move=> a b nin; rewrite foldl_upd_se_outside ?mxE //.
by rewrite unzip1_zip ?Es.
Qed.

(** X21. [cal_se] raises [ValueError] exactly when the mask is empty and
    [varcov] has two rows or more (the slice [se_all[-0:]] is then the whole
    of [se_all]), or when the mask is longer than [varcov] has rows and
    [varcov] has not exactly one row. *)
Theorem X21_se_raises_iff (ix : seq θ_T_index) (varcov : np_square) :
  cal_se ix varcov = Raise ValueError <->
  ((size ix == 0%N) && (1 < projT1 varcov)%N)
  || ((projT1 varcov < size ix)%N && (projT1 varcov != 1%N)).
Proof.
rewrite /cal_se /setitem_se.
case: varcov => k V; rewrite [projT1 _]/=; case: (size ix) => [|n].
  by rewrite [last_n _ _]/= size_se_all /=; case: k V => [|[|k]] V /=; split.
rewrite size_last_nS size_se_all [projT1 _]/=.
case: (leqP n.+1 k) => [le|lt].
  by rewrite eqxx; split.
rewrite (ltn_eqF lt).
by case: eqP => _; split.
Qed.

(** *** The start of [optimize] *)

(** [np.nonzero(θ0)]: the indices of the nonzero entries of [θ0], row by
    row of [θ0]. *)
Definition np_nonzero (θ0 : θ_shape) : seq ('I_nx2 * 'I_(1 + nD)) :=
  [seq p <- [seq (b, a) | b <- enum 'I_nx2, a <- enum 'I_(1 + nD)]
   | θ0 p.1 p.2 != 0].

(** Line 331: [θ0_vec = θ0[np.nonzero(θ0)]]. *)
Definition θ0_vec (θ0 : θ_shape) : seq F :=
  [seq θ0 p.1 p.2 | p <- np_nonzero θ0].

Lemma np_nonzero_mem θ0 p : (p \in np_nonzero θ0) = (θ0 p.1 p.2 != 0).
Proof.
rewrite /np_nonzero mem_filter andbC.
have -> : p \in [seq (b, a) | b <- enum 'I_nx2, a <- enum 'I_(1 + nD)].
  by case: p => b a; apply/allpairsP; exists (b, a); rewrite !mem_enum.
by [].
Qed.

Lemma np_nonzero_uniq θ0 : uniq (np_nonzero θ0).
Proof.
apply: filter_uniq; apply: allpairs_uniq; rewrite ?enum_uniq //.
by move=> [a b] [a' b'] _ _.
Qed.

(** Both orders list the same entries. *)
Lemma size_θ0_vec θ0 : size (θ0_vec θ0) = size (np_nonzero_T θ0).
Proof.
pose sw (p : 'I_nx2 * 'I_(1 + nD)) := (p.2, p.1).
have sw_inj : injective sw by move=> [b a] [b' a'] [-> ->].
rewrite size_map -(size_map sw); apply: perm_size; apply: uniq_perm.
- by rewrite (map_inj_uniq sw_inj) np_nonzero_uniq.
- exact: np_nonzero_T_uniq.
- move=> [a b]; rewrite np_nonzero_T_mem /=.
  by rewrite -[(a, b)]/(sw (b, a)) (mem_map sw_inj) np_nonzero_mem.
Qed.

(** X22. [optimize] stores [θ0] in [θ] and starts the search from the
    nonzero entries of [θ0] listed row by row, while [GMM] writes a vector
    through the mask [np.nonzero(θ.T)], which lists them column by column.
    An evaluation of the objective at the starting vector therefore leaves
    in [θ] the starting values in the order of the mask, and this is [θ0]
    exactly when the nonzero entries of [θ0] read the same in both
    orders. *)
Theorem X22_start_vector_order (fuel : nat) (st st' : BLP) (θ0 : θ_shape)
    (r : result F) :
  θ st = Some θ0 -> ix_θ_T st = None ->
  GMM fuel st (Vec (θ0_vec θ0)) = Done (r, st') ->
  exists T',
    [/\ θ st' = Some T', ix_θ_T st' = Some (np_nonzero_T θ0),
        getitem_T T' (np_nonzero_T θ0) = θ0_vec θ0
      & T' = θ0 <-> getitem_T θ0 (np_nonzero_T θ0) = θ0_vec θ0].
Proof.
move=> Eθ Eix /GMM_mask; rewrite /θ_at_call /mask_of Eθ Eix /=.
case=> Eix' ET.
case Ea: (setitem_T θ0 (np_nonzero_T θ0) (θ0_vec θ0)) ET => [T'|e] /= ET;
  last by move: Ea; rewrite /setitem_T size_θ0_vec eqxx.
have rd : getitem_T T' (np_nonzero_T θ0) = θ0_vec θ0.
  by apply: setitem_T_read Ea; [exact: np_nonzero_T_uniq | exact: size_θ0_vec].
exists T'; split; [exact: ET | exact: Eix' | exact: rd |].
split=> [ET0|Eown]; first by rewrite -{1}ET0.
move: Ea; rewrite -Eown /setitem_T size_map eqxx => -[<-].
exact: foldl_upd_T_own.
Qed.

End BLP.

(** ** A concrete market

    One market, one product, one simulated consumer, one characteristic in
    [x1], [x2] and [Z], one demographic variable, over the rationals.  The
    functions taken from outside are given small rational stand-ins: [exp]
    and [log] by their first-order expansions at 0 and 1 (with [log]
    undefined, NaN, on non-positive arguments), the share of the product as
    [e / (1 + e)] against an outside good of utility zero. *)

Section Market.

Local Notation fl := (np_float rat).
Local Notation blp := (BLP rat 1 1 1 1 1 1 1).

Definition np_exp_w (x : fl) : fl :=
  if x is Fin a then Fin (Num.max 0 (1 + a)) else NaN.

Definition np_log_w (x : fl) : fl :=
  if x is Fin a then (if 0 < a then Fin (a - 1) else NaN) else NaN.

Definition share_w (x : fl) : fl :=
  if x is Fin a then (if 1 + a == 0 then NaN else Fin (a / (1 + a))) else NaN.

Definition cal_mu_w (θ_v : 'cV[rat]_1) (θ_D : 'M[rat]_(1, 1))
    (v : 'M[rat]_(1, 1 * 1)) (D : 'M[rat]_(1, 1 * 1)) (x2 : 'M[rat]_(1 * 1, 1)) :
    'M[fl]_(1 * 1, 1) :=
  const_mx (Fin 0).

Definition cal_s_w (exp_Xb : 'M[fl]_(1 * 1, 1)) : 'cV[fl]_(1 * 1) :=
  \col_j share_w (exp_Xb j 0).

Definition cal_ind_choice_prob_w (exp_Xb : 'M[fl]_(1 * 1, 1)) : 'M[fl]_(1 * 1, 1) :=
  map_mx share_w exp_Xb.

(** The object for an observed share [sh], a stored mean utility [d], a
    tolerance [tol] and a parameter matrix and mask. *)
Definition market (sh d tol : rat) (t : option 'M[rat]_(1, 1 + 1))
    (ix : option (seq ('I_(1 + 1) * 'I_1))) (res : option 'cV[rat]_(1 * 1)) : blp :=
  @Build_BLP rat 1 1 1 1 1 1 1
    (const_mx sh) (map_mx np_log_w (of_fin (const_mx sh)))
    0 0 1%:M 1%:M 1%:M 1%:M 1%:M tol 200 0 1 (const_mx (1 - sh))
    (const_mx (fsub (np_log_w (Fin sh)) (np_log_w (Fin (1 - sh)))))
    (const_mx (Fin d)) (const_mx (Fin 0)) t ix None res.

Lemma market_wf sh d tol t ix res : wf np_log_w (market sh d tol t ix res).
Proof.
split=> //=.
- split; first exact: scalar_mx_is_trig.
    by move=> i; rewrite mxE eqxx.
  by rewrite trmx1 mulmx1.
- by rewrite trmx1 mulmx1.
- by rewrite /cho_solve /back_subst /forward_subst !trmx1 !invmx1 !mulmx1 unitmx1.
Qed.

Lemma ten_pow_gt0 (F : realFieldType) k : 0 < ten F ^- k.
Proof. by rewrite invr_gt0 exprn_gt0 // /ten ltr0n. Qed.

Lemma ten_pow_lt1 (F : realFieldType) k : ten F ^- k.+1 < 1.
Proof.
rewrite invf_lt1 ?exprn_gt0 ?ltr0n //.
by apply: exprn_egt1 => //; rewrite /ten ltr1n.
Qed.

Lemma adaptive_etol_gt0 (F : realFieldType) (g : F) : 0 < adaptive_etol g.
Proof.
rewrite /adaptive_etol; case: ifP => _; first exact: (ten_pow_gt0 F 13).
by case: ifP => _; [exact: (ten_pow_gt0 F 12) | exact: (ten_pow_gt0 F 9)].
Qed.

Lemma adaptive_etol_lt1 (F : realFieldType) (g : F) : adaptive_etol g < 1.
Proof.
rewrite /adaptive_etol; case: ifP => _; first exact: (ten_pow_lt1 F 12).
by case: ifP => _; [exact: (ten_pow_lt1 F 11) | exact: (ten_pow_lt1 F 8)].
Qed.

(** The draws are zero, so [μ] is zero. *)
Definition μ_w : 'M[fl]_(1 * 1, 1) := const_mx (Fin 0).

(** The difference vector of a pass, on an object with observed share [sh]
    and stored mean utility [d]. *)
Definition diff_w (sh d : rat) : fl :=
  fsub (np_log_w (Fin sh)) (np_log_w (share_w (np_exp_w (Fin (d + 0))))).

Lemma cal_δ_diff_w (st : blp) (sh d : rat) :
  ln_s_jt st = const_mx (np_log_w (Fin sh)) -> δ st = const_mx (Fin d) ->
  (cal_δ_diff np_exp_w np_log_w cal_s_w st μ_w).2 = const_mx (diff_w sh d).
Proof.
by move=> Eln Eδ; apply/matrixP => j k; rewrite /cal_δ_diff /= !mxE Eln Eδ !mxE.
Qed.

Lemma ln_s_jt_market sh d tol t ix res :
  ln_s_jt (market sh d tol t ix res) = const_mx (np_log_w (Fin sh)).
Proof. by apply/matrixP => j k; rewrite !mxE. Qed.

Lemma Fin_eq (a b : rat) : a == b -> Fin a = Fin b :> fl.
Proof. by move/eqP->. Qed.

(** At the observed share 1/2 and [δ = 0] the simulated share is the
    observed one. *)
Lemma diff_w_half : diff_w (1 / 2%:R) 0 = Fin 0.
Proof. by apply/eqP; vm_compute. Qed.

(** The object of the examples: observed share 1/2, [δ = 0]. *)
Definition st_w : blp := market (1 / 2%:R) 0 (c_1e_6 rat) None None None.

(** The hypotheses of C2 hold on the example, and the pass converges. *)
Lemma C2_witness :
  [/\ (0 < 1 * 1)%N,
      ln_s_jt st_w = map_mx np_log_w (of_fin (s_jt st_w))
    & exists st', cal_δ_step np_exp_w np_log_w cal_s_w st_w μ_w = Converged st'].
Proof.
have n0 : (0 < 1 * 1)%N by [].
have ln : ln_s_jt st_w = map_mx np_log_w (of_fin (s_jt st_w)) by [].
split; [exact: n0 | exact: ln |].
have [_ [_ conv] _ _] :=
  @C2_contraction_step rat 1 1 1 1 1 1 1 np_exp_w np_log_w cal_s_w st_w μ_w n0 ln.
apply: conv; exists 0; split.
- by apply/matrixP => j k; rewrite !mxE /=; apply/eqP; vm_compute.
- by move=> j; rewrite mxE normr0; exact: (ten_pow_gt0 rat 6).
- rewrite big1 => [j _|]; first by rewrite mxE normr0.
  by rewrite mul0r; exact: (ten_pow_gt0 rat 3).
Defined.

(** *** Evaluations of the objective on the example *)

Local Notation GMM_w := (GMM np_exp_w np_log_w cal_mu_w cal_s_w).
Local Notation cal_δ_w := (cal_δ np_exp_w np_log_w cal_mu_w cal_s_w).
Local Notation after_pass_w st := (after_pass np_exp_w np_log_w cal_s_w st μ_w).

(** A parameter matrix [[x, y]]. *)
Definition T_w (x y : rat) : 'M[rat]_(1, 1 + 1) :=
  \row_a (if a == 0 then x else y).

(** With share 1/2 and [δ = 0] the contraction mapping returns [δ = 0]
    after one pass, whatever the parameter matrix. *)
Lemma cal_δ_half (st : blp) (T : 'M[rat]_(1, 1 + 1)) :
  ln_s_jt st = const_mx (np_log_w (Fin (1 / 2%:R))) ->
  δ st = const_mx (Fin 0) -> 0 < etol st ->
  cal_δ_w 1 st T = Done (Ok (of_fin 0), after_pass_w st).
Proof.
move=> Eln Eδ tol0.
have Ed : (cal_δ_diff np_exp_w np_log_w cal_s_w st μ_w).2 = of_fin 0.
  rewrite (cal_δ_diff_w Eln Eδ) diff_w_half.
  by apply/matrixP => j k; rewrite !mxE.
have step : cal_δ_step np_exp_w np_log_w cal_s_w st μ_w
            = Converged (after_pass_w st).
  apply: (cal_δ_step_converged _ Ed); first by [].
    by move=> j; rewrite mxE normr0.
  rewrite big1 => [j _|]; first by rewrite mxE normr0.
  by rewrite mul0r; exact: (ten_pow_gt0 rat 3).
rewrite /cal_δ /= -/μ_w step; congr (Done (Ok _, _)).
apply/matrixP => j k; rewrite δ_after_pass Ed Eδ !mxE /=.
by apply: Fin_eq; rewrite addr0.
Qed.

Lemma GMM_half (st : blp) (θ_cand : ndarray rat 1 1) (T T' : 'M[rat]_(1, 1 + 1)) :
  wf np_log_w st ->
  ln_s_jt st = const_mx (np_log_w (Fin (1 / 2%:R))) ->
  δ st = const_mx (Fin 0) ->
  θ_at_call st θ_cand = Some T ->
  GMM_assign T (mask_of st T) θ_cand = Ok T' ->
  GMM_w 1 st θ_cand =
  Done (Ok (spec_objective st 0),
        GMM_exit (set_δ (after_pass_w (GMM_entry st T T')) (of_fin 0)) 0).
Proof.
move=> wf_st Eln Eδ Eθ Ea.
have Ec : cal_δ_w 1 (GMM_entry st T T') T'
          = Done (Ok (of_fin 0), after_pass_w (GMM_entry st T T')).
  apply: cal_δ_half; [exact: Eln | exact: Eδ | exact: adaptive_etol_gt0].
by have [_ ->] := GMM_returns wf_st Eθ Ea Ec.
Qed.

(** The hypotheses of C1 hold on the example, and [GMM] returns the
    quadratic form. *)
Lemma C1_witness :
  [/\ wf np_log_w st_w,
      θ_at_call st_w (Mat (T_w 1 0)) = Some (T_w 1 0),
      GMM_assign (T_w 1 0) (mask_of st_w (T_w 1 0)) (Mat (T_w 1 0)) = Ok (T_w 1 0),
      cal_δ_w 1 (GMM_entry st_w (T_w 1 0) (T_w 1 0)) (T_w 1 0) =
        Done (Ok (of_fin 0), after_pass_w (GMM_entry st_w (T_w 1 0) (T_w 1 0)))
    & all_fin (of_fin (0 : 'cV[rat]_(1 * 1))) = Some 0] /\
  exists st', GMM_w 1 st_w (Mat (T_w 1 0)) = Done (Ok (spec_objective st_w 0), st').
Proof.
have wf_w : wf np_log_w st_w by exact: market_wf.
have Eθ : θ_at_call st_w (Mat (T_w 1 0)) = Some (T_w 1 0) by [].
have Ea : GMM_assign (T_w 1 0) (mask_of st_w (T_w 1 0)) (Mat (T_w 1 0))
          = Ok (T_w 1 0) by [].
have Ec : cal_δ_w 1 (GMM_entry st_w (T_w 1 0) (T_w 1 0)) (T_w 1 0) =
          Done (Ok (of_fin 0), after_pass_w (GMM_entry st_w (T_w 1 0) (T_w 1 0))).
  apply: cal_δ_half; [exact: ln_s_jt_market | by [] | exact: adaptive_etol_gt0].
have Ef : all_fin (of_fin (0 : 'cV[rat]_(1 * 1))) = Some 0 by exact: all_fin_of_fin.
split; first by split.
have [st' [E _ _ _]] :=
  @C1_GMM_value rat 1 1 1 1 1 1 1 np_exp_w np_log_w cal_mu_w cal_s_w
    1 st_w (Mat (T_w 1 0)) (T_w 1 0) (T_w 1 0) _ _ _ wf_w Eθ Ea Ec Ef.
by exists st'.
Defined.

(** *** A NaN in the differences *)

(** With [δ = -1] the stand-in exponential gives 0, the simulated share is
    0 and its logarithm is NaN. *)
Definition st_nan : blp := market (1 / 2%:R) (- 1) (c_1e_6 rat) None None None.

Lemma diff_w_nan : diff_w (1 / 2%:R) (- 1) = NaN.
Proof. by apply/eqP; vm_compute. Qed.

Lemma has_nan_const_w : has_nan (const_mx NaN : 'cV[fl]_(1 * 1)).
Proof.
by apply/existsP; exists ord0; apply/existsP; exists ord0; rewrite mxE.
Qed.

(** The hypotheses of C3 hold on the example: the call of [GMM] ends with
    the exception. *)
Lemma C3_witness :
  [/\ θ_at_call st_nan (Mat (T_w 1 0)) = Some (T_w 1 0),
      GMM_assign (T_w 1 0) (mask_of st_nan (T_w 1 0)) (Mat (T_w 1 0)) = Ok (T_w 1 0),
      iterate_δ np_exp_w np_log_w cal_s_w 0
        (GMM_entry st_nan (T_w 1 0) (T_w 1 0)) μ_w
      = Some (GMM_entry st_nan (T_w 1 0) (T_w 1 0))
    & has_nan (cal_δ_diff np_exp_w np_log_w cal_s_w
                 (GMM_entry st_nan (T_w 1 0) (T_w 1 0)) μ_w).2] /\
  GMM_w 1 st_nan (Mat (T_w 1 0)) =
  Done (Raise Exception_nan_in_diffs,
        set_s (GMM_entry st_nan (T_w 1 0) (T_w 1 0))
              (cal_δ_diff np_exp_w np_log_w cal_s_w
                 (GMM_entry st_nan (T_w 1 0) (T_w 1 0)) μ_w).1).
Proof.
set entry := GMM_entry st_nan (T_w 1 0) (T_w 1 0).
have Eθ : θ_at_call st_nan (Mat (T_w 1 0)) = Some (T_w 1 0) by [].
have Ea : GMM_assign (T_w 1 0) (mask_of st_nan (T_w 1 0)) (Mat (T_w 1 0))
          = Ok (T_w 1 0) by [].
have Ei : iterate_δ np_exp_w np_log_w cal_s_w 0 entry μ_w = Some entry by [].
have Eln : ln_s_jt entry = const_mx (np_log_w (Fin (1 / 2%:R))).
  exact: ln_s_jt_market.
have Eδ : δ entry = const_mx (Fin (- 1)) by exact: erefl.
have nan : has_nan (cal_δ_diff np_exp_w np_log_w cal_s_w entry μ_w).2.
  by rewrite (cal_δ_diff_w Eln Eδ) diff_w_nan; exact: has_nan_const_w.
split; first by split.
exact: (@C3_nan_diff_raises rat 1 1 1 1 1 1 1 np_exp_w np_log_w cal_mu_w cal_s_w
          0 0 st_nan (Mat (T_w 1 0)) (T_w 1 0) (T_w 1 0) entry Eθ Ea Ei nan).
Defined.

(** *** Two objects that differ in the attributes [GMM] overwrites *)

Definition st_w' : blp := set_GMM_old (set_etol st_w (c_1e_13 rat)) 1.

(** The hypothesis of C8 holds for the two objects. *)
Lemma C8_witness :
  same_inputs st_w st_w' /\
  returned (GMM_w 1 st_w (Mat (T_w 1 0))) =
  returned (GMM_w 1 st_w' (Mat (T_w 1 0))).
Proof.
have same : same_inputs st_w st_w' by split; split.
split; first exact: same.
exact: (@C8_GMM_deterministic rat 1 1 1 1 1 1 1 np_exp_w np_log_w cal_mu_w
          cal_s_w 1 st_w st_w' (Mat (T_w 1 0)) same).
Defined.

(** *** The mask across calls *)

Local Notation later_calls_w :=
  (later_calls np_exp_w np_log_w cal_mu_w cal_s_w cal_ind_choice_prob_w).
Local Notation any_later_calls_w :=
  (any_later_calls np_exp_w np_log_w cal_mu_w cal_s_w cal_ind_choice_prob_w).

(** The object after a first call of [GMM] with the matrix [[1, 0]]: the
    mask holds the first entry only. *)
Definition mask_w : seq ('I_(1 + 1) * 'I_1) := np_nonzero_T (T_w 1 0).

Definition st_masked : blp :=
  market (1 / 2%:R) 0 (c_1e_9 rat) (Some (T_w 1 0)) (Some mask_w) None.

Lemma second_entry_unmasked : (ord_max, ord0) \notin mask_w.
Proof. by rewrite /mask_w np_nonzero_T_mem /= mxE. Qed.

(** The hypotheses of C9 hold on the example, for a vectorized evaluation of
    the objective followed by an evaluation of the gradient. *)
Lemma C9_witness :
  exists st',
    [/\ ix_θ_T st_masked = Some mask_w, θ st_masked = Some (T_w 1 0),
        outside_mask_zero mask_w (T_w 1 0), later_calls_w st_masked st'
      & ix_θ_T st' = Some mask_w /\
        exists2 T', θ st' = Some T' & outside_mask_zero mask_w T'].
Proof.
have [T' Ea] := setitem_T_singleton (T_w 1 0) mask_w 3%:R.
have wf_m : wf np_log_w st_masked by exact: market_wf.
have Eln : ln_s_jt st_masked = const_mx (np_log_w (Fin (1 / 2%:R))).
  exact: ln_s_jt_market.
have Eg := @GMM_half st_masked (@Vec rat 1 1 [:: 3%:R]) (T_w 1 0) T'
             wf_m Eln erefl erefl Ea.
set st1 := GMM_exit _ _ in Eg.
have calls : later_calls_w st_masked st1.
  apply: later_GMM Eg _.
  by apply: (@later_gradient _ _ _ _ _ _ _ _ _ _ _ _ _ st1 (Mat 0) _ st1 _ erefl);
     exact: later_none.
have out : outside_mask_zero mask_w (T_w 1 0) by exact: np_nonzero_T_outside.
have [_ _ keep] :=
  @C9_mask_fixed rat 1 1 1 1 1 1 1 np_exp_w np_log_w cal_mu_w cal_s_w
    cal_ind_choice_prob_w.
have [Eix ET] := keep st_masked st1 mask_w (T_w 1 0) erefl erefl out calls.
by exists st1; split.
Defined.

(** C9 as the specification states it fails: a later call of [GMM] with a
    matrix overwrites the whole of [θ].  After the call with [[1, 5]] the
    second entry, outside the mask, holds 5. *)
Lemma C9_counterexample :
  ~ @mask_zeros_persist rat 1 1 1 1 1 1 1 np_exp_w np_log_w cal_mu_w cal_s_w
      cal_ind_choice_prob_w.
Proof.
move=> persist.
have wf_m : wf np_log_w st_masked by exact: market_wf.
have Eln : ln_s_jt st_masked = const_mx (np_log_w (Fin (1 / 2%:R))).
  exact: ln_s_jt_market.
have Eg := @GMM_half st_masked (Mat (T_w 1 5%:R)) (T_w 1 0) (T_w 1 5%:R)
             wf_m Eln erefl erefl erefl.
set st1 := GMM_exit _ _ in Eg.
have calls : any_later_calls_w st_masked st1.
  by apply: any_later_GMM Eg _; exact: any_later_none.
have out : outside_mask_zero mask_w (T_w 1 0) by exact: np_nonzero_T_outside.
have [T' ET out'] := persist st_masked st1 mask_w (T_w 1 0) erefl erefl out calls.
have ET' : θ st1 = Some (T_w 1 5%:R) by exact: erefl.
move: ET; rewrite ET' => -[ET]; move: (out' _ _ second_entry_unmasked).
by rewrite -ET mxE /=; apply/eqP.
Qed.

(** *** The Jacobian and the variance-covariance matrix on the example *)

Local Notation cal_jacobian_w :=
  (cal_jacobian np_exp_w cal_mu_w cal_ind_choice_prob_w).
Local Notation cal_varcov_w :=
  (cal_varcov np_exp_w cal_mu_w cal_ind_choice_prob_w).
Local Notation ind_choice_prob_w :=
  (ind_choice_prob np_exp_w cal_mu_w cal_ind_choice_prob_w).

(** At [δ = 0] the product is chosen with probability 1/2. *)
Lemma ind_choice_prob_half (st : blp) (T : 'M[rat]_(1, 1 + 1)) :
  δ st = const_mx (Fin 0) ->
  all_fin (ind_choice_prob_w st T) = Some (const_mx (1 / 2%:R)).
Proof.
move=> Eδ.
have -> : ind_choice_prob_w st T = of_fin (const_mx (1 / 2%:R)).
  apply/matrixP => j k; rewrite /ind_choice_prob /cal_ind_choice_prob_w.
  by rewrite !mxE Eδ !mxE /=; apply/eqP; vm_compute.
exact: all_fin_of_fin.
Qed.

Lemma H_half_unit (m : 'I_1) :
  H (const_mx (1 / 2%:R) : 'M[rat]_(1 * 1, 1)) m \in unitmx.
Proof.
rewrite unitmxE det_mx11 unitfE H_entry !big_ord1 !mxE eqxx.
by vm_compute.
Qed.

Lemma cal_jacobian_half (st : blp) (T : 'M[rat]_(1, 1 + 1)) :
  δ st = const_mx (Fin 0) -> exists J, cal_jacobian_w st T = Ok J.
Proof.
move=> Eδ.
exact: cal_jacobian_returns (ind_choice_prob_half T Eδ) H_half_unit.
Qed.

(** The masked entry is nonzero in [[1, 0]]: the mask is not empty. *)
Lemma mask_w_first : (ord0, ord0) \in mask_w.
Proof. by rewrite /mask_w np_nonzero_T_mem /= mxE. Qed.

(** The hypotheses of C5 hold on the example, where the candidate has set
    the masked entry to zero: the Jacobian has no column, and the mask one
    entry. *)
Lemma C5_witness :
  exists J,
    [/\ outside_mask_zero mask_w (0 : 'M[rat]_(1, 1 + 1)),
        cal_jacobian_w st_masked 0 = Ok J,
        size (@rel rat 1 1 0) = 0%N
      & (0 < size mask_w)%N].
Proof.
have out : outside_mask_zero mask_w (0 : 'M[rat]_(1, 1 + 1)).
  by move=> a b _; rewrite mxE.
have [J EJ] := @cal_jacobian_half st_masked 0 erefl.
have [_ _ Esize] :=
  @C5_jacobian_columns rat 1 1 1 1 1 1 1 np_exp_w cal_mu_w cal_ind_choice_prob_w
    st_masked (T_w 1 0) 0 J out EJ.
exists J; split.
- exact: out.
- exact: EJ.
- rewrite Esize (@eq_count _ _ pred0) ?count_pred0 //.
  by move=> p; rewrite /= mxE eqxx.
- by move: mask_w_first; case: mask_w.
Defined.

(** An object on which [GMM] has stored a residual, with no nonlinear
    parameter to estimate: the parameter matrix is zero and the mask empty. *)
Definition ξ_w : 'cV[rat]_(1 * 1) := const_mx 1.

Definition st_lin : blp :=
  market (1 / 2%:R) 0 (c_1e_9 rat) (Some 0) (Some [::]) (Some ξ_w).




(** *** The example from [__init__] on *)

(** The stand-in for [cholesky] factors the identity matrix only. *)
Definition cholesky_w n (A : 'M[rat]_n) : result 'M[rat]_n :=
  if A == 1%:M then Ok 1%:M else Raise LinAlgError.

Lemma cholesky_w_spec n (A L : 'M[rat]_n) :
  cholesky_w A = Ok L -> is_cholesky A L.
Proof.
rewrite /cholesky_w; case: eqP => // -> [<-]; split.
- exact: scalar_mx_is_trig.
- by move=> i; rewrite mxE eqxx.
- by rewrite trmx1 mulmx1.
Qed.

(** The data of the example: one product with share 1/2. *)
Definition d_w : data rat 1 1 1 1 1 1 1 :=
  @Data rat 1 1 1 1 1 1 1 (const_mx (1 / 2%:R)) 0 0 1%:M 1%:M 1%:M.

Lemma init_s_0t_w : init_s_0t d_w = const_mx (1 - 1 / 2%:R).
Proof. by apply/matrixP => i j; rewrite !mxE big_ord1 mxE. Qed.

Lemma init_y_w :
  init_y np_log_w d_w =
  const_mx (fsub (np_log_w (Fin (1 / 2%:R))) (np_log_w (Fin (1 - 1 / 2%:R)))).
Proof. by apply/matrixP => i j; rewrite mxE init_s_0t_w !mxE. Qed.

Lemma init_w : __init__ np_log_w cholesky_w d_w = Ok st_w.
Proof.
rewrite /__init__ init_s_0t_w init_y_w /d_w.
cbn [data_s_jt data_v data_D data_x1 data_x2 data_Z].
rewrite !trmx1 !mulmx1 /cholesky_w eqxx.
cbn [bind_result].
have y0 : const_mx (fsub (np_log_w (Fin (1 / 2%:R)))
                         (np_log_w (Fin (1 - 1 / 2%:R))))
          = of_fin 0 :> 'cV[fl]_(1 * 1).
  by apply/matrixP => i j; rewrite !mxE; apply/eqP; vm_compute.
rewrite [X in nan_lift _ X]y0 /nan_lift all_fin_of_fin.
rewrite /cho_solve_fl all_fin_of_fin.
cbn [bind_result].
rewrite /solve /cho_solve /back_subst /forward_subst !trmx1 !invmx1 !mulmx1.
rewrite unitmx1.
cbn [bind_result].
rewrite !mulmx0.
have -> : of_fin 0 = const_mx (Fin 0) :> 'cV[fl]_(1 * 1).
  by apply/matrixP => i j; rewrite !mxE.
exact: erefl.
Qed.

Local Notation reachable_w :=
  (reachable np_exp_w np_log_w cholesky_w cal_mu_w cal_s_w cal_ind_choice_prob_w).

(** The object after a first evaluation of the objective, at [[1, 0]]. *)
Definition st1_w : blp :=
  GMM_exit (set_δ (after_pass_w (GMM_entry st_w (T_w 1 0) (T_w 1 0))) (of_fin 0)) 0.

Lemma GMM_first_w :
  GMM_w 1 st_w (Mat (T_w 1 0)) = Done (Ok (spec_objective st_w 0), st1_w).
Proof.
exact: (@GMM_half st_w (Mat (T_w 1 0)) (T_w 1 0) (T_w 1 0)
          (market_wf _ _ _ _ _ _) (ln_s_jt_market _ _ _ _ _ _) erefl erefl erefl).
Qed.

Lemma reach_st1_w : reachable_w d_w st1_w.
Proof.
have r0 : reachable_w d_w st_w by apply: reach_init; exact: init_w.
exact: (reach_GMM (cal_ind_choice_prob:=cal_ind_choice_prob_w) r0 GMM_first_w).
Qed.

(** The hypotheses of X1 hold on the object after the first evaluation. *)
Lemma X1_witness :
  exists ξ',
    [/\ reachable_w d_w st1_w, ξ st1_w = Some ξ'
      & (x1 st1_w)^T *m Z st1_w *m invmx ((Z st1_w)^T *m Z st1_w)
          *m (Z st1_w)^T *m ξ' = 0].
Proof.
have Eξ : ξ st1_w = Some (spec_ξ (set_δ (after_pass_w
            (GMM_entry st_w (T_w 1 0) (T_w 1 0))) (of_fin 0)) 0) by [].
eexists; split; [exact: reach_st1_w | exact: Eξ |].
exact: (X1_residual_orthogonal cholesky_w_spec reach_st1_w Eξ).
Defined.

(** The hypotheses of X2 hold for the first evaluation. *)
Lemma X2_witness :
  [/\ wf np_log_w st_w,
      GMM_w 1 st_w (Mat (T_w 1 0)) = Done (Ok (spec_objective st_w 0), st1_w)
    & 0 <= spec_objective st_w 0].
Proof.
have wf_w : wf np_log_w st_w by exact: market_wf.
split; [exact: wf_w | exact: GMM_first_w |].
exact: (X2_objective_nonnegative wf_w GMM_first_w).
Defined.

(** The hypotheses of X3 hold for the first evaluation: the mean utilities
    returned are [x1 β] with [β = 0]. *)
Lemma X3_witness :
  [/\ wf np_log_w st_w,
      θ_at_call st_w (Mat (T_w 1 0)) = Some (T_w 1 0),
      GMM_assign (T_w 1 0) (mask_of st_w (T_w 1 0)) (Mat (T_w 1 0)) = Ok (T_w 1 0)
    & cal_δ_w 1 (GMM_entry st_w (T_w 1 0) (T_w 1 0)) (T_w 1 0) =
      Done (Ok (of_fin (x1 st_w *m 0)),
            after_pass_w (GMM_entry st_w (T_w 1 0) (T_w 1 0)))] /\
  exists st',
    [/\ GMM_w 1 st_w (Mat (T_w 1 0)) = Done (Ok 0, st'),
        θ1 st' = Some 0 & ξ st' = Some 0].
Proof.
have wf_w : wf np_log_w st_w by exact: market_wf.
have Eθ : θ_at_call st_w (Mat (T_w 1 0)) = Some (T_w 1 0) by [].
have Ea : GMM_assign (T_w 1 0) (mask_of st_w (T_w 1 0)) (Mat (T_w 1 0))
          = Ok (T_w 1 0) by [].
have Ec : cal_δ_w 1 (GMM_entry st_w (T_w 1 0) (T_w 1 0)) (T_w 1 0) =
          Done (Ok (of_fin (x1 st_w *m 0)),
                after_pass_w (GMM_entry st_w (T_w 1 0) (T_w 1 0))).
  rewrite mulmx0.
  apply: cal_δ_half; [exact: ln_s_jt_market | by [] | exact: adaptive_etol_gt0].
split; first by split.
exact: (X3_exact_linear_fit wf_w Eθ Ea Ec).
Defined.

(** The hypotheses of X4 hold for the first evaluation. *)
Lemma X4_witness :
  [/\ θ_at_call st_w (Mat (T_w 1 0)) = Some (T_w 1 0),
      GMM_assign (T_w 1 0) (mask_of st_w (T_w 1 0)) (Mat (T_w 1 0)) = Ok (T_w 1 0)
    & GMM_w 1 st_w (Mat (T_w 1 0)) = Done (Ok (spec_objective st_w 0), st1_w)] /\
  [/\ etol st1_w = adaptive_etol (GMM_diff st_w),
      [\/ etol st1_w = c_1e_13 rat, etol st1_w = c_1e_12 rat
        | etol st1_w = c_1e_9 rat]
    & forall g, GMM_diff st_w <= g -> etol st1_w <= adaptive_etol g].
Proof.
have Eθ : θ_at_call st_w (Mat (T_w 1 0)) = Some (T_w 1 0) by [].
have Ea : GMM_assign (T_w 1 0) (mask_of st_w (T_w 1 0)) (Mat (T_w 1 0))
          = Ok (T_w 1 0) by [].
split; first by split; [exact: Eθ | exact: Ea | exact: GMM_first_w].
exact: (X4_adaptive_tolerance Eθ Ea GMM_first_w).
Defined.

(** The hypotheses of X5 hold for the first evaluation. *)
Lemma X5_witness :
  [/\ wf np_log_w st_w
    & GMM_w 1 st_w (Mat (T_w 1 0)) = Done (Ok (spec_objective st_w 0), st1_w)] /\
  ([/\ has_nan (δ st1_w), spec_objective st_w 0 = c_1e10 rat,
       GMM_old st1_w = GMM_old st_w & GMM_diff st1_w = GMM_diff st_w] \/
   [/\ ~~ has_nan (δ st1_w), GMM_old st1_w = spec_objective st_w 0
     & GMM_diff st1_w = `|GMM_old st_w - spec_objective st_w 0|]).
Proof.
have wf_w : wf np_log_w st_w by exact: market_wf.
split; first by split; [exact: wf_w | exact: GMM_first_w].
exact: (X5_objective_bookkeeping wf_w GMM_first_w).
Defined.

(** *** Vectorized calls on the example *)

Lemma mask_wE : mask_w = [:: (ord0, ord0)].
Proof.
apply: perm_small_eq => //; apply: uniq_perm => //.
  exact: np_nonzero_T_uniq.
move=> [a b]; rewrite np_nonzero_T_mem inE xpair_eqE /= mxE [b]ord1 eqxx andbT.
rewrite -[a == 0]/(a == ord0).
by case: (a == ord0); rewrite ?oner_eq0 ?eqxx.
Qed.

Lemma size_mask_w : size mask_w = 1%N.
Proof. by rewrite mask_wE. Qed.

(** The hypotheses of X6 hold for a vectorized call with one value on the
    object whose mask has one entry. *)
Lemma X6_witness :
  exists r st',
    [/\ θ st_masked = Some (T_w 1 0), ix_θ_T st_masked = Some mask_w,
        uniq mask_w /\ size [:: 3%:R : rat] = size mask_w,
        GMM_w 1 st_masked (@Vec rat 1 1 [:: 3%:R]) = Done (r, st')
      & exists2 T', θ st' = Some T' & getitem_T T' mask_w = [:: 3%:R]].
Proof.
have [T' Ea] := setitem_T_singleton (T_w 1 0) mask_w 3%:R.
have wf_m : wf np_log_w st_masked by exact: market_wf.
have Eln : ln_s_jt st_masked = const_mx (np_log_w (Fin (1 / 2%:R))).
  exact: ln_s_jt_market.
have Eg := @GMM_half st_masked (@Vec rat 1 1 [:: 3%:R]) (T_w 1 0) T'
             wf_m Eln erefl erefl Ea.
have un : uniq mask_w by exact: np_nonzero_T_uniq.
have Es : size [:: 3%:R : rat] = size mask_w by rewrite size_mask_w.
do 2!eexists; split; [exact: erefl | exact: erefl | by split | exact: Eg |].
exact: (X6_candidate_stored (st:=st_masked) (T:=T_w 1 0) (ix:=mask_w)
          erefl erefl un Es Eg).
Defined.

(** The hypotheses of X8 hold for a call with two values on the object
    whose mask is empty. *)
Lemma X8_witness :
  [/\ θ st_lin = Some 0, ix_θ_T st_lin = Some [::],
      size [:: 1; 2%:R : rat] != size ([::] : seq ('I_(1 + 1) * 'I_1)),
      size [:: 1; 2%:R : rat] != 1%N
    & GMM_w 1 st_lin (@Vec rat 1 1 [:: 1; 2%:R]) = Done (Raise ValueError, st_lin)].
Proof.
have ne : size [:: 1; 2%:R : rat] != size ([::] : seq ('I_(1 + 1) * 'I_1)) by [].
have ne1 : size [:: 1; 2%:R : rat] != 1%N by [].
split; [exact: erefl | exact: erefl | exact: ne | exact: ne1 |].
exact: (X8_wrong_length_raises np_exp_w np_log_w cal_mu_w cal_s_w 1
          (st:=st_lin) (T:=0) (ix:=[::]) erefl erefl ne ne1).
Defined.

(** The hypotheses of X9 hold for the call that writes the masked entry of
    [[1, 0]] back. *)
Lemma X9_witness :
  exists r st',
    [/\ θ st_masked = Some (T_w 1 0), ix_θ_T st_masked = Some mask_w,
        GMM_w 1 st_masked (@Vec rat 1 1 (getitem_T (T_w 1 0) mask_w)) = Done (r, st')
      & θ st' = Some (T_w 1 0)].
Proof.
have wf_m : wf np_log_w st_masked by exact: market_wf.
have Eln : ln_s_jt st_masked = const_mx (np_log_w (Fin (1 / 2%:R))).
  exact: ln_s_jt_market.
have Ea : setitem_T (T_w 1 0) mask_w (getitem_T (T_w 1 0) mask_w) =
          Ok (foldl (fun M pv => upd_T M pv.1 pv.2) (T_w 1 0)
                (zip mask_w (getitem_T (T_w 1 0) mask_w))).
  by rewrite /setitem_T size_map eqxx.
have Eg := @GMM_half st_masked (@Vec rat 1 1 (getitem_T (T_w 1 0) mask_w))
             (T_w 1 0) _ wf_m Eln erefl erefl Ea.
do 2!eexists; split; [exact: erefl | exact: erefl | exact: Eg |].
exact: (X9_own_values_fixed (st:=st_masked) (T:=T_w 1 0) (ix:=mask_w)
          erefl erefl Eg).
Defined.

(** *** The contraction mapping on the example *)

(** The hypothesis of X10 holds: the loop returns after one pass. *)
Lemma X10_witness :
  cal_δ_loop np_exp_w np_log_w cal_s_w 1 st_w μ_w =
    Done (Ok (of_fin 0), after_pass_w st_w) /\
  [/\ δ (after_pass_w st_w) = of_fin 0, etol (after_pass_w st_w) = etol st_w
    & criterion (etol (after_pass_w st_w))
        (\col_j fsub (ln_s_jt (after_pass_w st_w) j 0)
                     (np_log_w (s (after_pass_w st_w) j 0)))].
Proof.
have Ec : cal_δ_loop np_exp_w np_log_w cal_s_w 1 st_w μ_w =
          Done (Ok (of_fin 0), after_pass_w st_w).
  apply: (@cal_δ_half st_w (T_w 1 0)); [exact: ln_s_jt_market | by [] |].
  exact: (ten_pow_gt0 rat 6).
split; first exact: Ec.
exact: (X10_returned_shares_match Ec).
Defined.

Lemma no_nan_st_w : ~~ has_nan (δ st_w).
Proof. by apply/has_nanPn => j k; rewrite mxE. Qed.

(** The hypotheses of X11 hold for the first evaluation. *)
Lemma X11_witness :
  [/\ wf np_log_w st_w, ~~ has_nan (δ st_w)
    & GMM_w 1 st_w (Mat (T_w 1 0)) = Done (Ok (spec_objective st_w 0), st1_w)] /\
  (~~ has_nan (δ st1_w) /\
   forall g, Ok (spec_objective st_w 0) = Ok g ->
     exists2 δf, δ st1_w = of_fin δf & g = spec_objective st_w δf).
Proof.
have wf_w : wf np_log_w st_w by exact: market_wf.
split; first by split; [exact: wf_w | exact: no_nan_st_w | exact: GMM_first_w].
exact: (X11_sentinel_unreached wf_w no_nan_st_w GMM_first_w).
Defined.

(** *** The Jacobian, the variance-covariance matrix and the standard errors
    on the example *)

(** The hypothesis of X14 holds: the choice probabilities are finite, and
    the Jacobian is returned. *)
Lemma X14_witness :
  all_fin (ind_choice_prob_w st_w (T_w 1 0)) = Some (const_mx (1 / 2%:R)) /\
  exists J, cal_jacobian_w st_w (T_w 1 0) = Ok J.
Proof.
have EP : all_fin (ind_choice_prob_w st_w (T_w 1 0)) = Some (const_mx (1 / 2%:R)).
  exact: ind_choice_prob_half.
split; first exact: EP.
have [[_ ret] _] := X14_jacobian_singular_market EP.
exact: ret H_half_unit.
Defined.

(** The same data with a share of zero, whose logarithm is not finite. *)
Definition d_zero : data rat 1 1 1 1 1 1 1 :=
  @Data rat 1 1 1 1 1 1 1 (const_mx 0) 0 0 1%:M 1%:M 1%:M.

Lemma nan_y_zero :
  has_nan (nan_lift (mulmx (data_Z d_zero)^T) (init_y np_log_w d_zero)).
Proof.
have nan : has_nan (init_y np_log_w d_zero).
  apply/existsP; exists ord0; apply/existsP; exists ord0.
  by rewrite mxE [data_s_jt _ _ _]mxE /np_log_w ltxx.
rewrite /nan_lift /all_fin nan.
by apply/existsP; exists ord0; apply/existsP; exists ord0; rewrite mxE.
Qed.


Lemma y_st_w : y st_w = of_fin 0.
Proof. by apply/matrixP => j k; rewrite !mxE; apply/eqP; vm_compute. Qed.

(** The hypotheses of X16 hold for the data of the example. *)
Lemma X16_witness :
  [/\ __init__ np_log_w cholesky_w d_w = Ok st_w
    & all_fin (y st_w) = Some 0] /\
  [/\ forall j, y st_w j 0 =
        fsub (np_log_w (Fin (s_jt st_w j 0)))
             (np_log_w (Fin (1 - \sum_(r < 1) s_jt st_w (flat (cdid j) r) 0))),
      δ st_w = of_fin (x1 st_w *m spec_θ1 st_w 0)
    & s st_w = const_mx (Fin 0)].
Proof.
have Ey : all_fin (y st_w) = Some 0 by rewrite y_st_w all_fin_of_fin.
split; first by split; [exact: init_w | exact: Ey].
exact: (X16_initial_mean_utility cholesky_w_spec init_w Ey).
Defined.

(** The hypothesis of X17 holds on the object after the first evaluation. *)
Lemma X17_witness :
  reachable_w d_w st1_w /\
  [/\ [/\ s_jt st1_w = data_s_jt d_w, v st1_w = data_v d_w,
          D st1_w = data_D d_w, x1 st1_w = data_x1 d_w
        & x2 st1_w = data_x2 d_w],
      Z st1_w = data_Z d_w /\ Z_x1 st1_w = (data_Z d_w)^T *m data_x1 d_w,
      cholesky_w ((data_Z d_w)^T *m data_Z d_w) = Ok (LinvW st1_w)
    & iter_limit st1_w = 200].
Proof.
split; first exact: reach_st1_w.
exact: (X17_data_assigned_once reach_st1_w).
Defined.

(** The hypothesis of X18 holds on the object after the first evaluation. *)
Lemma X18_witness :
  reachable_w d_w st1_w /\
  [/\ (θ1 st1_w : bool) = ξ st1_w, ξ st1_w -> ix_θ_T st1_w,
      ix_θ_T st1_w -> θ st1_w
    & forall ix, ix_θ_T st1_w = Some ix ->
        uniq ix /\ exists T0 : 'M[rat]_(1, 1 + 1), ix = np_nonzero_T T0].
Proof.
split; first exact: reach_st1_w.
exact: (X18_attributes_in_order reach_st1_w).
Defined.



(** The stand-in for [np.sqrt]: the first-order expansion at 1, NaN on a
    negative argument. *)
Definition np_sqrt_w (x : rat) : fl :=
  if x < 0 then NaN else Fin ((1 + x) / 2%:R).

(** The hypotheses of X20 hold for a mask of one entry and a 1 x 1
    [varcov]. *)
Lemma X20_witness :
  [/\ uniq [:: (ord0, ord0) : 'I_(1 + 1) * 'I_1]
    & (0 < size [:: (ord0, ord0) : 'I_(1 + 1) * 'I_1]
         <= projT1 (existT (fun k => 'M[rat]_k) 1%N 1%:M))%N] /\
  exists se, cal_se np_sqrt_w [:: (ord0, ord0) : 'I_(1 + 1) * 'I_1]
               (existT (fun k => 'M[rat]_k) 1%N 1%:M) = Ok se.
Proof.
have un : uniq [:: (ord0, ord0) : 'I_(1 + 1) * 'I_1] by [].
have le : (0 < size [:: (ord0, ord0) : 'I_(1 + 1) * 'I_1]
             <= projT1 (existT (fun k => 'M[rat]_k) 1%N 1%:M))%N by [].
split; first by split.
have [se [Ese _ _]] := X20_se_layout np_sqrt_w un le.
by exists se.
Defined.

(** *** The start of [optimize] on the example *)

(** The object after line 330, for [θ0 = [[1, 0]]]. *)
Definition st_opt : blp :=
  market (1 / 2%:R) 0 (c_1e_6 rat) (Some (T_w 1 0)) None None.

(** The hypotheses of X22 hold for the evaluation at the starting vector. *)
Lemma X22_witness :
  exists r st',
    [/\ θ st_opt = Some (T_w 1 0), ix_θ_T st_opt = None,
        GMM_w 1 st_opt (@Vec rat 1 1 (θ0_vec (T_w 1 0))) = Done (r, st')
      & exists T',
          [/\ θ st' = Some T', ix_θ_T st' = Some (np_nonzero_T (T_w 1 0)),
              getitem_T T' (np_nonzero_T (T_w 1 0)) = θ0_vec (T_w 1 0)
            & T' = T_w 1 0 <->
              getitem_T (T_w 1 0) (np_nonzero_T (T_w 1 0)) = θ0_vec (T_w 1 0)]].
Proof.
have wf_o : wf np_log_w st_opt by exact: market_wf.
have Eln : ln_s_jt st_opt = const_mx (np_log_w (Fin (1 / 2%:R))).
  exact: ln_s_jt_market.
have Ea : setitem_T (T_w 1 0) (np_nonzero_T (T_w 1 0)) (θ0_vec (T_w 1 0)) =
          Ok (foldl (fun M pv => upd_T M pv.1 pv.2) (T_w 1 0)
                (zip (np_nonzero_T (T_w 1 0)) (θ0_vec (T_w 1 0)))).
  by rewrite /setitem_T size_θ0_vec eqxx.
have Eg := @GMM_half st_opt (@Vec rat 1 1 (θ0_vec (T_w 1 0)))
             (T_w 1 0) _ wf_o Eln erefl erefl Ea.
do 2!eexists; split; [exact: erefl | exact: erefl | exact: Eg |].
exact: (X22_start_vector_order (st:=st_opt) (θ0:=T_w 1 0) erefl erefl Eg).
Defined.



(** *** A mask of two entries *)

(** The object after a first evaluation of the objective at [[1, 1]]. *)
Definition st_both : blp :=
  GMM_exit (set_δ (after_pass_w (GMM_entry st_w (T_w 1 1) (T_w 1 1))) (of_fin 0)) 0.

Lemma GMM_both :
  GMM_w 1 st_w (Mat (T_w 1 1)) = Done (Ok (spec_objective st_w 0), st_both).
Proof.
exact: (@GMM_half st_w (Mat (T_w 1 1)) (T_w 1 1) (T_w 1 1)
          (market_wf _ _ _ _ _ _) (ln_s_jt_market _ _ _ _ _ _) erefl erefl erefl).
Qed.

Lemma reach_both : reachable_w d_w st_both.
Proof.
have r0 : reachable_w d_w st_w by apply: reach_init; exact: init_w.
exact: (reach_GMM (cal_ind_choice_prob:=cal_ind_choice_prob_w) r0 GMM_both).
Qed.

Lemma size_mask_both : size (np_nonzero_T (T_w 1 1)) = 2%N.
Proof.
have un : uniq [:: (ord0, ord0); (ord_max, ord0) : 'I_(1 + 1) * 'I_1] by [].
rewrite -[RHS]/(size [:: (ord0, ord0); (ord_max, ord0) : 'I_(1 + 1) * 'I_1]).
apply: perm_size; apply: uniq_perm => //; first exact: np_nonzero_T_uniq.
move=> [a b]; rewrite np_nonzero_T_mem /= mxE [b]ord1 !inE !xpair_eqE !eqxx !andbT.
by case: a => [[|[|a]] lt] //=; rewrite orbT.
Qed.

(** The hypotheses of X7 hold for a call with one value on the object whose
    mask has two entries: both receive the value. *)
Lemma X7_witness :
  exists r st',
    [/\ reachable_w d_w st_both,
        θ st_both = Some (T_w 1 1) /\
        ix_θ_T st_both = Some (np_nonzero_T (T_w 1 1)),
        size (np_nonzero_T (T_w 1 1)) != 1%N,
        GMM_w 1 st_both (@Vec rat 1 1 [:: 3%:R]) = Done (r, st')
      & exists2 T', θ st' = Some T' &
          forall p : 'I_(1 + 1) * 'I_1,
            T' p.2 p.1 = if p \in np_nonzero_T (T_w 1 1) then 3%:R
                         else T_w 1 1 p.2 p.1].
Proof.
have wf_b : wf np_log_w st_both by exact: (reachable_wf cholesky_w_spec reach_both).
have Eln : ln_s_jt st_both = const_mx (np_log_w (Fin (1 / 2%:R))).
  exact: ln_s_jt_market.
have Eδ : δ st_both = const_mx (Fin 0).
  by apply/matrixP => j k; rewrite !mxE.
have [T' Ea] := setitem_T_singleton (T_w 1 1) (np_nonzero_T (T_w 1 1)) 3%:R.
have Eg := @GMM_half st_both (@Vec rat 1 1 [:: 3%:R]) (T_w 1 1) T'
             wf_b Eln Eδ erefl Ea.
have ne1 : size (np_nonzero_T (T_w 1 1)) != 1%N by rewrite size_mask_both.
do 2!eexists; split; [exact: reach_both | by split | exact: ne1 | exact: Eg |].
exact: (X7_single_value_broadcast (st:=st_both) (T:=T_w 1 1)
          (ix:=np_nonzero_T (T_w 1 1)) erefl erefl ne1 Eg).
Defined.


(** *** A parameter value at which the contraction mapping never returns *)

(** A stand-in for [log] that overshoots: nine times the first-order
    expansion at 1. *)
Definition np_log_s (x : fl) : fl :=
  if x is Fin a then (if 0 < a then Fin (9%:R * (a - 1)) else NaN) else NaN.

(** [_BLP.cal_mu] for one product, one draw and one characteristic:
    [μ = x2 (v θ_v + D θ_D)]. *)
Definition cal_mu_v (θ_v : 'cV[rat]_1) (θ_D : 'M[rat]_(1, 1))
    (v : 'M[rat]_(1, 1 * 1)) (D : 'M[rat]_(1, 1 * 1)) (x2 : 'M[rat]_(1 * 1, 1)) :
    'M[fl]_(1 * 1, 1) :=
  \matrix_(j, i) Fin (x2 j 0 * (v 0 0 * θ_v 0 0 + D 0 0 * θ_D 0 0)).

(** One product with share 1/2 and a taste draw of 1. *)
Definition d_v : data rat 1 1 1 1 1 1 1 :=
  @Data rat 1 1 1 1 1 1 1 (const_mx (1 / 2%:R)) (const_mx 1) 0 1%:M 1%:M 1%:M.

Definition st_v : blp :=
  @Build_BLP rat 1 1 1 1 1 1 1
    (const_mx (1 / 2%:R)) (map_mx np_log_s (of_fin (const_mx (1 / 2%:R))))
    (const_mx 1) 0 1%:M 1%:M 1%:M 1%:M 1%:M (c_1e_6 rat) 200 0 1
    (const_mx (1 - 1 / 2%:R))
    (const_mx (fsub (np_log_s (Fin (1 / 2%:R))) (np_log_s (Fin (1 - 1 / 2%:R)))))
    (const_mx (Fin 0)) (const_mx (Fin 0)) None None None None.

Lemma init_s_0t_v : init_s_0t d_v = const_mx (1 - 1 / 2%:R).
Proof. by apply/matrixP => i j; rewrite !mxE big_ord1 mxE. Qed.

Lemma init_y_v :
  init_y np_log_s d_v =
  const_mx (fsub (np_log_s (Fin (1 / 2%:R))) (np_log_s (Fin (1 - 1 / 2%:R)))).
Proof. by apply/matrixP => i j; rewrite mxE init_s_0t_v !mxE. Qed.

Lemma init_v : __init__ np_log_s cholesky_w d_v = Ok st_v.
Proof.
rewrite /__init__ init_s_0t_v init_y_v /d_v.
cbn [data_s_jt data_v data_D data_x1 data_x2 data_Z].
rewrite !trmx1 !mulmx1 /cholesky_w eqxx.
cbn [bind_result].
have y0 : const_mx (fsub (np_log_s (Fin (1 / 2%:R)))
                         (np_log_s (Fin (1 - 1 / 2%:R))))
          = of_fin 0 :> 'cV[fl]_(1 * 1).
  by apply/matrixP => i j; rewrite !mxE; apply/eqP; vm_compute.
rewrite [X in nan_lift _ X]y0 /nan_lift all_fin_of_fin.
rewrite /cho_solve_fl all_fin_of_fin.
cbn [bind_result].
rewrite /solve /cho_solve /back_subst /forward_subst !trmx1 !invmx1 !mulmx1.
rewrite unitmx1.
cbn [bind_result].
rewrite !mulmx0.
have -> : of_fin 0 = const_mx (Fin 0) :> 'cV[fl]_(1 * 1).
  by apply/matrixP => i j; rewrite !mxE.
exact: erefl.
Qed.

Local Notation GMM_s := (GMM np_exp_w np_log_s cal_mu_v cal_s_w).
Local Notation cal_δ_s := (cal_δ np_exp_w np_log_s cal_mu_v cal_s_w).
Local Notation cal_δ_step_s := (cal_δ_step np_exp_w np_log_s cal_s_w).
Local Notation cal_δ_diff_s := (cal_δ_diff np_exp_w np_log_s cal_s_w).

(** [μ] on the example is the first entry of the parameter matrix. *)
Lemma cal_mu_vE (st : blp) (x y : rat) :
  v st = const_mx 1 -> D st = 0 -> x2 st = 1%:M ->
  cal_mu_v (lsubmx (T_w x y)) (rsubmx (T_w x y)) (v st) (D st) (x2 st)
  = const_mx (Fin x).
Proof.
move=> -> -> ->; apply/matrixP => j i; rewrite !mxE !ord1 /=.
by rewrite mul0r addr0 !mul1r.
Qed.

Lemma cal_δ_diff_sE (st : blp) (sh d m : rat) :
  ln_s_jt st = const_mx (np_log_s (Fin sh)) -> δ st = const_mx (Fin d) ->
  (cal_δ_diff_s st (const_mx (Fin m))).2 =
  const_mx (fsub (np_log_s (Fin sh))
                 (np_log_s (share_w (np_exp_w (Fin (d + m)))))).
Proof.
by move=> Eln Eδ; apply/matrixP => j k; rewrite /cal_δ_diff /= !mxE Eln Eδ !mxE.
Qed.

Lemma ln_s_jt_v : ln_s_jt st_v = const_mx (np_log_s (Fin (1 / 2%:R))).
Proof. by apply/matrixP => j k; rewrite !mxE. Qed.

(** At [θ = [[0, 1]]] the mean utility 0 reproduces the observed share: the
    loop returns after one pass. *)
Lemma GMM_v_returns :
  exists r, GMM_s 1 st_v (Mat (T_w 0 1)) = Done r.
Proof.
have wf_v : wf np_log_s st_v by exact: (init_wf cholesky_w_spec init_v).
set T := T_w 0 1; set entry := GMM_entry st_v T T.
have Eμ : cal_mu_v (lsubmx T) (rsubmx T) (v entry) (D entry) (x2 entry)
          = const_mx (Fin 0).
  exact: cal_mu_vE.
have Ed : (cal_δ_diff_s entry (const_mx (Fin 0))).2 = of_fin 0.
  rewrite (@cal_δ_diff_sE entry (1 / 2%:R) 0 0 ln_s_jt_v erefl).
  by apply/matrixP => j k; rewrite !mxE; apply/eqP; vm_compute.
have step : cal_δ_step_s entry (const_mx (Fin 0))
            = Converged (after_pass np_exp_w np_log_s cal_s_w entry (const_mx (Fin 0))).
  apply: (cal_δ_step_converged _ Ed); first by [].
    by move=> j; rewrite mxE normr0; exact: adaptive_etol_gt0.
  rewrite big1 => [j _|]; first by rewrite mxE normr0.
  by rewrite mul0r; exact: (ten_pow_gt0 rat 3).
have Ec : cal_δ_s 1 entry T =
          Done (Ok (of_fin 0),
                after_pass np_exp_w np_log_s cal_s_w entry (const_mx (Fin 0))).
  rewrite /cal_δ Eμ /= step; congr (Done (Ok _, _)).
  apply/matrixP => j k; rewrite δ_after_pass Ed !mxE /=.
  by apply: Fin_eq; rewrite addr0.
have [_ ->] := GMM_returns wf_v (erefl : θ_at_call st_v (Mat T) = Some T)
                 (erefl : GMM_assign T (mask_of st_v T) (Mat T) = Ok T) Ec.
by eexists.
Qed.

(** At [θ = [[-1/2, 0]]] the mean utility alternates between 0 and 3/2, the
    difference between 3/2 and -3/2. *)
Definition cycles (st : blp) : Prop :=
  [/\ ln_s_jt st = const_mx (np_log_s (Fin (1 / 2%:R))), etol st <= 1
    & δ st = const_mx (Fin 0) \/ δ st = const_mx (Fin (3%:R / 2%:R))].

Definition μ_cycle : 'M[fl]_(1 * 1, 1) := const_mx (Fin (- (1 / 2%:R))).

Lemma cycles_step (st : blp) :
  cycles st ->
  exists2 st', cal_δ_step_s st μ_cycle = Iterating st' & cycles st'.
Proof.
case=> Eln tol1 Eδ.
pose x : rat := if δ st == const_mx (Fin 0) then 3%:R / 2%:R else - (3%:R / 2%:R).
have ne : (const_mx (Fin (3%:R / 2%:R)) == const_mx (Fin 0) :> 'cV[fl]_(1 * 1)) = false.
  apply/negbTE/eqP => /matrixP /(_ ord0 ord0); rewrite !mxE.
  by move/eqP; vm_compute.
have Ed : (cal_δ_diff_s st μ_cycle).2 = of_fin (const_mx x).
  case: Eδ => Eδ; rewrite (cal_δ_diff_sE _ Eln Eδ) /x Eδ ?eqxx ?ne;
    by apply/matrixP => j k; rewrite !mxE; apply/eqP; vm_compute.
exists (after_pass np_exp_w np_log_s cal_s_w st μ_cycle).
  apply: (@cal_δ_step_iterating rat 1 1 1 1 1 1 1 np_exp_w np_log_s cal_s_w
            st μ_cycle (const_mx x) ord0 Ed).
  apply: le_trans tol1 _; rewrite mxE /x.
  by case: ifP => _; vm_compute.
split=> //.
case: Eδ => Eδ; [right | left]; apply/matrixP => j k;
  rewrite δ_after_pass Ed Eδ /x Eδ ?eqxx ?ne !mxE /=;
  by apply: Fin_eq; vm_compute.
Qed.



(** ** Two markets

    Two markets with one product each, one simulated consumer, one
    characteristic in [x1] and [x2], two instruments and one demographic
    variable.  The stand-in for [log] is the inverse of the stand-in share of
    the stand-in exponential, [log a = a / (1 - a) - 1] on shares, so that
    the contraction mapping reaches its fixed point in one step and meets
    the criterion at the next pass. *)

Local Notation blp2 := (BLP rat 2 1 1 1 1 2 1).

Definition np_log_o (x : fl) : fl :=
  if x is Fin a then
    (if (0 < a) && (a < 1) then Fin (a / (1 - a) - 1) else NaN)
  else NaN.

(** [_BLP.cal_mu] for one product a market, one draw and one
    characteristic: [μ = x2 (v θ_v + D θ_D)], with the draws of the market
    of the observation. *)
Definition cal_mu2 (θ_v : 'cV[rat]_1) (θ_D : 'M[rat]_(1, 1))
    (v : 'M[rat]_(2, 1 * 1)) (D : 'M[rat]_(2, 1 * 1)) (x2 : 'M[rat]_(2 * 1, 1)) :
    'M[fl]_(2 * 1, 1) :=
  \matrix_(j, i) Fin (x2 j 0 * (v (cdid j) 0 * θ_v 0 0 + D (cdid j) 0 * θ_D 0 0)).

Definition cal_s2 (exp_Xb : 'M[fl]_(2 * 1, 1)) : 'cV[fl]_(2 * 1) :=
  \col_j share_w (exp_Xb j 0).

Definition cal_ind_choice_prob2 (exp_Xb : 'M[fl]_(2 * 1, 1)) : 'M[fl]_(2 * 1, 1) :=
  map_mx share_w exp_Xb.

(** The column with [a] in the first market and [b] in the second. *)
Definition by_market (a b : rat) : 'cV[rat]_(2 * 1) :=
  \col_j (if (j : nat) == 0%N then a else b).

(** Shares 1/2 and 1/3; the taste draw is 0 in the first market and 1 in the
    second; the instruments are the market dummies. *)
Definition v2 : 'M[rat]_(2, 1 * 1) := \matrix_(m, i) (if (m : nat) == 0%N then 0 else 1).

Definition d2 : data rat 2 1 1 1 1 2 1 :=
  @Data rat 2 1 1 1 1 2 1 (by_market (1 / 2%:R) (1 / 3%:R)) v2 0
    (const_mx 1) (const_mx 1) 1%:M.

(** The object [__init__] builds: [y = (0, -3/2)] and the mean utility
    starts at [-3/4] in both markets. *)
Definition st2_0 : blp2 :=
  @Build_BLP rat 2 1 1 1 1 2 1
    (by_market (1 / 2%:R) (1 / 3%:R))
    (map_mx np_log_o (of_fin (by_market (1 / 2%:R) (1 / 3%:R))))
    v2 0 (const_mx 1) (const_mx 1) 1%:M 1%:M (const_mx 1)
    (c_1e_6 rat) 200 0 1 (init_s_0t d2) (init_y np_log_o d2)
    (of_fin (const_mx (- (3%:R / 4%:R)))) (const_mx (Fin 0))
    None None None None.

(** The two observations. *)
Definition j0 : 'I_(2 * 1) := ord0.
Definition j1 : 'I_(2 * 1) := lift ord0 ord0.

Lemma obs_cases (j : 'I_(2 * 1)) : j = j0 \/ j = j1.
Proof.
by case: j => [[|[|j]] lt] //; [left | right]; apply: val_inj.
Qed.

Lemma sum_obs (G : 'I_(2 * 1) -> rat) : \sum_j G j = G j0 + G j1.
Proof. by rewrite big_ord_recl big_ord1. Qed.

Lemma init_y2 : init_y np_log_o d2 = of_fin (by_market 0 (- (3%:R / 2%:R))).
Proof.
apply/matrixP => j k; rewrite !mxE big_ord1 !mxE.
by case: (obs_cases j) => ->; apply/eqP; vm_compute.
Qed.

Lemma init2 : __init__ np_log_o cholesky_w d2 = Ok st2_0.
Proof.
rewrite /__init__ /d2.
cbn [data_s_jt data_v data_D data_x1 data_x2 data_Z].
rewrite -/d2.
rewrite !trmx1 !mul1mx /cholesky_w eqxx.
cbn [bind_result].
rewrite [X in nan_lift _ X]init_y2 /nan_lift all_fin_of_fin /cho_solve_fl all_fin_of_fin.
cbn [bind_result].
rewrite /cho_solve /back_subst /forward_subst !trmx1 !invmx1 !mul1mx.
have A2 : (const_mx 1 : 'M[rat]_(2 * 1, 1))^T *m (const_mx 1 : 'M[rat]_(2 * 1, 1))
          = (2%:R)%:M.
  apply/matrixP => i k; rewrite !mxE sum_obs !mxE !ord1 eqxx.
  by apply/eqP; vm_compute.
rewrite A2 /solve unitmxE det_scalar expr1 unitfE.
have -> : (2%:R != 0 :> rat) by [].
cbn [bind_result].
rewrite invmx_scalar.
have -> : (const_mx 1 : 'M[rat]_(2 * 1, 1))
            *m ((2%:R^-1)%:M *m ((const_mx 1 : 'M[rat]_(2 * 1, 1))^T
                                  *m by_market 0 (- (3%:R / 2%:R))))
          = const_mx (- (3%:R / 4%:R)).
  apply/matrixP => j k; rewrite !mxE big_ord1 !mxE big_ord1 !mxE sum_obs !mxE !ord1.
  by apply/eqP; vm_compute.
exact: erefl.
Qed.

Local Notation GMM2 := (GMM np_exp_w np_log_o cal_mu2 cal_s2).
Local Notation cal_δ2 := (cal_δ np_exp_w np_log_o cal_mu2 cal_s2).
Local Notation cal_δ_step2 := (cal_δ_step np_exp_w np_log_o cal_s2).
Local Notation cal_δ_diff2 := (cal_δ_diff np_exp_w np_log_o cal_s2).
Local Notation after_pass2 := (after_pass np_exp_w np_log_o cal_s2).
Local Notation reachable2 :=
  (reachable np_exp_w np_log_o cholesky_w cal_mu2 cal_s2 cal_ind_choice_prob2).

Lemma const_by_market (c : rat) : const_mx c = by_market c c.
Proof. by apply/matrixP => j k; rewrite !mxE; case: ifP. Qed.

(** [μ] is the first entry of the parameter matrix in the second market and
    zero in the first. *)
Lemma cal_mu2E (st : blp2) (x y : rat) :
  v st = v2 -> D st = 0 -> x2 st = const_mx 1 ->
  cal_mu2 (lsubmx (T_w x y)) (rsubmx (T_w x y)) (v st) (D st) (x2 st)
  = of_fin (by_market 0 x).
Proof.
move=> -> -> ->; apply/matrixP => j i; rewrite !mxE /= divn1 mul0r addr0 mul1r.
case: (obs_cases j) => -> /=; first by rewrite mul0r.
by rewrite mul1r.
Qed.

Lemma cal_δ_diff2E (st : blp2) (sa sb da db ma mb : rat) :
  ln_s_jt st = map_mx np_log_o (of_fin (by_market sa sb)) ->
  δ st = of_fin (by_market da db) ->
  (cal_δ_diff2 st (of_fin (by_market ma mb))).2 =
  \col_j (if (j : nat) == 0%N
          then fsub (np_log_o (Fin sa))
                    (np_log_o (share_w (np_exp_w (Fin (da + ma)))))
          else fsub (np_log_o (Fin sb))
                    (np_log_o (share_w (np_exp_w (Fin (db + mb)))))).
Proof.
move=> Eln Eδ; apply/matrixP => j k; rewrite /cal_δ_diff /= !mxE Eln Eδ !mxE.
by case: (obs_cases j) => ->.
Qed.

Lemma adaptive_etol_le_tenth (F : realFieldType) (g : F) :
  adaptive_etol g <= ten F ^- 1.
Proof.
rewrite /adaptive_etol; case: ifP => _; first exact: ten_inv_pow_le.
by case: ifP => _; exact: ten_inv_pow_le.
Qed.

(** The mean utilities the contraction mapping returns at [[1, 0]]. *)
Definition δf2 : 'cV[rat]_(2 * 1) := by_market 0 (- (3%:R / 2%:R)).

Definition μ2 (x : rat) : 'M[fl]_(2 * 1, 1) := of_fin (by_market 0 x).

Definition entry2 : blp2 := GMM_entry st2_0 (T_w 1 0) (T_w 1 0).

Lemma ln_entry2 :
  ln_s_jt entry2 = map_mx np_log_o (of_fin (by_market (1 / 2%:R) (1 / 3%:R))).
Proof. exact: erefl. Qed.

Lemma δ_entry2 :
  δ entry2 = of_fin (by_market (- (3%:R / 4%:R)) (- (3%:R / 4%:R))).
Proof. rewrite -const_by_market; exact: erefl. Qed.

Lemma pass1 :
  cal_δ_step2 entry2 (μ2 1) = Iterating (after_pass2 entry2 (μ2 1)).
Proof.
have Ed : (cal_δ_diff2 entry2 (μ2 1)).2
          = of_fin (by_market (3%:R / 4%:R) (- (3%:R / 4%:R))).
  rewrite (cal_δ_diff2E 0 1 ln_entry2 δ_entry2).
  apply/matrixP => j k; rewrite !mxE.
  by case: (obs_cases j) => ->; apply/eqP; vm_compute.
apply: (cal_δ_step_iterating (j:=j0) Ed).
apply: le_trans (adaptive_etol_le_tenth _) _.
rewrite mxE.
by vm_compute.
Qed.

Definition st2_p1 : blp2 := after_pass2 entry2 (μ2 1).
Definition st2_p2 : blp2 := after_pass2 st2_p1 (μ2 1).

Lemma δ_p1 : δ st2_p1 = of_fin δf2.
Proof.
apply/matrixP => j k; rewrite δ_after_pass (cal_δ_diff2E 0 1 ln_entry2 δ_entry2).
rewrite δ_entry2 !mxE.
by case: (obs_cases j) => ->; apply/eqP; vm_compute.
Qed.

Lemma diff_p1 : (cal_δ_diff2 st2_p1 (μ2 1)).2 = of_fin 0.
Proof.
rewrite (cal_δ_diff2E 0 1 (ln_entry2 : ln_s_jt st2_p1 = _) δ_p1).
apply/matrixP => j k; rewrite !mxE.
by case: (obs_cases j) => ->; apply/eqP; vm_compute.
Qed.

Lemma pass2 : cal_δ_step2 st2_p1 (μ2 1) = Converged st2_p2.
Proof.
apply: (cal_δ_step_converged _ diff_p1); first by [].
  by move=> j; rewrite mxE normr0; exact: adaptive_etol_gt0.
rewrite big1 => [j _|]; first by rewrite mxE normr0.
by rewrite mul0r; exact: (ten_pow_gt0 rat 3).
Qed.

Lemma δ_p2 : δ st2_p2 = of_fin δf2.
Proof.
apply/matrixP => j k; rewrite δ_after_pass diff_p1 δ_p1 !mxE /=.
by apply: Fin_eq; rewrite addr0.
Qed.

Lemma cal_δ2_returns :
  cal_δ2 2 entry2 (T_w 1 0) = Done (Ok (of_fin δf2), st2_p2).
Proof.
rewrite /cal_δ (@cal_mu2E entry2 1 0 erefl erefl erefl) -/(μ2 1).
by rewrite /cal_δ_loop pass1 -/st2_p1 pass2 δ_p2.
Qed.

(** The object after the evaluation of the objective at [[1, 0]]. *)
Definition st2_1 : blp2 := GMM_exit (set_δ st2_p2 (of_fin δf2)) δf2.

Lemma wf2_0 : wf np_log_o st2_0.
Proof. exact: (init_wf cholesky_w_spec init2). Qed.

Lemma GMM2_first :
  GMM2 2 st2_0 (Mat (T_w 1 0)) = Done (Ok (spec_objective st2_0 δf2), st2_1).
Proof.
by have [_ ->] := GMM_returns wf2_0
     (erefl : θ_at_call st2_0 (Mat (T_w 1 0)) = Some (T_w 1 0))
     (erefl : GMM_assign (T_w 1 0) (mask_of st2_0 (T_w 1 0)) (Mat (T_w 1 0))
              = Ok (T_w 1 0)) cal_δ2_returns.
Qed.

Lemma reach2_1 : reachable2 d2 st2_1.
Proof.
have r0 : reachable2 d2 st2_0 by apply: reach_init; exact: init2.
exact: (reach_GMM (cal_ind_choice_prob:=cal_ind_choice_prob2) r0 GMM2_first).
Qed.

Lemma wf2_1 : wf np_log_o st2_1.
Proof. exact: (reachable_wf cholesky_w_spec reach2_1). Qed.

Local Notation cal_jacobian2 :=
  (cal_jacobian np_exp_w cal_mu2 cal_ind_choice_prob2).
Local Notation cal_varcov2 :=
  (cal_varcov np_exp_w cal_mu2 cal_ind_choice_prob2).
Local Notation ind_choice_prob2 :=
  (ind_choice_prob np_exp_w cal_mu2 cal_ind_choice_prob2).

(** Writing the vector [[2]] through the mask of [[1, 0]] gives [[2, 0]]. *)
Lemma setitem_two : setitem_T (T_w 1 0) mask_w [:: 2%:R] = Ok (T_w 2%:R 0).
Proof.
rewrite mask_wE /setitem_T /=; congr Ok.
apply/matrixP => i k; rewrite !mxE /= [i]ord1 eqxx andbT.
by rewrite -[k == 0]/(k == ord0); case: (k == ord0).
Qed.

Lemma nonzero_two : np_nonzero_T (T_w 2%:R 0) = [:: (ord0, ord0)].
Proof.
apply: perm_small_eq => //; apply: uniq_perm => //.
  exact: np_nonzero_T_uniq.
move=> [a b]; rewrite np_nonzero_T_mem inE xpair_eqE /= mxE [b]ord1 eqxx andbT.
rewrite -[a == 0]/(a == ord0).
by case: (a == ord0); rewrite ?eqxx.
Qed.

Lemma rel_two : rel (T_w 2%:R 0) = [:: flat ord0 ord0].
Proof. by rewrite /rel nonzero_two. Qed.

(** The object on which [cal_varcov] computes, and its choice
    probabilities: 1/2 and 3/5. *)
Definition st2_2 : blp2 := set_θ st2_1 (Some (T_w 2%:R 0)).

Definition P2 : 'M[rat]_(2 * 1, 1) := by_market (1 / 2%:R) (3%:R / 5%:R).

Lemma ind_choice_prob_two :
  all_fin (ind_choice_prob2 st2_2 (T_w 2%:R 0)) = Some P2.
Proof.
have -> : ind_choice_prob2 st2_2 (T_w 2%:R 0) = of_fin P2.
  rewrite /ind_choice_prob (@cal_mu2E st2_2 2%:R 0 erefl erefl erefl).
  apply/matrixP => j k; rewrite !mxE.
  by case: (obs_cases j) => ->; apply/eqP; vm_compute.
exact: all_fin_of_fin.
Qed.

(** The two markets. *)
Lemma mkt_cases (m : 'I_2) : m = ord0 \/ m = lift ord0 ord0.
Proof.
by case: m => [[|[|m]] lt] //; [left | right]; apply: val_inj.
Qed.

Lemma H_two_unit (m : 'I_2) : H P2 m \in unitmx.
Proof.
rewrite unitmxE det_mx11 unitfE H_entry !big_ord1 !mxE eqxx.
by case: (mkt_cases m) => ->; vm_compute.
Qed.

Lemma cal_jacobian_two : exists J, cal_jacobian2 st2_2 (T_w 2%:R 0) = Ok J.
Proof. exact: cal_jacobian_returns ind_choice_prob_two H_two_unit. Qed.

Lemma weight_two (j : 'I_(2 * 1)) (i : 'I_1) :
  weight st2_2 ord0 ord0 j i = if (j : nat) == 0%N then 0 else 1.
Proof.
rewrite /weight.
have -> : (ord0 : 'I_(1 + 1)) = lshift 1 ord0 by exact: val_inj.
rewrite (unsplitK (inl _)) [v st2_2]/= mxE /= divn1.
by [].
Qed.

(** One column of [f1] on the example: the derivative of the share with
    respect to the coefficient of the taste draw. *)
Lemma f1_two (j : 'I_(2 * 1)) :
  f1 st2_2 P2 j (flat ord0 ord0) = if (j : nat) == 0%N then 0 else 6%:R / 25%:R.
Proof.
rewrite mxE /partial_share mxE big_ord1 !mxE sum1_market big_ord1 !mxE.
rewrite fdiv_flat fmod_flat !weight_two.
have -> : flat (cdid j) ord0 = j.
  by apply: val_inj; rewrite /= divn1 muln1 addn0.
by case: (obs_cases j) => ->; apply/eqP; vm_compute.
Qed.

Lemma solve1 (a b x : rat) : a != 0 -> a * x = b -> x = b / a.
Proof. by move=> a0 <-; rewrite mulrAC mulfV // mul1r. Qed.

(** The Jacobian has one column: 0 in the first market, -1 in the second. *)
Lemma J_two (J : 'M[rat]_(2 * 1, size (rel (T_w 2%:R 0)))) :
  cal_jacobian2 st2_2 (T_w 2%:R 0) = Ok J ->
  forall c, J j0 c = 0 /\ J j1 c = -1.
Proof.
move=> EJ c; have [P EP sol] := cal_jacobian_market EJ.
move: EP; rewrite ind_choice_prob_two => -[EP]; rewrite -{P}EP in sol.
have col : tnth (in_tuple (rel (T_w 2%:R 0))) c = flat ord0 ord0.
  have := mem_tnth c (in_tuple (rel (T_w 2%:R 0))).
  rewrite memtE /= [X in _ \in X]rel_two inE.
  by move/eqP.
have ent (m : 'I_2) :
    H P2 m ord0 ord0 * J (flat m ord0) c = - f1 st2_2 P2 (flat m ord0) (flat ord0 ord0).
  have [_ _ /matrixP /(_ ord0 c)] := sol m.
  by rewrite !mxE big_ord1 !mxE col.
have E0 : flat (ord0 : 'I_2) (ord0 : 'I_1) = j0 by exact: val_inj.
have E1 : flat (lift ord0 ord0 : 'I_2) (ord0 : 'I_1) = j1 by exact: val_inj.
split.
  have := ent ord0; rewrite [X in J X]E0 [X in f1 _ _ X]E0 f1_two H_entry.
  rewrite !big_ord1 !mxE eqxx; set a := (X in X * _ = _); set b := (X in _ = X).
  have a0 : a != 0 by vm_compute.
  by move/(solve1 a0) => ->; apply/eqP; vm_compute.
have := ent (lift ord0 ord0); rewrite [X in J X]E1 [X in f1 _ _ X]E1 f1_two H_entry.
rewrite !big_ord1 !mxE eqxx; set a := (X in X * _ = _); set b := (X in _ = X).
have a0 : a != 0 by vm_compute.
by move/(solve1 a0) => ->; apply/eqP; vm_compute.
Qed.

(** [G = Z' [x1, J]] is its own inverse, so [G'WG] is invertible. *)
Lemma bread_unit_two (st : blp2) q (J : 'M[rat]_(2 * 1, q)) :
  q = 1%N -> x1 st = const_mx 1 -> Z st = 1%:M ->
  (forall c, J j0 c = 0 /\ J j1 c = -1) ->
  spec_bread st J \in unitmx.
Proof.
move=> q1; subst q => Ex EZ EJ.
rewrite /spec_bread /spec_G /spec_Winv /spec_W Ex EZ !trmx1 !mul1mx invmx1 mulmx1.
set G := row_mx _ J.
have l0 : (ord0 : 'I_(1 + 1)) = lshift 1 ord0 by exact: val_inj.
have l1 : (lift ord0 ord0 : 'I_(1 + 1)) = rshift 1 ord0 by exact: val_inj.
have G0 i : G i ord0 = 1 by rewrite l0 row_mxEl mxE.
have G10 : G j0 (lift ord0 ord0) = 0.
  by rewrite l1 row_mxEr; have [-> _] := EJ ord0.
have G11 : G j1 (lift ord0 ord0) = -1.
  by rewrite l1 row_mxEr; have [_ ->] := EJ ord0.
have GG : (G : 'M[rat]_(1 + 1)) *m (G : 'M[rat]_(1 + 1)) = 1%:M.
  apply/matrixP => i k; rewrite !mxE big_ord_recl big_ord1.
  case: (obs_cases i) => ->; case: (obs_cases k) => ->;
    rewrite /j0 /j1 ?G0 -/j0 -/j1 ?G10 ?G11 /j0 /j1 ?G0;
    by apply/eqP; vm_compute.
have [U _] := mulmx1_unit GG.
by rewrite unitmx_mul unitmx_tr U.
Qed.

Lemma size_rel_two : size (rel (T_w 2%:R 0)) = 1%N.
Proof. by rewrite rel_two. Qed.

(** The residual [GMM] stored: [(3/4, -3/4)]. *)
Definition ξ2 : 'cV[rat]_(2 * 1) :=
  spec_ξ (set_δ st2_p2 (of_fin δf2)) δf2.

Lemma varcov_two :
  exists J,
    [/\ cal_jacobian2 st2_2 (T_w 2%:R 0) = Ok J,
        spec_bread st2_1 J \in unitmx
      & cal_varcov2 st2_1 [:: 2%:R] =
        (Ok (existT _ _ (spec_sandwich st2_1 ξ2 J)), st2_2)].
Proof.
have [J EJ] := cal_jacobian_two.
have U : spec_bread st2_1 J \in unitmx.
  exact: (@bread_unit_two st2_1 _ J size_rel_two erefl erefl (J_two EJ)).
exists J; split; [exact: EJ | exact: U |].
have wf' : wf np_log_o st2_2 by exact: wf2_1.
rewrite /cal_varcov.
have -> : ξ st2_1 = Some ξ2 by [].
have -> : θ st2_1 = Some (T_w 1 0) by [].
have -> : ix_θ_T st2_1 = Some mask_w by [].
rewrite setitem_two -/st2_2.
by rewrite (@varcov_of_returns _ _ _ _ _ _ _ _ _ _ _ _ _ ξ2 _ J wf' EJ U).
Qed.

(** With the market dummies as instruments [Ω] is diagonal; with the residual
    [(a, -a)] the sandwich is [a^2 (G'G)^-1 = a^2 G G']. *)
Lemma sandwich_two (st : blp2) q (J : 'M[rat]_(2 * 1, q)) (a : rat) :
  q = 1%N -> x1 st = const_mx 1 -> Z st = 1%:M ->
  (forall c, J j0 c = 0 /\ J j1 c = -1) ->
  let V := spec_sandwich st (by_market a (- a)) J in
  forall c c' : 'I_q,
    [/\ V ord0 ord0 = a ^+ 2, V ord0 (rshift 1 c) = a ^+ 2,
        V (rshift 1 c) ord0 = a ^+ 2
      & V (rshift 1 c) (rshift 1 c') = a ^+ 2 *+ 2].
Proof.
move=> q1; subst q => Ex EZ EJ.
rewrite /spec_sandwich /spec_meat /spec_bread /spec_G /spec_Winv /spec_W /spec_Ω.
rewrite Ex EZ !trmx1 !mul1mx invmx1 !mulmx1.
set G := row_mx _ J.
have l0 : (ord0 : 'I_(1 + 1)) = lshift 1 ord0 by exact: val_inj.
have l1 : (lift ord0 ord0 : 'I_(1 + 1)) = rshift 1 ord0 by exact: val_inj.
have G0 i : G i ord0 = 1 by rewrite l0 row_mxEl mxE.
have G10 : G j0 (lift ord0 ord0) = 0.
  by rewrite l1 row_mxEr; have [-> _] := EJ ord0.
have G11 : G j1 (lift ord0 ord0) = -1.
  by rewrite l1 row_mxEr; have [_ ->] := EJ ord0.
have GG : (G : 'M[rat]_(1 + 1)) *m (G : 'M[rat]_(1 + 1)) = 1%:M.
  apply/matrixP => i k; rewrite !mxE big_ord_recl big_ord1.
  case: (obs_cases i) => ->; case: (obs_cases k) => ->;
    rewrite /j0 /j1 ?G0 -/j0 -/j1 ?G10 ?G11 /j0 /j1 ?G0;
    by apply/eqP; vm_compute.
have EΩ : (spec_Zres st (by_market a (- a)))^T *m spec_Zres st (by_market a (- a))
          = (a ^+ 2)%:M.
  apply/matrixP => i k; rewrite !mxE sum_obs !mxE EZ !mxE /=.
  case: (obs_cases i) => ->; case: (obs_cases k) => -> /=;
    by rewrite ?mul1r ?mul0r ?mulr0 ?addr0 ?add0r ?mulrNN -?expr2.
rewrite EΩ mul_mx_scalar -scalemxAl.
have inv : invmx (G^T *m G) = (G : 'M[rat]_(1 + 1)) *m (G : 'M[rat]_(1 + 1))^T.
  have E1 : (G^T *m G) *m ((G : 'M[rat]_(1 + 1)) *m (G : 'M[rat]_(1 + 1))^T) = 1%:M.
    by rewrite mulmxA -[G^T *m G *m G]mulmxA GG mulmx1 -trmx_mul GG trmx1.
  have [U _] := mulmx1_unit E1.
  by rewrite -[RHS]mul1mx -(mulVmx U) -mulmxA E1 mulmx1.
have U : G^T *m G \in unitmx.
  by have [U _] := mulmx1_unit GG; rewrite unitmx_mul unitmx_tr U.
rewrite -scalemxAr (mulVmx U) -scalemxAl mul1mx inv => c c'.
rewrite [c]ord1 [c']ord1 -l1.
have E00 : ((G : 'M[rat]_(1 + 1)) *m (G : 'M[rat]_(1 + 1))^T) j0 j0 = 1.
  rewrite mxE big_ord_recl big_ord1 2![_^T _ _]mxE.
  by rewrite G0 G10 mulr0 addr0 mulr1.
have E01 : ((G : 'M[rat]_(1 + 1)) *m (G : 'M[rat]_(1 + 1))^T) j0 j1 = 1.
  by rewrite mxE big_ord_recl big_ord1 2![_^T _ _]mxE !G0 G10 mul0r addr0 mulr1.
have E10 : ((G : 'M[rat]_(1 + 1)) *m (G : 'M[rat]_(1 + 1))^T) j1 j0 = 1.
  by rewrite mxE big_ord_recl big_ord1 2![_^T _ _]mxE !G0 G10 mulr0 addr0 mulr1.
have E11 : ((G : 'M[rat]_(1 + 1)) *m (G : 'M[rat]_(1 + 1))^T) j1 j1 = 1 + 1.
  by rewrite mxE big_ord_recl big_ord1 2![_^T _ _]mxE !G0 G11 mulrNN !mulr1.
split; rewrite mxE.
- by rewrite -[ord0]/j0 E00 mulr1.
- by rewrite -[ord0]/j0 -[lift _ _]/j1 E01 mulr1.
- by rewrite -[ord0]/j0 -[lift _ _]/j1 E10 mulr1.
- by rewrite -[lift _ _]/j1 E11 mulrDr mulr1 mulr2n.
Qed.

Lemma θ1_two (st : blp2) (δf : 'cV[rat]_(2 * 1)) :
  x1 st = const_mx 1 -> Z st = 1%:M ->
  spec_θ1 st δf = const_mx ((δf j0 0 + δf j1 0) / 2%:R).
Proof.
move=> Ex EZ; rewrite /spec_θ1 /spec_W Ex EZ trmx1 !mulmx1 invmx1 !mulmx1.
have -> : (const_mx 1 : 'M[rat]_(2 * 1, 1))^T *m const_mx 1 = (2%:R)%:M.
  apply/matrixP=> a b; rewrite [a]ord1 [b]ord1 !mxE sum_obs !mxE eqxx.
  by rewrite mulr1 mulr1n.
have U : (2%:R : rat) \is a GRing.unit by rewrite unitfE.
rewrite invmx_scalar mul_scalar_mx.
apply/matrixP=> a b; rewrite [a]ord1 [b]ord1 !mxE sum_obs !mxE !mul1r.
by rewrite mulrC.
Qed.

Lemma ξ2E : ξ2 = by_market (3%:R / 4%:R) (- (3%:R / 4%:R)).
Proof.
rewrite /ξ2 /spec_ξ (@θ1_two (set_δ st2_p2 (of_fin δf2)) δf2 (erefl _) (erefl _)).
have -> : x1 (set_δ st2_p2 (of_fin δf2)) = const_mx 1 by [].
apply/matrixP=> j i; rewrite [i]ord1 !mxE big_ord1 !mxE mul1r.
by have [->|->] := obs_cases j; apply/eqP; vm_compute.
Qed.

(** The matrix of the example: [9/16 [[1, 1], [1, 2]]]. *)
Lemma varcov_two_entries (J : 'M[rat]_(2 * 1, size (rel (T_w 2%:R 0)))) :
  cal_jacobian2 st2_2 (T_w 2%:R 0) = Ok J ->
  let V := spec_sandwich st2_1 ξ2 J in
  forall c c',
    [/\ V ord0 ord0 = 9%:R / 16%:R, V ord0 (rshift 1 c) = 9%:R / 16%:R,
        V (rshift 1 c) ord0 = 9%:R / 16%:R
      & V (rshift 1 c) (rshift 1 c') = 9%:R / 8%:R].
Proof.
move=> EJ V c c'; rewrite /V ξ2E.
have [-> -> -> ->] :=
  @sandwich_two st2_1 _ J (3%:R / 4%:R) size_rel_two erefl erefl (J_two EJ) c c'.
by split; apply/eqP; vm_compute.
Qed.

(** On the two-market object, after a call of [GMM] that returned, a
    vectorized [cal_varcov] with one value for the one masked entry returns
    the sandwich, with the Jacobian column [(0, -1)] and the residual
    [(3/4, -3/4)]: the matrix [9/16 [[1, 1], [1, 2]]]. *)
Lemma C6_witness :
  exists J : 'M[rat]_(2 * 1, size (rel (T_w 2%:R 0))),
    [/\ reachable2 d2 st2_1 /\ wf np_log_o st2_1,
        [/\ ξ st2_1 = Some ξ2, θ st2_1 = Some (T_w 1 0),
            ix_θ_T st2_1 = Some mask_w
          & setitem_T (T_w 1 0) mask_w [:: 2%:R] = Ok (T_w 2%:R 0)],
        [/\ cal_jacobian2 (set_θ st2_1 (Some (T_w 2%:R 0))) (T_w 2%:R 0) = Ok J,
            forall c, J j0 c = 0 /\ J j1 c = -1
          & ξ2 = by_market (3%:R / 4%:R) (- (3%:R / 4%:R))],
        spec_bread st2_1 J \in unitmx
      & cal_varcov2 st2_1 [:: 2%:R] =
        (Ok (existT _ _ (spec_sandwich st2_1 ξ2 J)),
         set_θ st2_1 (Some (T_w 2%:R 0))) /\
        forall c c',
          [/\ spec_sandwich st2_1 ξ2 J ord0 ord0 = 9%:R / 16%:R,
              spec_sandwich st2_1 ξ2 J ord0 (rshift 1 c) = 9%:R / 16%:R,
              spec_sandwich st2_1 ξ2 J (rshift 1 c) ord0 = 9%:R / 16%:R
            & spec_sandwich st2_1 ξ2 J (rshift 1 c) (rshift 1 c') = 9%:R / 8%:R]].
Proof.
have [J [EJ U _]] := varcov_two.
have [E _ _] :=
  @C6_varcov_sandwich rat 2 1 1 1 1 2 1 np_exp_w np_log_o cal_mu2
    cal_ind_choice_prob2 st2_1 [:: 2%:R] ξ2 mask_w (T_w 1 0) (T_w 2%:R 0) J
    wf2_1 erefl erefl erefl setitem_two EJ U.
exists J; split; [split; [exact: reach2_1 | exact: wf2_1] | | | exact: U |].
- by split=> //; exact: setitem_two.
- by split; [exact: EJ | exact: J_two EJ | exact: ξ2E].
- by split; [exact: E | exact: varcov_two_entries EJ].
Defined.

(** The matrix that call returns, two by two and not zero, is symmetric and
    positive semi-definite. *)
Lemma C7_witness :
  exists (V : 'M[rat]_(1 + size (rel (T_w 2%:R 0)))) (st' : blp2),
    [/\ reachable2 d2 st2_1 /\ wf np_log_o st2_1,
        cal_varcov2 st2_1 [:: 2%:R] = (Ok (existT _ _ V), st'),
        V ord0 ord0 = 9%:R / 16%:R,
        symmetric V & psd V].
Proof.
have [J [EJ _ E]] := varcov_two.
have [sym pos] :=
  @C7_varcov_symmetric_psd rat 2 1 1 1 1 2 1 np_exp_w np_log_o cal_mu2
    cal_ind_choice_prob2 st2_1 _ [:: 2%:R] _ wf2_1 E.
have c : 'I_(size (rel (T_w 2%:R 0))) by rewrite size_rel_two; exact: ord0.
have [V00 _ _ _] := varcov_two_entries EJ c c.
exists (spec_sandwich st2_1 ξ2 J), st2_2.
by split; [split; [exact: reach2_1 | exact: wf2_1] | exact: E | exact: V00
          | exact: sym | exact: pos].
Defined.

(** That call leaves the value it was given in the masked entry of [θ],
    the other entry as it was, and everything else untouched. *)
Lemma X19_witness :
  exists r st',
    [/\ reachable2 d2 st2_1,
        [/\ ξ st2_1 = Some ξ2, θ st2_1 = Some (T_w 1 0)
          & ix_θ_T st2_1 = Some mask_w],
        uniq mask_w /\ size [:: (2%:R : rat)] = size mask_w,
        cal_varcov2 st2_1 [:: 2%:R] = (r, st')
      & exists T',
          [/\ st' = set_θ st2_1 (Some T'), getitem_T T' mask_w = [:: 2%:R]
            & forall a b, (a, b) \notin mask_w -> T' b a = T_w 1 0 b a]].
Proof.
have [J [_ _ Ev]] := varcov_two.
have un : uniq mask_w by exact: np_nonzero_T_uniq.
have Es : size [:: (2%:R : rat)] = size mask_w by rewrite size_mask_w.
do 2!eexists; split; [exact: reach2_1 | by split | by split | exact: Ev |].
exact: (X19_varcov_overwrites_theta (st:=st2_1) (ξ':=ξ2) (T:=T_w 1 0)
          (ix:=mask_w) erefl erefl erefl un Es Ev).
Defined.

End Market.
